(** * lightctl: fading an SK6812 LED strip between persisted colour states

    A shallow embedding of [lightctl.c].  Colours are the program's packed
    [uint32_t] values (white, red, green, blue from the highest byte to the
    lowest), modelled as [Z] with the 32-bit wrap-around written out.  The
    program computes in C [float] (and, inside [get_timespan], in [double]);
    both are modelled by the IEEE-754 specification of the Standard Library
    ([SpecFloat]) at precision 24 / 53, every operation rounded to nearest
    even on its own (FLT_EVAL_METHOD = 0, no contraction). *)

From Stdlib Require Import String Ascii.
From Stdlib Require Import ZArith List Bool Lia QArith Qpower Lqa.
From Stdlib Require Import Floats.SpecFloat.
Import ListNotations.

Local Open Scope Z_scope.

(** ** IEEE-754 arithmetic *)

(** [2^e] and the value of a finite float, as rational numbers. *)
Definition bpow (e : Z) : Q := (2 ^ e)%Q.

Definition SF2Q (x : spec_float) : Q :=
  match x with
  | S754_finite s m e => (inject_Z (cond_Zopp s (Zpos m)) * bpow e)%Q
  | _ => 0%Q
  end.

Definition is_finite (x : spec_float) : bool :=
  match x with
  | S754_finite _ _ _ | S754_zero _ => true
  | _ => false
  end.

(** C [float]: binary32. *)
Module F32.
Definition prec : Z := 24.
Definition emax : Z := 128.

Definition add := SFadd prec emax.
Definition sub := SFsub prec emax.
Definition mul := SFmul prec emax.
Definition div := SFdiv prec emax.
Definition ltb := SFltb.
Definition leb := SFleb.
(** [(float) n] for an integer [n]. *)
Definition of_Z (n : Z) : spec_float := binary_normalize prec emax n 0 false.

Definition zero : spec_float := S754_zero false.
End F32.

(** C [double]: binary64. *)
Module F64.
Definition prec : Z := 53.
Definition emax : Z := 1024.

Definition add := SFadd prec emax.
Definition div := SFdiv prec emax.
Definition of_Z (n : Z) : spec_float := binary_normalize prec emax n 0 false.

(** A [float] is a [double] with the same value: the conversion only
    renormalises the mantissa. *)
Definition of_F32 (x : spec_float) : spec_float :=
  match x with
  | S754_finite s m e => binary_normalize prec emax (cond_Zopp s (Zpos m)) e s
  | _ => x
  end.

(** [(float) d] for a [double] [d]: rounding to binary32. *)
Definition to_F32 (x : spec_float) : spec_float :=
  match x with
  | S754_finite s m e => binary_normalize F32.prec F32.emax (cond_Zopp s (Zpos m)) e s
  | _ => x
  end.
End F64.

(** ** 32-bit unsigned arithmetic *)

Definition wrap32 (z : Z) : Z := z mod 2 ^ 32.
Definition add32 (x y : Z) : Z := wrap32 (x + y).
Definition mul32 (x y : Z) : Z := wrap32 (x * y).
Definition shl32 (x n : Z) : Z := wrap32 (Z.shiftl x n).
Definition is_uint32 (z : Z) : Prop := 0 <= z < 2 ^ 32.

(** [(uint32_t) x] for a [float] [x]: the fractional part is discarded; the
    conversion is undefined ([None]) when the integral part is not a
    [uint32_t] value, and for infinities and NaN. *)
Definition float_to_uint32 (x : spec_float) : option Z :=
  match x with
  | S754_zero _ => Some 0
  | S754_finite s m e =>
      let v := cond_Zopp s (Z.shiftl (Zpos m) e) in
      if (0 <=? v) && (v <? 2 ^ 32) then Some v else None
  | _ => None
  end.

(** ** Colour model *)

(** [(color >> k) & 0xff] *)
Definition channel (color k : Z) : Z := Z.land (Z.shiftr color k) 255.

Definition w_brightness : Z := 5.
Definition r_brightness : Z := 2.
Definition g_brightness : Z := 3.
Definition b_brightness : Z := 2.

Definition weighted_sum (color : Z) : Z :=
  add32 (add32 (add32 (mul32 (channel color 24) w_brightness)
                      (mul32 (channel color 16) r_brightness))
               (mul32 (channel color 8) g_brightness))
        (mul32 (channel color 0) b_brightness).

Definition get_brightness (color : Z) : spec_float :=
  F32.div (F32.of_Z (weighted_sum color))
          (F32.of_Z (add32 (add32 (add32 w_brightness r_brightness) g_brightness)
                           b_brightness)).

(** ** Undefined behaviour *)

(** Conversions of out-of-range floats are undefined in C; the embedding
    threads them as [None]. *)
Definition bind {A B : Type} (x : option A) (f : A -> option B) : option B :=
  match x with
  | Some a => f a
  | None => None
  end.

Notation "x <- c ;; k" := (bind c (fun x => k))
  (at level 61, c at next level, right associativity).

(** [((uint32_t)w << 24) + ((uint32_t)r << 16) + ((uint32_t)g << 8) + ((uint32_t)b << 0)] *)
Definition pack (new_w new_r new_g new_b : spec_float) : option Z :=
  w <- float_to_uint32 new_w ;;
  r <- float_to_uint32 new_r ;;
  g <- float_to_uint32 new_g ;;
  b <- float_to_uint32 new_b ;;
  Some (add32 (add32 (add32 (shl32 w 24) (shl32 r 16)) (shl32 g 8)) (shl32 b 0)).

(** ** Brightness limiter *)

(** [(float)((color >> k) & 0xff) * ref_brightness / brightness] *)
Definition scale_channel (color k : Z) (ref_brightness brightness : spec_float)
  : spec_float :=
  F32.div (F32.mul (F32.of_Z (channel color k)) ref_brightness) brightness.

Definition limit_brightness (color reference_color : Z) : option Z :=
  let brightness := get_brightness color in
  let ref_brightness := get_brightness reference_color in
  if F32.ltb ref_brightness brightness then
    pack (scale_channel color 24 ref_brightness brightness)
         (scale_channel color 16 ref_brightness brightness)
         (scale_channel color 8 ref_brightness brightness)
         (scale_channel color 0 ref_brightness brightness)
  else Some color.

(** ** Blending *)

(** [(1 - alpha) * (float)((color1 >> k) & 0xff) + alpha * (float)((color2 >> k) & 0xff)] *)
Definition blend_channel (color1 color2 k : Z) (alpha : spec_float) : spec_float :=
  F32.add (F32.mul (F32.sub (F32.of_Z 1) alpha) (F32.of_Z (channel color1 k)))
          (F32.mul alpha (F32.of_Z (channel color2 k))).

Definition blend_colors (color1 color2 : Z) (alpha : spec_float) : option Z :=
  pack (blend_channel color1 color2 24 alpha)
       (blend_channel color1 color2 16 alpha)
       (blend_channel color1 color2 8 alpha)
       (blend_channel color1 color2 0 alpha).

(** ** State store *)

(** A file is its bytes; a file system maps a name to a file, if there is
    one.  Opening an existing file succeeds and every byte of it can be
    read; a shorter read is a shorter file. *)
Definition file := list Byte.byte.
Definition filesystem := string -> option file.

Definition write_file (fs : filesystem) (name : string) (data : file) : filesystem :=
  fun n => if String.eqb n name then Some data else fs n.

Definition byte_of_Z (z : Z) : Byte.byte :=
  match Byte.of_N (Z.to_N (z mod 256)) with
  | Some b => b
  | None => Byte.x00
  end.

Definition Z_of_byte (b : Byte.byte) : Z := Z.of_N (Byte.to_N b).

(** One [uint32_t] in memory (little endian, as on the target). *)
Definition encode32 (c : Z) : file :=
  [byte_of_Z c; byte_of_Z (Z.shiftr c 8); byte_of_Z (Z.shiftr c 16);
   byte_of_Z (Z.shiftr c 24)].

Definition decode32 (b0 b1 b2 b3 : Byte.byte) : Z :=
  Z_of_byte b0 + Z.shiftl (Z_of_byte b1) 8 + Z.shiftl (Z_of_byte b2) 16
  + Z.shiftl (Z_of_byte b3) 24.

(** [fread(colors, sizeof(uint32_t), led_count, file)]: the complete
    elements read, at most [led_count] of them. *)
Fixpoint fread32 (data : file) (led_count : nat) : list Z :=
  match led_count, data with
  | S n, b0 :: b1 :: b2 :: b3 :: rest => decode32 b0 b1 b2 b3 :: fread32 rest n
  | _, _ => []
  end.

(** [fwrite(colors, sizeof(uint32_t), led_count, file)] *)
Fixpoint fwrite32 (colors : list Z) (led_count : nat) : file :=
  match led_count, colors with
  | S n, c :: rest => encode32 c ++ fwrite32 rest n
  | _, _ => []
  end.

(** [colors[i] = v] *)
Fixpoint store_at (colors : list Z) (i : nat) (v : Z) : list Z :=
  match colors, i with
  | [], _ => []
  | _ :: rest, O => v :: rest
  | c :: rest, S j => c :: store_at rest j v
  end.

(** [for (; n_read < led_count; ++n_read) colors[n_read] = 0;] with
    [todo = led_count - n_read] iterations left. *)
Fixpoint fill_zero (colors : list Z) (n_read todo : nat) : list Z :=
  match todo with
  | O => colors
  | S k => fill_zero (store_at colors n_read 0) (S n_read) k
  end.

(** The elements [fread] has read overwrite the beginning of the array. *)
Definition overwrite (colors items : list Z) : list Z :=
  items ++ skipn (length items) colors.

(** [load_leds]: [colors] is the caller's array as it is on entry (not
    initialised); the result is the array on return and the lines written to
    stderr.  Bytes of an incomplete last element that [fread] may leave in
    [colors[n_read]] are overwritten by the loop and not modelled. *)
Definition load_leds (fs : filesystem) (filename : string) (colors : list Z)
    (led_count : nat) : list Z * list string :=
  let '(n_read, colors, err) :=
    match fs filename with
    | None =>
        (O, colors,
         ["failed to load LED state (could not open " ++ filename ++ ")"]%string)
    | Some data =>
        let items := fread32 data led_count in
        (length items, overwrite colors items,
         if (length items <? led_count)%nat
         then ["insufficient data in " ++ filename]%string else [])
    end in
  (fill_zero colors n_read (led_count - n_read), err).

(** What the system does with one [store_leds]: [fopen(filename, "w+")]
    fails, or it opens (and empties) the file, [fwrite] returns [n_written]
    and [fclose] succeeds or not.  When [fwrite] has written every element
    and [fclose] has succeeded the file holds the array; what it holds
    otherwise is up to the system ([content]). *)
Inductive store_io :=
| Open_fails
| Opened (n_written : nat) (close_ok : bool) (content : file).

(** [store_leds]: the file system on return and the lines written to
    stderr. *)
Definition store_leds (fs : filesystem) (filename : string) (colors : list Z)
    (led_count : nat) (io : store_io) : filesystem * list string :=
  match io with
  | Open_fails =>
      (fs, ["failed to save LED state (could not open " ++ filename ++ ")"]%string)
  | Opened n_written close_ok content =>
      (write_file fs filename
         (if (led_count <=? n_written)%nat && close_ok
          then fwrite32 colors led_count else content),
       (if (n_written <? led_count)%nat
        then ["could not write all data to " ++ filename]%string else [])
       ++ (if close_ok then [] else ["could not close " ++ filename]%string))
  end.

(** ** Time *)

Record timespec := { tv_sec : Z; tv_nsec : Z }.

(** [(float)(time1->tv_sec - time0->tv_sec)
     + (float)((time1->tv_nsec - time0->tv_nsec) / 1000000ll) / 1e3]: the
    quotient and the sum are computed in [double], the result is returned as
    a [float]. *)
Definition get_timespan (time1 time0 : timespec) : spec_float :=
  F64.to_F32
    (F64.add (F64.of_F32 (F32.of_Z (tv_sec time1 - tv_sec time0)))
             (F64.div (F64.of_F32 (F32.of_Z (Z.quot (tv_nsec time1 - tv_nsec time0) 1000000)))
                      (F64.of_Z 1000))).

(** The progress of one frame:
    [progress = get_timespan(&currenttime, &starttime) / params.duration;
     if (!(progress < 1)) progress = 1;] *)
Definition raw_progress (elapsed duration : spec_float) : spec_float :=
  F32.div elapsed duration.

Definition clamp_progress (progress : spec_float) : spec_float :=
  if negb (F32.ltb progress (F32.of_Z 1)) then F32.of_Z 1 else progress.

Definition frame_progress (elapsed duration : spec_float) : spec_float :=
  clamp_progress (raw_progress elapsed duration).

(** ** Command line *)

Module params.
Record params := {
  prog_name : string;
  color : Z;              (* the 32 bits [sscanf] stored, read as [uint32_t] *)
  color_specified : bool;
  duration : spec_float;
  limit_brightness : bool
}.
End params.

Section Program.

(** The C library's [sscanf(s, "%x", &c)] and [sscanf(s, "%f", &d)]: the
    converted value, or [None] when the call returns less than 1. *)
Variable sscanf_x : string -> option Z.
Variable sscanf_f : string -> option spec_float.

(** The body of [while (++argv, --argc)] over the arguments that follow the
    program name; [None] is [return -1]. *)
Fixpoint parse_args (args : list string) (p : params.params) : option params.params * list string :=
  match args with
  | [] => (Some p, [])
  | arg :: rest =>
      if (arg =? "--help")%string || (arg =? "-h")%string then (None, [])
      else if (arg =? "--not-brighter")%string then
        parse_args rest
          {| params.prog_name := params.prog_name p;
             params.color := params.color p;
             params.color_specified := params.color_specified p;
             params.duration := params.duration p;
             params.limit_brightness := true |}
      else if (arg =? "--time")%string || (arg =? "-t")%string then
        match rest with
        | [] => (None, ["expected argument after --time"%string])
        | t :: rest' =>
            match sscanf_f t with
            | None => (None, ["expected floating point number after --time"%string])
            | Some d =>
                parse_args rest'
                  {| params.prog_name := params.prog_name p;
                     params.color := params.color p;
                     params.color_specified := params.color_specified p;
                     params.duration := d;
                     params.limit_brightness := params.limit_brightness p |}
            end
        end
      else if negb (params.color_specified p) then
        match sscanf_x arg with
        | None =>
            (None, ["unknown argument " ++ arg
                    ++ " (color argument must be a hexadecimal number)"]%string)
        | Some c =>
            parse_args rest
              {| params.prog_name := params.prog_name p;
                 params.color := c;
                 params.color_specified := true;
                 params.duration := params.duration p;
                 params.limit_brightness := params.limit_brightness p |}
        end
      else (None, ["unknown argument " ++ arg
                   ++ " (only one color argument allowed)"]%string)
  end.

Definition parse_cmdline (name : string) (args : list string)
  : option params.params * list string :=
  parse_args args
    {| params.prog_name := name;
       params.color := 0;
       params.color_specified := false;
       params.duration := S754_zero false;
       params.limit_brightness := false |}.

(** ** The fade engine *)

(** [ledstrip.channel[0].count] and [ledstrip.channel[1].count] *)
Definition count0 : nat := 167.
Definition count1 : nat := 109.

(** Modelled from the spec: ws2811.h, which declares [ws2811_return_t], is
    not among the sources; the driver's status is "0 on success, a
    driver-specific nonzero code otherwise", so [WS2811_SUCCESS] is 0. *)
Definition WS2811_SUCCESS : Z := 0.

(** What the world does at one iteration of [while (running)]: the value of
    [running] at the test, the result of [clock_gettime] ([None]: it
    failed), the status of [ws2811_render] and what becomes of the two
    calls of [store_leds]. *)
Record frame_event := {
  running : bool;
  clock : option timespec;
  render : Z;
  store0 : store_io;
  store1 : store_io
}.

Record world := {
  setuid : Z;                     (* result of [setuid(0)] *)
  files : filesystem;
  stack : nat -> Z;               (* contents of the arrays before [load_leds] *)
  starttime : option timespec;    (* the first [clock_gettime] *)
  init : Z;                       (* status of [ws2811_init] *)
  frames : list frame_event
}.

Inductive status :=
| Exit (code : Z)     (* [main] returns [code] *)
| Undefined           (* a conversion to [uint32_t] was out of range *)
| Unfinished.         (* the loop is still running when the events end *)

Record run := {
  exit : status;
  rendered : list (list Z * list Z);   (* the buffers given to [ws2811_render] *)
  saved : filesystem;
  stderr : list string;
  usage : bool                         (* [print_usage] was called *)
}.

(** [for (i = 0; i < count; ++i) leds[i] = blend_colors(start[i], end[i], progress);] *)
Fixpoint blend_leds (start_ end_ : list Z) (progress : spec_float) : option (list Z) :=
  match start_, end_ with
  | s :: start', e :: end' =>
      c <- blend_colors s e progress ;;
      rest <- blend_leds start' end' progress ;;
      Some (c :: rest)
  | _, _ => Some []
  end.

(** [for (i = 0; i < count; ++i)
      end[i] = params.limit_brightness ? limit_brightness(params.color, start[i]) : params.color;] *)
Fixpoint end_state (p : params.params) (start_ : list Z) : option (list Z) :=
  match start_ with
  | [] => Some []
  | s :: start' =>
      c <- (if params.limit_brightness p then limit_brightness (params.color p) s
            else Some (params.color p)) ;;
      rest <- end_state p start' ;;
      Some (c :: rest)
  end.

(** The loop [while (running) { ... }] followed by [ws2811_fini] and
    [return ret]; [shown] collects the rendered buffers, latest first. *)
Fixpoint animate (p : params.params) (start0 end0 start1 end1 : list Z) (t0 : timespec)
    (ret : Z) (fs : filesystem) (shown : list (list Z * list Z))
    (err : list string) (events : list frame_event) : run :=
  let stop code fs shown err :=
    {| exit := code; rendered := rev shown; saved := fs; stderr := err;
       usage := false |} in
  match events with
  | [] => stop Unfinished fs shown err
  | ev :: events' =>
      if negb (running ev) then stop (Exit ret) fs shown err
      else
        match clock ev with
        | None => stop (Exit ret) fs shown (err ++ ["clock failed"%string])
        | Some now =>
            let progress := frame_progress (get_timespan now t0) (params.duration p) in
            match blend_leds start0 end0 progress, blend_leds start1 end1 progress with
            | Some leds0, Some leds1 =>
                let ret := render ev in
                let shown := (leds0, leds1) :: shown in
                if negb (ret =? WS2811_SUCCESS) then
                  stop (Exit ret) fs shown (err ++ ["ws2811_render failed"%string])
                else
                  let '(fs, err0) := store_leds fs "/tmp/leds0" leds0 count0 (store0 ev) in
                  let '(fs, err1) := store_leds fs "/tmp/leds1" leds1 count1 (store1 ev) in
                  let err := err ++ err0 ++ err1 in
                  if F32.leb (F32.of_Z 1) progress then stop (Exit ret) fs shown err
                  else animate p start0 end0 start1 end1 t0 ret fs shown err events'
            | _, _ => stop Undefined fs shown err
            end
        end
  end.

Definition main (name : string) (args : list string) (w : world) : run :=
  let quit code err use :=
    {| exit := code; rendered := []; saved := files w; stderr := err; usage := use |} in
  match parse_cmdline name args with
  | (None, err) => quit (Exit (-1)) err true
  | (Some p, err) =>
      if negb (setuid w =? 0) then
        quit (Exit (-1)) (err ++ ["Could not impersonate root user."%string]) false
      else
        let '(start0, err0) :=
          load_leds (files w) "/tmp/leds0" (map (stack w) (seq 0 count0)) count0 in
        let '(start1, err1) :=
          load_leds (files w) "/tmp/leds1" (map (stack w) (seq count0 count1)) count1 in
        let err := err ++ err0 ++ err1 in
        match end_state p start0, end_state p start1 with
        | Some end0, Some end1 =>
            match starttime w with
            | None => quit (Exit (-1)) (err ++ ["clock failed"%string]) false
            | Some t0 =>
                if negb (init w =? WS2811_SUCCESS) then
                  quit (Exit (init w)) (err ++ ["ws2811_init failed"%string]) false
                else
                  animate p start0 end0 start1 end1 t0 (init w) (files w) [] err (frames w)
            end
        | _, _ => quit Undefined err false
        end
  end.

End Program.

(** *** A reading of the two conversions

    Enough of [sscanf] to run the program on plain arguments: ["%x"] takes
    hexadecimal digits, ["%f"] an optional sign and decimal digits with an
    optional fraction, rounded to the nearest [float]. *)

Definition hex_digit (c : ascii) : option Z :=
  let n := Z.of_nat (nat_of_ascii c) in
  if (48 <=? n) && (n <=? 57) then Some (n - 48)
  else if (97 <=? n) && (n <=? 102) then Some (n - 87)
  else if (65 <=? n) && (n <=? 70) then Some (n - 55)
  else None.

Fixpoint hex_digits (s : string) (acc : option Z) : option Z :=
  match s with
  | EmptyString => acc
  | String c rest =>
      match hex_digit c with
      | Some d => hex_digits rest (Some (16 * match acc with Some a => a | None => 0 end + d))
      | None => acc
      end
  end.

Definition scan_hex (s : string) : option Z :=
  match hex_digits s None with
  | Some v => Some (wrap32 v)
  | None => None
  end.

Definition dec_digit (c : ascii) : option Z :=
  let n := Z.of_nat (nat_of_ascii c) in
  if (48 <=? n) && (n <=? 57) then Some (n - 48) else None.

(** Digits, one optional point, digits: the digits read as one integer,
    the number of digits after the point, and whether a digit was seen. *)
Fixpoint dec_digits (s : string) (point : bool) (m : Z) (frac : Z) (seen : bool)
  : Z * Z * bool :=
  match s with
  | EmptyString => (m, frac, seen)
  | String c rest =>
      match dec_digit c with
      | Some d => dec_digits rest point (10 * m + d) (if point then frac + 1 else frac) true
      | None =>
          if (Ascii.eqb c "."%char) && negb point then dec_digits rest true m frac seen
          else (m, frac, seen)
      end
  end.

Definition scan_float (s : string) : option spec_float :=
  let '(neg, body) :=
    match s with
    | String "-"%char rest => (true, rest)
    | String "+"%char rest => (false, rest)
    | _ => (false, s)
    end in
  let '(m, frac, seen) := dec_digits body false 0 0 false in
  if negb seen then None
  else
    match m with
    | Zpos q => Some (F32.div (S754_finite neg q 0) (S754_finite false (Z.to_pos (10 ^ frac)) 0))
    | _ => Some (S754_zero neg)
    end.

(** ** Specification-side definitions *)

(** The complete 32-bit entries a file holds. *)
Fixpoint entries (data : file) : list Z :=
  match data with
  | b0 :: b1 :: b2 :: b3 :: rest => decode32 b0 b1 b2 b3 :: entries rest
  | _ => []
  end.

(** The weighted channel sum without wrap-around, and the brightness the
    program derives from such a sum. *)
Definition weights (color : Z) : Z :=
  5 * channel color 24 + 2 * channel color 16 + 3 * channel color 8
  + 2 * channel color 0.

Definition brightness_of (n : Z) : spec_float :=
  F32.div (F32.of_Z n) (F32.of_Z 12).

(** [P] holds of 0, ..., [n - 1]. *)
Definition all_below (n : nat) (P : Z -> bool) : bool :=
  forallb P (map Z.of_nat (seq 0 n)).

(** ** Definitions for the rounding proofs *)

(** Where [N / D] lies between the integers [N / D] and [N / D + 1]. *)
Definition location_of (N D : Z) : location :=
  if N mod D =? 0 then loc_Exact else loc_Inexact (2 * (N mod D) ?= D).

(** The shift record [mrs] stands for the rational [N / D]. *)
Definition represents (N D : Z) (mrs : shr_record) : Prop :=
  0 < D /\ 0 <= N /\ shr_m mrs = N / D /\ loc_of_shr_record mrs = location_of N D.

(** What [binary_round_aux] builds from the rounded mantissa. *)
Definition result_of (prec emax : Z) (s : bool) (m e : Z) : spec_float :=
  match m with
  | Z0 => S754_zero s
  | Zpos p => if e <=? emax - prec then S754_finite s p e else S754_infinity s
  | Zneg _ => S754_nan
  end.

Definition finite_of (m e : Z) : spec_float :=
  match m with
  | Z0 => S754_zero false
  | Zpos p => S754_finite false p e
  | Zneg _ => S754_nan
  end.

(** A non-negative float whose mantissa has at most [prec] bits and whose
    exponent is not positive. *)
Definition tame (prec : Z) (x : spec_float) : Prop :=
  match x with
  | S754_zero false => True
  | S754_finite false m e => Zpos m < 2 ^ prec /\ e <= 0
  | _ => False
  end.

(** The sign bit is clear (NaN has none). *)
Definition nonneg_float (x : spec_float) : Prop :=
  match x with
  | S754_zero s | S754_infinity s | S754_finite s _ _ => s = false
  | S754_nan => True
  end.

(** The shape of a quotient of non-negative floats. *)
Definition quotient_shape (prec : Z) (r : spec_float) : Prop :=
  match r with
  | S754_nan | S754_infinity false | S754_zero false => True
  | S754_finite false m e => Zpos m < 2 ^ prec
  | _ => False
  end.

(** A non-negative finite float in canonical form. *)
Definition canonical_nonneg (prec emax : Z) (x : spec_float) : Prop :=
  match x with
  | S754_zero false => True
  | S754_finite false m e => canonical_mantissa prec emax m e = true
  | _ => False
  end.

Definition compose (w r g b : Z) : Z := w * 2 ^ 24 + r * 2 ^ 16 + g * 2 ^ 8 + b.

(** The relative rounding error of binary32: 2^-24. *)
Definition u24 : Q := 1 # 16777216.

Definition sf_eqb (x y : spec_float) : bool :=
  match x, y with
  | S754_zero s1, S754_zero s2 => Bool.eqb s1 s2
  | S754_infinity s1, S754_infinity s2 => Bool.eqb s1 s2
  | S754_nan, S754_nan => true
  | S754_finite s1 m1 e1, S754_finite s2 m2 e2 =>
      Bool.eqb s1 s2 && (m1 =? m2)%positive && (e1 =? e2)
  | _, _ => false
  end.

(** What the proofs need of [brightness_of n], checked entry by entry. *)
Definition brightness_entry_ok (n : Z) : bool :=
  match brightness_of n with
  | S754_zero false => n =? 0
  | S754_finite false m e =>
      (0 <? n) && (Zpos m <? 2 ^ 24) && (e <=? 0)
      && canonical_mantissa 24 128 m e
      && Qle_bool (inject_Z n * (1 - u24)) (12 * (inject_Z (Zpos m) * bpow e))
      && Qle_bool (12 * (inject_Z (Zpos m) * bpow e)) (inject_Z n * (1 + u24))
  | _ => false
  end.

(** What the proofs need of [(float) c] for a channel value [c]. *)
Definition channel_entry_ok (c : Z) : bool :=
  match F32.of_Z c with
  | S754_zero false => c =? 0
  | S754_finite false m e =>
      (0 <? c) && (Zpos m <? 2 ^ 24) && (e <=? 0)
      && Qeq_bool (inject_Z (Zpos m) * bpow e) (inject_Z c)
  | _ => false
  end
  && sf_eqb (F32.mul (F32.of_Z 1) (F32.of_Z c)) (F32.of_Z c)
  && sf_eqb (F32.mul F32.zero (F32.of_Z c)) F32.zero
  && match float_to_uint32 (F32.of_Z c) with
     | Some v => v =? c
     | None => false
     end.

(** [v] is [c * nR / nC] rounded down, or one less when that is an integer. *)
Definition scaled_down (c v nR nC : Z) : Prop :=
  0 <= v /\ v * nC <= c * nR <= (v + 1) * nC.

(** The bit positions of the four channels. *)
Definition shifts : list Z := [24; 16; 8; 0].

(** [c] is [color] with every channel kept or lowered by one. *)
Definition near (color c : Z) : Prop :=
  forall k, In k shifts ->
    0 <= channel c k /\ channel color k - 1 <= channel c k <= channel color k.

(** [store_leds] has written every element and closed the file. *)
Definition stored (led_count : nat) (io : store_io) : Prop :=
  match io with
  | Opened n_written true _ => (led_count <= n_written)%nat
  | _ => False
  end.

(** Both calls of [store_leds] of an iteration succeed. *)
Definition frame_stored (ev : frame_event) : Prop :=
  stored count0 (store0 ev) /\ stored count1 (store1 ev).

(** A rendered frame has all the LEDs of both channels, and every LED is a
    [uint32_t] near [color]. *)
Definition frame_shows (color : Z) (frame : list Z * list Z) : Prop :=
  length (fst frame) = count0 /\ length (snd frame) = count1
  /\ Forall (fun c => is_uint32 c /\ near color c) (fst frame)
  /\ Forall (fun c => is_uint32 c /\ near color c) (snd frame).

(** The frame the iteration [ev] renders shows [color], and exactly
    [color] on every LED when the progress of the iteration is 0 or 1. *)
Definition same_frame (p : params.params) (t0 : timespec) (color : Z)
    (ev : frame_event) (frame : list Z * list Z) : Prop :=
  frame_shows color frame
  /\ forall now, clock ev = Some now ->
       frame_progress (get_timespan now t0) (params.duration p) = F32.zero
       \/ frame_progress (get_timespan now t0) (params.duration p) = F32.of_Z 1 ->
       frame = (repeat color count0, repeat color count1).

(** ** Worlds for the examples *)

(** Both state files hold the colour [c] for every LED. *)
Definition files_showing (c : Z) : filesystem :=
  fun name =>
    if (name =? "/tmp/leds0")%string then Some (fwrite32 (repeat c count0) count0)
    else if (name =? "/tmp/leds1")%string then Some (fwrite32 (repeat c count1) count1)
    else None.

Definition no_files : filesystem := fun _ => None.

(** The process may become root, the clock reads 1 s when the fade starts
    and the driver initialises. *)
Definition world_of (fs : filesystem) (events : list frame_event) : world :=
  {| setuid := 0; files := fs; stack := fun _ => 0;
     starttime := Some {| tv_sec := 1; tv_nsec := 0 |};
     init := WS2811_SUCCESS; frames := events |}.

(** An iteration [ms] milliseconds after the start, rendered and stored
    without error. *)
Definition frame_at (ms : Z) : frame_event :=
  {| running := true;
     clock := Some {| tv_sec := 1 + ms / 1000; tv_nsec := (ms mod 1000) * 1000000 |};
     render := WS2811_SUCCESS;
     store0 := Opened count0 true []; store1 := Opened count1 true [] |}.

(** An iteration at which [clock_gettime] fails. *)
Definition clock_fails : frame_event :=
  {| running := true; clock := None; render := WS2811_SUCCESS;
     store0 := Opened count0 true []; store1 := Opened count1 true [] |}.

(** The signal handler has cleared [running]. *)
Definition cancelled : frame_event :=
  {| running := false; clock := None; render := WS2811_SUCCESS;
     store0 := Opened count0 true []; store1 := Opened count1 true [] |}.

(** ** Definitions for the further properties *)

(** Plus zero, a positive finite float or plus infinity. *)
Definition plus_float (x : spec_float) : Prop :=
  match x with
  | S754_zero s | S754_infinity s | S754_finite s _ _ => s = false
  | S754_nan => False
  end.

(** A float of value at least 1, or plus infinity. *)
Definition at_least_one (x : spec_float) : Prop :=
  match x with
  | S754_finite false m e => (1 <= inject_Z (Zpos m) * bpow e)%Q
  | S754_infinity false => True
  | _ => False
  end.

(** [(float) ms / 1e3], in [double]. *)
Definition millis (ms : Z) : spec_float :=
  F64.div (F64.of_F32 (F32.of_Z ms)) (F64.of_Z 1000).

(** A negative number of milliseconds below one second is a negative
    fraction of a second. *)
Definition millis_entry_ok (k : Z) : bool :=
  match millis (- k) with
  | S754_zero false => k =? 0
  | S754_finite true m e => (0 <? k) && Qle_bool (inject_Z (Zpos m) * bpow e) 1
  | _ => false
  end.

(** [t1] is not before [t0]; both are readings of [clock_gettime], with
    nanoseconds below one second. *)
Definition not_before (t0 t1 : timespec) : Prop :=
  0 <= tv_nsec t0 < 1000000000 /\ 0 <= tv_nsec t1 < 1000000000
  /\ (tv_sec t0 < tv_sec t1 \/ (tv_sec t0 = tv_sec t1 /\ tv_nsec t0 <= tv_nsec t1)).

(** A byte survives [byte_of_Z] and [Z_of_byte]. *)
Definition byte_entry_ok (z : Z) : bool := Z_of_byte (byte_of_Z z) =? z.

(** [c] is a [uint32_t] whose channels lie between those of [color1] and
    [color2], or one below the smaller. *)
Definition between (color1 color2 c : Z) : Prop :=
  is_uint32 c
  /\ forall k, In k shifts ->
       Z.min (channel color1 k) (channel color2 k) - 1 <= channel c k
       <= Z.max (channel color1 k) (channel color2 k).

(** The same, LED by LED. *)
Definition leds_between (start_ end_ leds : list Z) : Prop :=
  Forall2 (fun se c => between (fst se) (snd se) c) (combine start_ end_) leds.

(** Both buffers of a rendered frame lie between the start and the end
    state. *)
Definition frame_between (start0 end0 start1 end1 : list Z)
    (frame : list Z * list Z) : Prop :=
  leds_between start0 end0 (fst frame) /\ leds_between start1 end1 (snd frame).

(** An iteration that renders a frame of progress below 1, stores it
    without error and goes on. *)
Definition frame_continues (p : params.params) (t0 : timespec) (ev : frame_event) : Prop :=
  running ev = true /\ render ev = WS2811_SUCCESS /\ frame_stored ev
  /\ exists now,
       clock ev = Some now /\ not_before t0 now
       /\ F32.leb (F32.of_Z 1)
            (frame_progress (get_timespan now t0) (params.duration p)) = false.

(** Every buffer given to the driver has the length of its channel and holds
    [uint32_t] values. *)
Definition frame_well_formed (frame : list Z * list Z) : Prop :=
  length (fst frame) = count0 /\ length (snd frame) = count1
  /\ Forall is_uint32 (fst frame) /\ Forall is_uint32 (snd frame).

(** Every LED of the end state is the requested colour, limited against
    the LED's start colour when [--not-brighter] is given. *)
Definition end_led (p : params.params) (s e : Z) : Prop :=
  if params.limit_brightness p
  then limit_brightness (params.color p) s = Some e
  else e = params.color p.

(** The state files hold the frame rendered last. *)
Definition in_sync (fs : filesystem) (shown : list (list Z * list Z)) : Prop :=
  match shown with
  | [] => True
  | (leds0, leds1) :: _ =>
      fs "/tmp/leds0"%string = Some (fwrite32 leds0 count0)
      /\ fs "/tmp/leds1"%string = Some (fwrite32 leds1 count1)
  end.

(** The arguments [parse_cmdline] compares with an option name. *)
Definition is_option (arg : string) : bool :=
  (arg =? "--help")%string || (arg =? "-h")%string
  || (arg =? "--not-brighter")%string
  || (arg =? "--time")%string || (arg =? "-t")%string.

(** * Properties *)

(** ** Binary rounding

    The operations of [SpecFloat] round a mantissa with [binary_round_aux]:
    it shifts the mantissa right until it fits the format, keeping track of
    the bits that fall off, and rounds to nearest, ties to even.  This part
    proves, for any format, that the result is within half a unit in the last
    place of the exact value. *)

Lemma pow2_pos (k : Z) : 0 <= k -> 0 < 2 ^ k.
Proof. intros. apply Z.pow_pos_nonneg; lia. Qed.

Lemma pow2_succ (k : Z) : 0 <= k -> 2 ^ (k + 1) = 2 * 2 ^ k.
Proof. intros. rewrite Z.pow_add_r by lia. lia. Qed.

(** The number of binary digits of a mantissa brackets it between two powers
    of 2. *)
Lemma digits2_pos_bounds (p : positive) :
  2 ^ (Zpos (digits2_pos p) - 1) <= Zpos p < 2 ^ Zpos (digits2_pos p).
Proof.
  induction p as [p IH|p IH|]; cbn [digits2_pos]; rewrite ?Pos2Z.inj_succ.
  - replace (Z.succ (Zpos (digits2_pos p)) - 1) with ((Zpos (digits2_pos p) - 1) + 1) by lia.
    unfold Z.succ. rewrite !pow2_succ by lia. lia.
  - replace (Z.succ (Zpos (digits2_pos p)) - 1) with ((Zpos (digits2_pos p) - 1) + 1) by lia.
    unfold Z.succ. rewrite !pow2_succ by lia. lia.
  - cbn. lia.
Qed.

Lemma Zdigits2_bounds (m : Z) :
  0 < m -> 0 < Zdigits2 m /\ 2 ^ (Zdigits2 m - 1) <= m < 2 ^ Zdigits2 m.
Proof.
  destruct m as [|p|p]; try lia. intros _. cbn [Zdigits2].
  split; [lia|apply digits2_pos_bounds].
Qed.

Lemma Zdigits2_le (m p : Z) : 0 <= p -> 0 <= m < 2 ^ p -> Zdigits2 m <= p.
Proof.
  intros Hp Hm. destruct (Z.eq_dec m 0) as [->|Hn]; [cbn; lia|].
  destruct (Zdigits2_bounds m ltac:(lia)) as (Hd & Hlo & _).
  destruct (Z.le_gt_cases (Zdigits2 m) p) as [|Hgt]; [assumption|].
  assert (2 ^ p <= 2 ^ (Zdigits2 m - 1)) by (apply Z.pow_le_mono_r; lia). lia.
Qed.

Lemma Zdigits2_gt (m p : Z) : 0 <= p -> 2 ^ p <= m -> p < Zdigits2 m.
Proof.
  intros Hp Hm. pose proof (pow2_pos p Hp).
  destruct (Zdigits2_bounds m ltac:(lia)) as (Hd & _ & Hhi).
  destruct (Z.lt_ge_cases p (Zdigits2 m)) as [|Hge]; [assumption|].
  assert (2 ^ Zdigits2 m <= 2 ^ p) by (apply Z.pow_le_mono_r; lia). lia.
Qed.

Lemma location_roundtrip (m : Z) (l : location) :
  loc_of_shr_record (shr_record_of_loc m l) = l /\ shr_m (shr_record_of_loc m l) = m.
Proof. destruct l as [|[| |]]; split; reflexivity. Qed.

(** One shift to the right: the record stands for the same [N / D], now
    counted in units twice as large. *)
Lemma shr_1_represents (N D : Z) (mrs : shr_record) :
  represents N D mrs -> represents N (2 * D) (shr_1 mrs).
Proof.
  destruct mrs as [m r s]. unfold represents. cbn [shr_m].
  intros (HD & HN & Hm & Hl).
  assert (Hq : N / (2 * D) = (N / D) / 2)
    by (rewrite (Z.mul_comm 2 D), Z.div_div by lia; reflexivity).
  assert (Hr : N mod (2 * D) = N mod D + D * ((N / D) mod 2))
    by (rewrite (Z.mul_comm 2 D); apply Z.rem_mul_r; lia).
  pose proof (Z.mod_pos_bound N D HD) as Hrho.
  pose proof (Z.div_pos N D HN HD) as Hq0.
  unfold location_of in *. rewrite Hq, Hr. rewrite <- Hm in *.
  clear Hq Hr Hm.
  repeat split; try lia.
  - destruct m as [|[p|p|]|p]; cbn [shr_1 shr_m]; try lia;
      Z.div_mod_to_equations; lia.
  - revert Hl.
    destruct (Z.eqb_spec (N mod D) 0) as [E|E];
    destruct (Z.compare_spec (2 * (N mod D)) D) as [C|C|C];
    destruct r, s; cbn [loc_of_shr_record]; try discriminate; intros _;
    destruct m as [|[p|p|]|p]; cbn [shr_1 loc_of_shr_record orb]; try lia;
    match goal with
    | |- context [Z.modulo ?a 2] =>
        first [ assert (a mod 2 = 0) as -> by (Z.div_mod_to_equations; lia)
              | assert (a mod 2 = 1) as -> by (Z.div_mod_to_equations; lia) ]
    end;
    match goal with
    | |- context [Z.eqb ?x 0] => destruct (Z.eqb_spec x 0)
    end; try lia; try reflexivity;
    match goal with
    | |- context [Z.compare ?x ?y] => destruct (Z.compare_spec x y)
    end; try lia; reflexivity.
Qed.

Lemma iter_pos_represents (p : positive) :
  forall N D mrs, represents N D mrs ->
    represents N (2 ^ Zpos p * D) (iter_pos shr_1 p mrs).
Proof.
  induction p as [p IH|p IH|]; intros N D mrs H; cbn [iter_pos].
  - replace (2 ^ Zpos p~1 * D) with (2 ^ Zpos p * (2 ^ Zpos p * (2 * D))).
    + apply IH, IH, shr_1_represents, H.
    + replace (Zpos p~1) with (Zpos p + Zpos p + 1) by lia.
      rewrite !Z.pow_add_r by lia. change (2 ^ 1) with 2. lia.
  - replace (2 ^ Zpos p~0 * D) with (2 ^ Zpos p * (2 ^ Zpos p * D)).
    + apply IH, IH, H.
    + replace (Zpos p~0) with (Zpos p + Zpos p) by lia.
      rewrite !Z.pow_add_r by lia. lia.
  - change (2 ^ 1) with 2. apply shr_1_represents, H.
Qed.

Lemma shr_represents (N D : Z) (mrs : shr_record) (e n : Z) :
  represents N D mrs ->
  represents N (2 ^ Z.max 0 n * D) (fst (shr mrs e n))
  /\ snd (shr mrs e n) = e + Z.max 0 n.
Proof.
  intros H. destruct n as [|p|p]; cbn [shr fst snd].
  - change (Z.max 0 0) with 0. change (2 ^ 0) with 1.
    rewrite Z.mul_1_l. split; [assumption|lia].
  - rewrite Z.max_r by lia. split; [now apply iter_pos_represents|reflexivity].
  - rewrite Z.max_l by lia. change (2 ^ 0) with 1.
    rewrite Z.mul_1_l. split; [assumption|lia].
Qed.

(** Rounding to nearest, ties to even, goes to one of the two neighbouring
    integers and is off by at most one half. *)
Lemma round_represents (N D : Z) (mrs : shr_record) :
  represents N D mrs ->
  let m' := round_nearest_even (shr_m mrs) (loc_of_shr_record mrs) in
  (m' = N / D \/ m' = N / D + 1) /\ - D <= 2 * (m' * D - N) <= D.
Proof.
  intros (HD & HN & Hm & Hl). cbn zeta. rewrite Hl, Hm. unfold location_of.
  pose proof (Z.mod_pos_bound N D HD) as Hrho.
  pose proof (Z.div_mod N D ltac:(lia)) as Hdm.
  destruct (Z.eqb_spec (N mod D) 0) as [E|E]; cbn [round_nearest_even].
  - split; [now left|]. nia.
  - destruct (Z.compare_spec (2 * (N mod D)) D) as [C|C|C].
    + destruct (Z.even (N / D)); (split; [auto|nia]).
    + split; [now left|]. nia.
    + split; [now right|]. nia.
Qed.


Lemma bpow_pos (e : Z) : (0 < bpow e)%Q.
Proof. apply Qpower_0_lt. reflexivity. Qed.

Lemma bpow_add (a b : Z) : (bpow (a + b) == bpow a * bpow b)%Q.
Proof. apply Qpower_plus. discriminate. Qed.

Lemma bpow_inject (k : Z) : 0 <= k -> (inject_Z (2 ^ k) == bpow k)%Q.
Proof. intros. now apply Zpower_Qpower. Qed.

Lemma bpow_le (a b : Z) : a <= b -> (bpow a <= bpow b)%Q.
Proof. intros. apply Qpower_le_compat_l; [assumption|discriminate]. Qed.

Lemma bpow_lt_inv (a b : Z) : (bpow a < bpow b)%Q -> a < b.
Proof.
  intros H. destruct (Z.lt_ge_cases a b) as [|Hge]; [assumption|].
  apply bpow_le in Hge. apply Qle_not_lt in Hge. contradiction.
Qed.

Lemma bpow_double (e : Z) : (bpow e == 2 * bpow (e - 1))%Q.
Proof.
  replace e with (1 + (e - 1)) at 1 by lia. rewrite bpow_add. reflexivity.
Qed.

Lemma inject_Z_pos (z : Z) : 0 < z -> (0 < inject_Z z)%Q.
Proof. intros. change 0%Q with (inject_Z 0). now rewrite <- Zlt_Qlt. Qed.

(** The location [SFdiv] computes from the remainder of its division. *)
Lemma new_location_of (N D : Z) :
  0 < D -> new_location D (N mod D) = location_of N D.
Proof.
  intros HD. pose proof (Z.mod_pos_bound N D HD) as Hr.
  unfold new_location, location_of, new_location_even, new_location_odd.
  destruct (Z.even D) eqn:Hev; destruct (Z.eqb_spec (N mod D) 0); try reflexivity.
  f_equal.
  assert (Hodd : Z.odd D = true) by (now rewrite <- Z.negb_even, Hev).
  apply Z.odd_spec in Hodd. destruct Hodd as [k Hk].
  destruct (Z.compare_spec (2 * (N mod D) + 1) D);
    destruct (Z.compare_spec (2 * (N mod D)) D); try reflexivity; lia.
Qed.

(** [shl_align] lowers the exponent to [e'] when it is above, and keeps the
    value. *)
Lemma shl_align_spec (m : positive) (e e' : Z) :
  let '(m', e'') := shl_align m e e' in
  e'' = Z.min e e' /\ Zpos m' = Zpos m * 2 ^ (e - e'').
Proof.
  unfold shl_align. destruct (e' - e) as [|d|d] eqn:Hd.
  - split; [lia|]. replace (e - e) with 0 by lia. cbn. lia.
  - split; [lia|]. replace (e - e) with 0 by lia. cbn. lia.
  - split; [lia|]. replace (e - e') with (Zpos d) by lia.
    clear Hd. revert m. induction d as [|d IH] using Pos.peano_ind; intros m.
    + cbn. lia.
    + rewrite Pos.iter_succ, Pos2Z.inj_xO, IH, Pos2Z.inj_succ, Z.pow_succ_r by lia.
      lia.
Qed.

Lemma represents_exact (N : Z) :
  0 <= N -> represents N 1 (shr_record_of_loc N loc_Exact).
Proof.
  intros HN. unfold represents, location_of.
  cbn [shr_record_of_loc shr_m loc_of_shr_record].
  rewrite Z.mod_1_r, Z.div_1_r. repeat split; try lia; reflexivity.
Qed.

(** *** A format: [prec] bits of mantissa, exponents below [emax] *)

Section Format.

Variables prec emax : Z.
Hypothesis prec_gt_0 : 0 < prec.
Hypothesis prec_lt_emax : prec < emax.

Lemma fexp_ge (x : Z) : x - prec <= fexp prec emax x /\ emin prec emax <= fexp prec emax x.
Proof. unfold fexp. lia. Qed.

Lemma fexp_le (x y : Z) : x - prec <= y -> emin prec emax <= y -> fexp prec emax x <= y.
Proof. unfold fexp. lia. Qed.

Lemma fexp_carry (e : Z) :
  emin prec emax <= e -> fexp prec emax (prec + 1 + e) - e = 1.
Proof. unfold fexp. lia. Qed.

Lemma pow2_pred (p : Z) : 0 < p -> 2 ^ p = 2 * 2 ^ (p - 1).
Proof. intros. rewrite <- pow2_succ by lia. f_equal. lia. Qed.

Lemma Zdigits2_pow2 (p : Z) : 0 <= p -> Zdigits2 (2 ^ p) = p + 1.
Proof.
  intros Hp. pose proof (pow2_pos p Hp).
  apply Z.le_antisymm.
  - apply Zdigits2_le; [lia|]. rewrite pow2_succ by lia. lia.
  - pose proof (Zdigits2_gt (2 ^ p) p Hp ltac:(lia)). lia.
Qed.

(** [binary_round_aux] on a mantissa that stands for [N / D] at exponent [e]:
    the mantissa [m'] of the result has at most [prec] bits, its exponent
    [e'] is the exponent [e1] of the format at that magnitude (one more after
    a carry), and [m' * 2^e'] is within half of [2^e1] of [N / D * 2^e]. *)
Lemma binary_round_aux_spec (s : bool) (m e : Z) (l : location) (N D : Z) :
  represents N D (shr_record_of_loc m l) ->
  let e1 := Z.max e (fexp prec emax (Zdigits2 m + e)) in
  exists m' e',
    binary_round_aux prec emax s m e l = result_of prec emax s m' e'
    /\ 0 <= m' < 2 ^ prec
    /\ (e' = e1 \/ (e' = e1 + 1 /\ m' = 2 ^ (prec - 1)))
    /\ - (2 ^ (e1 - e) * D) <= 2 * (m' * 2 ^ (e' - e) * D - N) <= 2 ^ (e1 - e) * D.
Proof.
  intros H e1.
  assert (Hm : m = N / D).
  { destruct H as (_ & _ & Hm & _). now rewrite (proj2 (location_roundtrip m l)) in Hm. }
  assert (HD : 0 < D) by apply H.
  assert (HN : 0 <= N) by apply H.
  assert (Hm0 : 0 <= m) by (rewrite Hm; apply Z.div_pos; lia).
  unfold binary_round_aux, shr_fexp.
  set (k := fexp prec emax (Zdigits2 m + e) - e).
  destruct (shr_represents N D _ e k H) as [H1 He1].
  destruct (shr (shr_record_of_loc m l) e k) as [mrs1 e1'].
  cbn [fst snd] in H1, He1.
  assert (HK : Z.max 0 k = e1 - e) by (unfold e1, k; lia).
  rewrite HK in *. assert (He : e1' = e1) by lia. clear He1. subst e1'.
  assert (HK0 : 0 <= e1 - e) by lia.
  pose proof (pow2_pos _ HK0) as HKp.
  destruct (round_represents _ _ _ H1) as [Hr Herr].
  set (mr := round_nearest_even (shr_m mrs1) (loc_of_shr_record mrs1)) in *.
  assert (Hm1 : 0 <= N / (2 ^ (e1 - e) * D) < 2 ^ prec).
  { rewrite (Z.mul_comm _ D), <- Z.div_div, <- Hm by lia.
    split; [apply Z.div_pos; lia|].
    apply Z.div_lt_upper_bound; [lia|].
    rewrite <- Z.pow_add_r by lia.
    destruct (Z.eq_dec m 0) as [->|Hn]; [apply pow2_pos; lia|].
    destruct (Zdigits2_bounds m ltac:(lia)) as (_ & _ & Hhi).
    eapply Z.lt_le_trans; [exact Hhi|].
    apply Z.pow_le_mono_r; [lia|].
    pose proof (fexp_ge (Zdigits2 m + e)). lia. }
  assert (Hmr : 0 <= mr <= 2 ^ prec) by lia.
  assert (Hemin : emin prec emax <= e1)
    by (pose proof (fexp_ge (Zdigits2 m + e)); lia).
  destruct (Z.eq_dec mr (2 ^ prec)) as [Hc|Hc].
  - (* the rounded mantissa needs one more bit *)
    exists (2 ^ (prec - 1)), (e1 + 1).
    rewrite Hc, Zdigits2_pow2 by lia.
    rewrite fexp_carry by assumption.
    assert (H2 : represents (2 ^ prec) 1 (shr_record_of_loc (2 ^ prec) loc_Exact)).
    { pose proof (pow2_pos prec ltac:(lia)).
      unfold represents, location_of. cbn [shr_record_of_loc shr_m loc_of_shr_record].
      rewrite Z.mod_1_r, Z.div_1_r. repeat split; try lia; reflexivity. }
    apply shr_1_represents in H2.
    cbn [shr iter_pos].
    destruct H2 as (_ & _ & H2 & _). rewrite H2.
    pose proof (pow2_pred prec prec_gt_0) as Hpp2.
    pose proof (pow2_pos (prec - 1) ltac:(lia)) as Hpp.
    replace (2 ^ prec / (2 * 1)) with (2 ^ (prec - 1))
      by (rewrite Hpp2; change (2 * 1) with 2;
          now rewrite Z.mul_comm, Z.div_mul by lia).
    replace (e1 + 1 - e) with ((e1 - e) + 1) by lia.
    rewrite (pow2_succ (e1 - e)) by lia.
    replace (2 ^ (prec - 1) * (2 * 2 ^ (e1 - e))) with (mr * 2 ^ (e1 - e))
      by (rewrite Hc, Hpp2; lia).
    split; [reflexivity|]. split; [lia|]. split; [right; split; reflexivity|]. lia.
  - exists mr, e1.
    assert (Hd : Zdigits2 mr <= prec) by (apply Zdigits2_le; lia).
    assert (Hk2 : fexp prec emax (Zdigits2 mr + e1) - e1 <= 0)
      by (pose proof (fexp_le (Zdigits2 mr + e1) e1); lia).
    rewrite Z.mul_assoc in Herr. clearbody mr.
    destruct (fexp prec emax (Zdigits2 mr + e1) - e1) as [|p|p] eqn:Ek; try lia;
      cbn [shr shr_record_of_loc shr_m];
      (split; [unfold result_of; destruct mr; try lia; reflexivity|]);
      (split; [lia|]); (split; [now left|]); lia.
Qed.

(** The same in rational numbers: a positive value [x] below [2^E] is rounded
    to zero or to a finite float, within [2^(E - prec - 1)] of [x]. *)
Lemma round_aux_value (m e : Z) (l : location) (N D E : Z) (x : Q) :
  represents N D (shr_record_of_loc m l) ->
  0 < N ->
  (x * inject_Z D == inject_Z N * bpow e)%Q ->
  (x < bpow E)%Q ->
  emin prec emax + prec <= E -> E < emax ->
  (e <= E - prec \/ (D = 1 /\ e <= emax - prec)) ->
  exists m' e',
    binary_round_aux prec emax false m e l = finite_of m' e'
    /\ 0 <= m' < 2 ^ prec
    /\ e' <= Z.max e (E - prec + 1)
    /\ (x - bpow (E - prec - 1) <= inject_Z m' * bpow e' <= x + bpow (E - prec - 1))%Q.
Proof.
  intros H HN Hx HxE HE1 HE2 Hcase.
  assert (Hm : m = N / D).
  { destruct H as (_ & _ & Hm & _). now rewrite (proj2 (location_roundtrip m l)) in Hm. }
  assert (HD : 0 < D) by apply H.
  assert (Hm0 : 0 <= m) by (rewrite Hm; apply Z.div_pos; lia).
  assert (HDQ : (0 < inject_Z D)%Q)
    by (change 0%Q with (inject_Z 0); now rewrite <- Zlt_Qlt).
  pose proof (bpow_pos e) as Hte.
  (* the magnitude of the mantissa *)
  assert (Hd : Zdigits2 m + e <= E).
  { destruct (Z.eq_dec m 0) as [Hz|Hz].
    - rewrite Hz. cbn [Zdigits2]. destruct Hcase as [?|[HD1 _]]; [lia|].
      subst D. rewrite Z.div_1_r in Hm. lia.
    - destruct (Zdigits2_bounds m ltac:(lia)) as (Hd0 & Hlo & _).
      assert (Hlt : (bpow (Zdigits2 m - 1 + e) < bpow E)%Q).
      { eapply Qle_lt_trans; [|exact HxE].
        apply (Qmult_le_r _ _ (inject_Z D)); [assumption|].
        rewrite Hx, bpow_add, <- bpow_inject by lia.
        rewrite (Qmult_comm _ (bpow e)), <- Qmult_assoc, (Qmult_comm (bpow e)).
        apply Qmult_le_compat_r; [|now apply Qlt_le_weak].
        rewrite <- inject_Z_mult, <- Zle_Qle.
        pose proof (Z.mul_div_le N D HD). nia. }
      apply bpow_lt_inv in Hlt. lia. }
  destruct (binary_round_aux_spec false m e l N D H)
    as (m' & e' & Hres & Hm' & He' & Herr).
  set (e1 := Z.max e (fexp prec emax (Zdigits2 m + e))) in *.
  assert (Hf : fexp prec emax (Zdigits2 m + e) <= E - prec)
    by (apply fexp_le; lia).
  assert (HK0 : 0 <= e1 - e) by lia.
  assert (He'e : 0 <= e' - e) by lia.
  (* the error, in rationals *)
  assert (HerrQ : (- (bpow e1) <= 2 * (inject_Z m' * bpow e' - x) <= bpow e1)%Q).
  { assert (Hlo : 2 * N <= 2 * (m' * 2 ^ (e' - e) * D) + 2 ^ (e1 - e) * D) by lia.
    assert (Hhi : 2 * (m' * 2 ^ (e' - e) * D) <= 2 * N + 2 ^ (e1 - e) * D) by lia.
    rewrite Zle_Qle in Hlo, Hhi.
    rewrite ?inject_Z_plus, ?inject_Z_mult in Hlo, Hhi.
    rewrite !bpow_inject in Hlo, Hhi by lia.
    change (inject_Z 2) with 2%Q in *.
    assert (Hb1 : (bpow e1 == bpow e * bpow (e1 - e))%Q)
      by (rewrite <- bpow_add; now replace (e + (e1 - e)) with e1 by lia).
    assert (Hb' : (bpow e' == bpow e * bpow (e' - e))%Q)
      by (rewrite <- bpow_add; now replace (e + (e' - e)) with e' by lia).
    rewrite Hb1, Hb'.
    set (p := bpow (e' - e)) in *. set (pk := bpow (e1 - e)) in *.
    set (d := inject_Z D) in *. set (n := inject_Z N) in *.
    set (mu := inject_Z m') in *. set (t := bpow e) in *.
    assert (Hnt : (n * t == x * d)%Q) by (now rewrite Hx).
    assert (Hmid : (2 * (mu * (t * p) - x) * d == t * (2 * (mu * p * d) - 2 * n))%Q).
    { transitivity (2 * mu * t * p * d - 2 * (x * d))%Q; [ring|].
      rewrite <- Hnt. ring. }
    split; apply (Qmult_le_r _ _ d); try assumption; rewrite Hmid.
    - setoid_replace (- (t * pk) * d)%Q with (t * (- (pk * d)))%Q by ring.
      apply Qmult_le_l; [assumption|]. lra.
    - setoid_replace (t * pk * d)%Q with (t * (pk * d))%Q by ring.
      apply Qmult_le_l; [assumption|]. lra. }
  exists m', e'.
  destruct Hcase as [Hc|[HD1 Hc]].
  - (* the exponent is small enough for the bound to apply *)
    assert (He1 : e1 <= E - prec) by lia.
    pose proof (bpow_le e1 (E - prec) He1) as Hb.
    pose proof (bpow_double (E - prec)) as Hb2.
    repeat split.
    + rewrite Hres. unfold result_of, finite_of.
      destruct m'; try reflexivity.
      destruct (Z.leb_spec e' (emax - prec)); [reflexivity|lia].
    + lia.
    + lia.
    + lia.
    + lra.
    + lra.
  - destruct (Z.le_gt_cases e (E - prec)) as [Hle|Hgt].
    + assert (He1 : e1 <= E - prec) by lia.
      pose proof (bpow_le e1 (E - prec) He1) as Hb.
      pose proof (bpow_double (E - prec)) as Hb2.
      repeat split.
      * rewrite Hres. unfold result_of, finite_of.
        destruct m'; try reflexivity.
        destruct (Z.leb_spec e' (emax - prec)); [reflexivity|lia].
      * lia.
      * lia.
      * lia.
      * lra.
      * lra.
    + (* no bit is lost: the result is exact *)
      assert (He1 : e1 = e) by lia.
      subst D. rewrite He1, Z.sub_diag in Herr. change (2 ^ 0) with 1 in Herr.
      assert (Hex : m' * 2 ^ (e' - e) = N) by lia.
      rewrite Z.div_1_r in Hm. subst m.
      assert (He'1 : e' = e).
      { destruct He' as [?|[He' Hmp]]; [lia|].
        exfalso. rewrite He1 in He'.
        replace (e' - e) with 1 in Hex by lia. change (2 ^ 1) with 2 in Hex.
        rewrite Hmp in Hex.
        assert (HNp : N = 2 ^ prec) by (rewrite (pow2_pred prec prec_gt_0); lia).
        rewrite HNp, Zdigits2_pow2 in Hd by lia. lia. }
      subst e'. rewrite Z.sub_diag in Hex. change (2 ^ 0) with 1 in Hex.
      assert (m' = N) by lia. subst m'.
      pose proof (bpow_pos (E - prec - 1)).
      assert (Hxv : (inject_Z N * bpow e == x)%Q).
      { rewrite <- Hx. change (inject_Z 1) with 1%Q. ring. }
      repeat split.
      * rewrite Hres. unfold result_of, finite_of.
        destruct N; try reflexivity.
        destruct (Z.leb_spec e (emax - prec)); [reflexivity|lia].
      * lia.
      * lia.
      * lia.
      * lra.
      * lra.
Qed.

Lemma SF2Q_nonneg (x : spec_float) : tame prec x -> (0 <= SF2Q x)%Q.
Proof.
  destruct x as [[|]|[|]| |[|] m e]; cbn; try tauto; intros _; try lra.
  pose proof (bpow_pos e).
  apply Qmult_le_0_compat; [|lra]. now change 0%Q with (inject_Z 0); rewrite <- Zle_Qle.
Qed.

Lemma finite_of_tame (m e : Z) :
  0 <= m < 2 ^ prec -> e <= 0 ->
  tame prec (finite_of m e) /\ (SF2Q (finite_of m e) == inject_Z m * bpow e)%Q.
Proof.
  intros Hm He. destruct m as [|p|p]; [| |lia]; cbn [finite_of tame SF2Q cond_Zopp].
  - split; [trivial|]. change (inject_Z 0) with 0%Q. ring.
  - split; [tauto|]. reflexivity.
Qed.

(** Rounding an exact positive value [N * 2^e]. *)
Lemma round_exact_value (N e E : Z) (x : Q) :
  0 < N -> e <= 0 ->
  (x == inject_Z N * bpow e)%Q -> (x < bpow E)%Q ->
  emin prec emax + prec <= E -> E < prec ->
  let r := binary_round_aux prec emax false N e loc_Exact in
  tame prec r /\ (x - bpow (E - prec - 1) <= SF2Q r <= x + bpow (E - prec - 1))%Q.
Proof.
  intros HN He Hx HxE HE1 HE2 r.
  destruct (round_aux_value N e loc_Exact N 1 E x)
    as (m' & e' & Hr & Hm' & He' & Hv); try lia.
  - apply represents_exact; lia.
  - rewrite Hx. change (inject_Z 1) with 1%Q. ring.
  - assumption.
  - destruct (finite_of_tame m' e') as [Ht Hq]; try lia.
    subst r. rewrite Hr. split; [assumption|]. now rewrite Hq.
Qed.

(** The four operations on tame floats, when the exact result is below
    [2^E]: the computed result is tame and within [2^(E - prec - 1)] of the
    exact one. *)
Lemma mul_value (x y : spec_float) (E : Z) :
  tame prec x -> tame prec y ->
  (SF2Q x * SF2Q y < bpow E)%Q ->
  emin prec emax + prec <= E -> E < prec ->
  tame prec (SFmul prec emax x y)
  /\ (SF2Q x * SF2Q y - bpow (E - prec - 1) <= SF2Q (SFmul prec emax x y)
      <= SF2Q x * SF2Q y + bpow (E - prec - 1))%Q.
Proof.
  intros Hx Hy HE HE1 HE2.
  pose proof (bpow_pos (E - prec - 1)) as Hb.
  destruct x as [[|]|[|]| |[|] mx ex]; cbn in Hx; try tauto;
  destruct y as [[|]|[|]| |[|] my ey]; cbn in Hy; try tauto;
    cbn [SFmul xorb]; try (split; [exact I|cbn [SF2Q]; lra]).
  change (Zpos (mx * my)) with (Zpos mx * Zpos my).
  apply round_exact_value; try lia.
  cbn [SF2Q cond_Zopp]. rewrite inject_Z_mult, bpow_add. ring.
  exact HE.
Qed.

Lemma normalize_value (M e E : Z) (x : Q) :
  0 <= M -> e <= 0 ->
  (x == inject_Z M * bpow e)%Q -> (x < bpow E)%Q ->
  emin prec emax + prec <= E -> E < prec ->
  let r := binary_normalize prec emax M e false in
  tame prec r /\ (x - bpow (E - prec - 1) <= SF2Q r <= x + bpow (E - prec - 1))%Q.
Proof.
  intros HM He Hx HxE HE1 HE2 r. subst r.
  pose proof (bpow_pos (E - prec - 1)) as Hb.
  destruct M as [|p|p]; try lia; cbn [binary_normalize].
  - split; [exact I|]. cbn [SF2Q]. rewrite Hx. change (inject_Z 0) with 0%Q. lra.
  - unfold binary_round.
    pose proof (shl_align_spec p e (fexp prec emax (Zpos (digits2_pos p) + e))) as Hs.
    destruct (shl_align p e (fexp prec emax (Zpos (digits2_pos p) + e))) as [mz ez].
    destruct Hs as [Hez Hmz].
    apply round_exact_value; try lia.
    rewrite Hx, Hmz, inject_Z_mult, bpow_inject by lia.
    rewrite <- Qmult_assoc, <- bpow_add.
    now replace (e - ez + ez) with e by lia.
    exact HxE.
Qed.

Lemma aligned_value (m : positive) (e ez : Z) :
  ez <= e ->
  (inject_Z (Zpos (fst (shl_align m e ez))) * bpow ez == inject_Z (Zpos m) * bpow e)%Q.
Proof.
  intros Hle. pose proof (shl_align_spec m e ez) as Hs.
  destruct (shl_align m e ez) as [m' e'']. destruct Hs as [He Hm]. cbn [fst].
  rewrite Hm, inject_Z_mult, bpow_inject by lia.
  rewrite <- Qmult_assoc, <- bpow_add.
  replace (e - e'' + ez) with e by lia. reflexivity.
Qed.

Lemma add_value (x y : spec_float) (E : Z) :
  tame prec x -> tame prec y ->
  (SF2Q x + SF2Q y < bpow E)%Q ->
  emin prec emax + prec <= E -> E < prec ->
  tame prec (SFadd prec emax x y)
  /\ (SF2Q x + SF2Q y - bpow (E - prec - 1) <= SF2Q (SFadd prec emax x y)
      <= SF2Q x + SF2Q y + bpow (E - prec - 1))%Q.
Proof.
  intros Hx Hy HE HE1 HE2.
  pose proof (bpow_pos (E - prec - 1)) as Hb.
  destruct x as [[|]|[|]| |[|] mx ex]; cbn in Hx; try tauto;
  destruct y as [[|]|[|]| |[|] my ey]; cbn in Hy; try tauto;
    cbn [SFadd]; try (split; [cbn; tauto|cbn [SF2Q] in *; lra]).
  cbn [cond_Zopp].
  apply normalize_value; try lia.
  - rewrite inject_Z_plus, Qmult_plus_distr_l, !aligned_value by lia.
    reflexivity.
  - exact HE.
Qed.

Lemma sub_value (x y : spec_float) (E : Z) :
  tame prec x -> tame prec y ->
  (SF2Q y <= SF2Q x)%Q ->
  (SF2Q x - SF2Q y < bpow E)%Q ->
  emin prec emax + prec <= E -> E < prec ->
  tame prec (SFsub prec emax x y)
  /\ (SF2Q x - SF2Q y - bpow (E - prec - 1) <= SF2Q (SFsub prec emax x y)
      <= SF2Q x - SF2Q y + bpow (E - prec - 1))%Q.
Proof.
  intros Hx Hy Hle HE HE1 HE2.
  pose proof (bpow_pos (E - prec - 1)) as Hb.
  pose proof (SF2Q_nonneg y Hy) as Hy0.
  destruct x as [[|]|[|]| |[|] mx ex]; cbn in Hx; try tauto;
  destruct y as [[|]|[|]| |[|] my ey]; cbn in Hy; try tauto;
    cbn [SFsub negb].
  - split; [exact I|]. cbn [SF2Q]. lra.
  - exfalso. cbn [SF2Q cond_Zopp] in Hle.
    pose proof (bpow_pos ey).
    assert ((0 < inject_Z (Zpos my) * bpow ey)%Q)
      by (apply Qmult_lt_0_compat; [reflexivity|assumption]).
    lra.
  - split; [cbn; tauto|]. cbn [SF2Q] in *. lra.
  - cbn [cond_Zopp].
    assert (Hv : (SF2Q (S754_finite false mx ex) - SF2Q (S754_finite false my ey)
                  == inject_Z (Zpos (fst (shl_align mx ex (Z.min ex ey)))
                               - Zpos (fst (shl_align my ey (Z.min ex ey))))
                     * bpow (Z.min ex ey))%Q).
    { unfold Z.sub at 1. rewrite inject_Z_plus, inject_Z_opp.
      cbn [SF2Q cond_Zopp].
      rewrite <- (aligned_value mx ex (Z.min ex ey)) by lia.
      rewrite <- (aligned_value my ey (Z.min ex ey)) by lia. ring. }
    apply normalize_value; try lia.
    + pose proof (bpow_pos (Z.min ex ey)) as Hp.
      rewrite Hv in Hle || idtac.
      assert (H0 : (0 <= inject_Z (Zpos (fst (shl_align mx ex (Z.min ex ey)))
                               - Zpos (fst (shl_align my ey (Z.min ex ey))))
                         * bpow (Z.min ex ey))%Q) by (rewrite <- Hv; lra).
      destruct (Z.le_gt_cases 0 (Zpos (fst (shl_align mx ex (Z.min ex ey)))
                               - Zpos (fst (shl_align my ey (Z.min ex ey)))))
        as [|Hneg]; [assumption|exfalso].
      rewrite Zlt_Qlt in Hneg. change (inject_Z 0) with 0%Q in Hneg.
      assert ((inject_Z (Zpos (fst (shl_align mx ex (Z.min ex ey)))
                               - Zpos (fst (shl_align my ey (Z.min ex ey))))
                         * bpow (Z.min ex ey) < 0 * bpow (Z.min ex ey))%Q)
        by (apply Qmult_lt_compat_r; assumption).
      lra.
    + exact Hv.
    + exact HE.
Qed.

(** The quotient mantissa, exponent and location that [SFdiv] hands to the
    rounding. *)
Lemma div_core_spec (mx my : positive) (ex ey : Z) :
  let '(q, e', l) := SFdiv_core_binary prec emax (Zpos mx) ex (Zpos my) ey in
  0 <= ex - ey - e'
  /\ e' <= fexp prec emax (Zdigits2 (Zpos mx) + ex - (Zdigits2 (Zpos my) + ey))
  /\ represents (Zpos mx * 2 ^ (ex - ey - e')) (Zpos my) (shr_record_of_loc q l).
Proof.
  unfold SFdiv_core_binary.
  set (e' := Z.min _ _).
  set (s := ex - ey - e').
  assert (Hs : 0 <= s) by (unfold s, e'; lia).
  set (m' := match s with Zpos _ => Z.shiftl (Zpos mx) s | Z0 => Zpos mx | Zneg _ => 0 end).
  assert (Hm' : m' = Zpos mx * 2 ^ s).
  { unfold m'. clearbody s. destruct s as [|p|p];
      [rewrite Z.pow_0_r; lia | now rewrite Z.shiftl_mul_pow2 by lia | lia]. }
  destruct (Z.div_eucl m' (Zpos my)) as [q r] eqn:Hqr.
  assert (Hq : q = m' / Zpos my) by (unfold Z.div; now rewrite Hqr).
  assert (Hr : r = m' mod Zpos my) by (unfold Z.modulo; now rewrite Hqr).
  split; [assumption|]. split; [unfold e'; lia|].
  fold s. rewrite <- Hm'. pose proof (pow2_pos s Hs).
  assert (0 <= m') by nia.
  unfold represents. destruct (location_roundtrip q (new_location (Zpos my) r)) as [-> ->].
  repeat split; try lia.
  rewrite Hr. apply new_location_of. lia.
Qed.

(** A quotient of floats without sign bit is NaN, plus infinity, plus zero or
    a positive float whose mantissa has at most [prec] bits, whatever the
    operands are. *)
Lemma div_shape (x y : spec_float) :
  nonneg_float x -> nonneg_float y -> quotient_shape prec (SFdiv prec emax x y).
Proof.
  intros Hx Hy.
  destruct x as [sx|sx| |sx mx ex]; cbn in Hx; try subst sx;
  destruct y as [sy|sy| |sy my ey]; cbn in Hy; try subst sy;
    cbn [SFdiv xorb quotient_shape]; trivial.
  pose proof (div_core_spec mx my ex ey) as Hc.
  destruct (SFdiv_core_binary prec emax (Zpos mx) ex (Zpos my) ey) as [[q e'] l].
  destruct Hc as (_ & _ & Hrep).
  destruct (binary_round_aux_spec false q e' l _ _ Hrep)
    as (m' & e'' & Hres & Hm' & _).
  rewrite Hres. unfold result_of. destruct m' as [|p|p]; cbn; trivial; try lia.
  destruct (e'' <=? emax - prec); cbn; trivial. lia.
Qed.

Lemma div_value (x y : spec_float) (E : Z) (q : Q) :
  tame prec x -> tame prec y ->
  (0 < SF2Q y)%Q -> (q * SF2Q y == SF2Q x)%Q ->
  (q < bpow E)%Q ->
  emin prec emax + prec <= E -> E < prec ->
  tame prec (SFdiv prec emax x y)
  /\ (q - bpow (E - prec - 1) <= SF2Q (SFdiv prec emax x y)
      <= q + bpow (E - prec - 1))%Q.
Proof.
  intros Hx Hy Hy0 Hq HE HE1 HE2.
  pose proof (bpow_pos (E - prec - 1)) as Hb.
  destruct y as [[|]|[|]| |[|] my ey]; cbn in Hy; try tauto;
    [cbn [SF2Q] in Hy0; lra|].
  destruct x as [[|]|[|]| |[|] mx ex]; cbn in Hx; try tauto; cbn [SFdiv xorb].
  - split; [exact I|]. cbn [SF2Q] in *.
    assert (q == 0)%Q.
    { apply (Qmult_integral_l (SF2Q (S754_finite false my ey))); [cbn [SF2Q]; lra|].
      cbn [SF2Q]. rewrite Qmult_comm. exact Hq. }
    lra.
  - pose proof (div_core_spec mx my ex ey) as Hc.
    destruct (SFdiv_core_binary prec emax (Zpos mx) ex (Zpos my) ey) as [[q0 e'] l].
    destruct Hc as (Hs & He' & Hrep).
    cbn [SF2Q cond_Zopp] in Hq, Hy0.
    pose proof (bpow_pos ey) as Hpey. pose proof (bpow_pos ex) as Hpex.
    pose proof (inject_Z_pos (Zpos my) ltac:(lia)) as Hmy.
    pose proof (inject_Z_pos (Zpos mx) ltac:(lia)) as Hmx.
    set (dx := Zdigits2 (Zpos mx)) in *. set (dy := Zdigits2 (Zpos my)) in *.
    destruct (Zdigits2_bounds (Zpos mx) ltac:(lia)) as (Hdx & Hxlo & _).
    destruct (Zdigits2_bounds (Zpos my) ltac:(lia)) as (Hdy & _ & Hyhi).
    fold dx in Hdx, Hxlo. fold dy in Hdy, Hyhi.
    (* the quotient is above 2^(delta - 1) *)
    assert (Hdelta : dx + ex - (dy + ey) <= E).
    { assert (Hlt : (bpow (dx + ex - (dy + ey) - 1) < bpow E)%Q).
      { eapply Qlt_trans; [|exact HE].
        apply (Qmult_lt_r _ _ (inject_Z (Zpos my) * bpow ey)); [lra|].
        rewrite Hq.
        apply Qlt_le_trans
          with (bpow (dx + ex - (dy + ey) - 1) * (bpow dy * bpow ey))%Q.
        - apply Qmult_lt_l; [apply bpow_pos|].
          apply Qmult_lt_compat_r; [assumption|].
          rewrite <- bpow_inject by lia. now rewrite <- Zlt_Qlt.
        - rewrite <- !bpow_add.
          replace (dx + ex - (dy + ey) - 1 + (dy + ey)) with ((dx - 1) + ex) by lia.
          rewrite bpow_add. apply Qmult_le_compat_r; [|lra].
          rewrite <- bpow_inject by lia. now rewrite <- Zle_Qle. }
      apply bpow_lt_inv in Hlt. lia. }
    assert (He'E : e' <= E - prec)
      by (pose proof (fexp_le (dx + ex - (dy + ey)) (E - prec)); lia).
    destruct (round_aux_value q0 e' l _ _ E q Hrep)
      as (m' & e'' & Hr & Hm' & He'' & Hv); try lia.
    + (* q * my = mx * 2^s * 2^e' *)
      apply (Qmult_inj_r _ _ (bpow ey)); [lra|].
      rewrite inject_Z_mult, bpow_inject by lia.
      transitivity (inject_Z (Zpos mx) * (bpow (ex - ey - e') * bpow e' * bpow ey))%Q;
        [|ring].
      rewrite <- !bpow_add. replace (ex - ey - e' + e' + ey) with ex by lia.
      rewrite <- Hq. ring.
    + assumption.
    + destruct (finite_of_tame m' e'') as [Ht Hqv]; try lia.
      rewrite Hr. split; [assumption|]. now rewrite Hqv.
Qed.

(** A canonical mantissa has at most [prec] bits, and exactly [prec] above
    the smallest exponent. *)
Lemma canonical_bounds (m : positive) (e : Z) :
  canonical_mantissa prec emax m e = true ->
  Zpos m < 2 ^ prec
  /\ emin prec emax <= e
  /\ (emin prec emax < e -> 2 ^ (prec - 1) <= Zpos m).
Proof.
  unfold canonical_mantissa. intros H. apply Z.eqb_eq in H.
  destruct (digits2_pos_bounds m) as [Hlo Hhi].
  set (d := Zpos (digits2_pos m)) in *.
  assert (Hd : 0 < d) by (unfold d; lia).
  unfold fexp in H.
  split; [|split].
  - eapply Z.lt_le_trans; [exact Hhi|]. apply Z.pow_le_mono_r; lia.
  - lia.
  - intros He. eapply Z.le_trans; [|exact Hlo]. apply Z.pow_le_mono_r; lia.
Qed.

(** On non-negative finite floats in canonical form the order of
    [SFcompare] is the order of the values. *)
Lemma compare_lt_value (m1 m2 : positive) (e1 e2 : Z) :
  canonical_mantissa prec emax m1 e1 = true ->
  canonical_mantissa prec emax m2 e2 = true ->
  e1 < e2 ->
  (inject_Z (Zpos m1) * bpow e1 < inject_Z (Zpos m2) * bpow e2)%Q.
Proof.
  intros H1 H2 He.
  destruct (canonical_bounds m1 e1 H1) as (Hm1 & Hemin & _).
  destruct (canonical_bounds m2 e2 H2) as (_ & _ & Hm2).
  specialize (Hm2 ltac:(lia)).
  apply Qlt_le_trans with (bpow prec * bpow e1)%Q.
  - apply Qmult_lt_compat_r; [apply bpow_pos|].
    rewrite <- bpow_inject by lia. now rewrite <- Zlt_Qlt.
  - apply Qle_trans with (bpow (prec - 1) * bpow e2)%Q.
    + rewrite <- !bpow_add. apply bpow_le. lia.
    + apply Qmult_le_compat_r; [|apply Qlt_le_weak, bpow_pos].
      rewrite <- bpow_inject by lia. now rewrite <- Zle_Qle.
Qed.

Lemma compare_value (x y : spec_float) :
  canonical_nonneg prec emax x -> canonical_nonneg prec emax y ->
  SFcompare x y = Some (SF2Q x ?= SF2Q y)%Q.
Proof.
  intros Hx Hy.
  destruct x as [[|]|[|]| |[|] m1 e1]; cbn in Hx; try tauto;
  destruct y as [[|]|[|]| |[|] m2 e2]; cbn in Hy; try tauto;
    cbn [SFcompare SF2Q cond_Zopp].
  - pose proof (bpow_pos e2).
    assert (Hp : (0 < inject_Z (Zpos m2) * bpow e2)%Q)
      by (apply Qmult_lt_0_compat; [reflexivity|assumption]).
    f_equal. symmetry. now apply Qlt_alt.
  - pose proof (bpow_pos e1).
    assert (Hp : (0 < inject_Z (Zpos m1) * bpow e1)%Q)
      by (apply Qmult_lt_0_compat; [reflexivity|assumption]).
    f_equal. symmetry. now apply Qgt_alt.
  - destruct (Z.compare_spec e1 e2) as [He|He|He].
    + subst e2. pose proof (bpow_pos e1) as Hb.
      rewrite Pos.compare_cont_spec. cbn [Pos.switch_Eq].
      change (Pos.compare m1 m2) with (Z.compare (Zpos m1) (Zpos m2)).
      destruct (Z.compare_spec (Zpos m1) (Zpos m2)) as [Hm|Hm|Hm]; f_equal; symmetry.
      * apply Qeq_alt. injection Hm as ->. reflexivity.
      * apply Qlt_alt. apply Qmult_lt_compat_r; [assumption|].
        now rewrite <- Zlt_Qlt.
      * apply Qgt_alt. apply Qmult_lt_compat_r; [assumption|].
        now rewrite <- Zlt_Qlt.
    + f_equal. symmetry. apply Qlt_alt. now apply compare_lt_value.
    + f_equal. symmetry. apply Qgt_alt. now apply compare_lt_value.
Qed.

Lemma ltb_value (x y : spec_float) :
  canonical_nonneg prec emax x -> canonical_nonneg prec emax y ->
  SFltb x y = true <-> (SF2Q x < SF2Q y)%Q.
Proof.
  intros Hx Hy. unfold SFltb. rewrite (compare_value x y Hx Hy).
  rewrite Qlt_alt. destruct (SF2Q x ?= SF2Q y)%Q; split; congruence.
Qed.

Lemma leb_value (x y : spec_float) :
  canonical_nonneg prec emax x -> canonical_nonneg prec emax y ->
  SFleb x y = true <-> (SF2Q x <= SF2Q y)%Q.
Proof.
  intros Hx Hy. unfold SFleb. rewrite (compare_value x y Hx Hy).
  rewrite Qle_alt. destruct (SF2Q x ?= SF2Q y)%Q; split; congruence.
Qed.

End Format.


(** ** Lists and the state store *)

Lemma all_below_spec (n : nat) (P : Z -> bool) :
  all_below n P = true -> forall z, 0 <= z < Z.of_nat n -> P z = true.
Proof.
  unfold all_below. intros H z Hz.
  rewrite forallb_forall in H. apply H.
  apply in_map_iff. exists (Z.to_nat z). split; [lia|].
  apply in_seq. lia.
Qed.

Lemma fread32_entries (data : file) (n : nat) :
  fread32 data n = firstn n (entries data).
Proof.
  revert data. induction n as [|n IH]; intros data;
    destruct data as [|b0 [|b1 [|b2 [|b3 rest]]]]; try reflexivity.
  cbn [fread32 entries firstn]. now rewrite IH.
Qed.

Lemma store_at_app (pre : list Z) (t v : Z) (tail : list Z) :
  store_at (pre ++ t :: tail) (length pre) v = pre ++ v :: tail.
Proof.
  induction pre as [|x pre IH]; cbn; [reflexivity|]. now rewrite IH.
Qed.

Lemma fill_zero_spec (todo : nat) :
  forall pre tail, length tail = todo ->
    fill_zero (pre ++ tail) (length pre) todo = pre ++ repeat 0 todo.
Proof.
  induction todo as [|k IH]; intros pre tail Hl.
  - destruct tail; [reflexivity|discriminate].
  - destruct tail as [|t tail]; [discriminate|].
    cbn [fill_zero repeat]. rewrite store_at_app.
    replace (pre ++ 0 :: tail) with ((pre ++ [0]) ++ tail)
      by (now rewrite <- app_assoc).
    replace (S (length pre)) with (length (pre ++ [0]))
      by (rewrite length_app; cbn; lia).
    rewrite IH by (now injection Hl).
    now rewrite <- app_assoc.
Qed.

Lemma load_leds_value (fs : filesystem) (filename : string) (colors : list Z)
    (led_count : nat) :
  length colors = led_count ->
  fst (load_leds fs filename colors led_count) =
    match fs filename with
    | None => repeat 0 led_count
    | Some data =>
        firstn led_count (entries data)
        ++ repeat 0 (led_count - length (entries data))
    end.
Proof.
  intros Hl. unfold load_leds.
  destruct (fs filename) as [data|]; cbn [fst].
  - rewrite fread32_entries. unfold overwrite.
    set (items := firstn led_count (entries data)).
    assert (Hi : (length items <= led_count)%nat)
      by (unfold items; rewrite length_firstn; lia).
    rewrite fill_zero_spec by (rewrite length_skipn; lia).
    f_equal. f_equal. unfold items. rewrite length_firstn. lia.
  - rewrite Nat.sub_0_r.
    apply (fill_zero_spec led_count [] colors Hl).
Qed.

(** C7: [load_leds] returns for every file name and count an array of exactly
    [led_count] colours: all zero when the file is absent or empty, the
    file's entries padded with zeros when it holds fewer than [led_count],
    and the first [led_count] entries when it holds more. *)
Theorem load_leds_total (fs : filesystem) (filename : string) (colors : list Z)
    (led_count : nat) :
  length colors = led_count ->
  let loaded := fst (load_leds fs filename colors led_count) in
  length loaded = led_count
  /\ (fs filename = None \/ fs filename = Some [] -> loaded = repeat 0 led_count)
  /\ (forall data, fs filename = Some data ->
        (length (entries data) < led_count)%nat ->
        loaded = entries data ++ repeat 0 (led_count - length (entries data)))
  /\ (forall data, fs filename = Some data ->
        (led_count <= length (entries data))%nat ->
        loaded = firstn led_count (entries data)).
Proof.
  intros Hl loaded. subst loaded. rewrite (load_leds_value _ _ _ _ Hl).
  repeat split.
  - destruct (fs filename) as [data|].
    + rewrite length_app, length_firstn, repeat_length. lia.
    + apply repeat_length.
  - intros [-> | ->]; [reflexivity|].
    cbn [entries firstn length]. destruct led_count; cbn; now rewrite ?Nat.sub_0_r.
  - intros data -> Hlt. now rewrite firstn_all2 by lia.
  - intros data -> Hle.
    replace (led_count - length (entries data))%nat with O by lia.
    cbn [repeat]. now rewrite app_nil_r.
Qed.

Lemma load_leds_total_witness :
  let fs : filesystem := fun _ => Some (encode32 0x01020304 ++ [Byte.x07]) in
  fst (load_leds fs "/tmp/leds0" [9; 9; 9] 3) = [0x01020304; 0; 0].
Proof.
  intros fs.
  destruct (load_leds_total fs "/tmp/leds0" [9; 9; 9] 3 eq_refl) as (_ & _ & H & _).
  apply (H _ eq_refl). cbn. lia.
Defined.

(** ** Packed colours *)

Lemma channel_mod (color k : Z) :
  0 <= k -> channel color k = (color / 2 ^ k) mod 256.
Proof.
  intros Hk. unfold channel.
  rewrite Z.shiftr_div_pow2 by assumption.
  change 255 with (Z.ones 8). now rewrite Z.land_ones by lia.
Qed.

Lemma channel_range (color k : Z) : 0 <= k -> 0 <= channel color k <= 255.
Proof.
  intros Hk. rewrite channel_mod by assumption.
  pose proof (Z.mod_pos_bound (color / 2 ^ k) 256 ltac:(lia)). lia.
Qed.

(** The four channels of [color] are bytes. *)
Ltac channel_bounds color H24 H16 H8 H0 :=
  pose proof (channel_range color 24 ltac:(lia)) as H24;
  pose proof (channel_range color 16 ltac:(lia)) as H16;
  pose proof (channel_range color 8 ltac:(lia)) as H8;
  pose proof (channel_range color 0 ltac:(lia)) as H0.

Lemma uint32_channels (color : Z) :
  is_uint32 color ->
  color = compose (channel color 24) (channel color 16) (channel color 8)
                  (channel color 0).
Proof.
  unfold is_uint32, compose. intros H.
  rewrite !channel_mod by lia.
  change (2 ^ 0) with 1. change (2 ^ 8) with 256. change (2 ^ 16) with 65536.
  change (2 ^ 24) with 16777216. change (2 ^ 32) with 4294967296 in H.
  Z.div_mod_to_equations. lia.
Qed.

Lemma channels_compose (w r g b : Z) :
  0 <= w <= 255 -> 0 <= r <= 255 -> 0 <= g <= 255 -> 0 <= b <= 255 ->
  is_uint32 (compose w r g b)
  /\ channel (compose w r g b) 24 = w /\ channel (compose w r g b) 16 = r
  /\ channel (compose w r g b) 8 = g /\ channel (compose w r g b) 0 = b.
Proof.
  unfold is_uint32, compose. intros Hw Hr Hg Hb.
  rewrite !channel_mod by lia.
  change (2 ^ 0) with 1. change (2 ^ 8) with 256. change (2 ^ 16) with 65536.
  change (2 ^ 24) with 16777216. change (2 ^ 32) with 4294967296.
  repeat split; try lia; Z.div_mod_to_equations; lia.
Qed.

Lemma pack_words (w r g b : Z) :
  0 <= w <= 255 -> 0 <= r <= 255 -> 0 <= g <= 255 -> 0 <= b <= 255 ->
  add32 (add32 (add32 (shl32 w 24) (shl32 r 16)) (shl32 g 8)) (shl32 b 0)
  = compose w r g b.
Proof.
  intros Hw Hr Hg Hb. unfold add32, shl32, wrap32, compose.
  rewrite !Z.shiftl_mul_pow2 by lia.
  change (2 ^ 0) with 1. change (2 ^ 8) with 256. change (2 ^ 16) with 65536.
  change (2 ^ 24) with 16777216. change (2 ^ 32) with 4294967296.
  rewrite (Z.mod_small (w * _)), (Z.mod_small (r * _)), (Z.mod_small (g * _)),
    (Z.mod_small (b * _)) by lia.
  rewrite (Z.mod_small (w * _ + r * _)) by lia.
  rewrite (Z.mod_small (w * _ + r * _ + g * _)) by lia.
  rewrite Z.mod_small by lia. lia.
Qed.

Lemma weighted_sum_weights (color : Z) :
  weighted_sum color = weights color /\ 0 <= weights color <= 3060.
Proof.
  pose proof (channel_range color 24 ltac:(lia)).
  pose proof (channel_range color 16 ltac:(lia)).
  pose proof (channel_range color 8 ltac:(lia)).
  pose proof (channel_range color 0 ltac:(lia)).
  unfold weighted_sum, weights, add32, mul32, wrap32, w_brightness, r_brightness,
    g_brightness, b_brightness.
  change (2 ^ 32) with 4294967296.
  rewrite (Z.mod_small (channel color 24 * 5)), (Z.mod_small (channel color 16 * 2)),
    (Z.mod_small (channel color 8 * 3)), (Z.mod_small (channel color 0 * 2)) by lia.
  rewrite (Z.mod_small (_ * 5 + _ * 2)) by lia.
  rewrite (Z.mod_small (_ * 5 + _ * 2 + _ * 3)) by lia.
  rewrite Z.mod_small by lia. lia.
Qed.

Lemma get_brightness_of (color : Z) :
  get_brightness color = brightness_of (weights color).
Proof.
  unfold get_brightness. now rewrite (proj1 (weighted_sum_weights color)).
Qed.

(** ** Binary32 facts of the program's values *)

Lemma sf_eqb_eq (x y : spec_float) : sf_eqb x y = true -> x = y.
Proof.
  destruct x as [s1|s1| |s1 m1 e1], y as [s2|s2| |s2 m2 e2]; cbn;
    try discriminate; try reflexivity.
  - intros H. apply Bool.eqb_prop in H. now subst.
  - intros H. apply Bool.eqb_prop in H. now subst.
  - intros H. apply andb_prop in H. destruct H as [H He].
    apply andb_prop in H. destruct H as [Hs Hm].
    apply Bool.eqb_prop in Hs. apply Pos.eqb_eq in Hm. apply Z.eqb_eq in He.
    now subst.
Qed.

Lemma brightness_table : all_below 3061 brightness_entry_ok = true.
Proof. vm_compute. reflexivity. Qed.

Lemma channel_table : all_below 256 channel_entry_ok = true.
Proof. vm_compute. reflexivity. Qed.

Lemma brightness_entry (n : Z) :
  0 <= n <= 3060 ->
  tame 24 (brightness_of n)
  /\ canonical_nonneg 24 128 (brightness_of n)
  /\ (inject_Z n * (1 - u24) <= 12 * SF2Q (brightness_of n) <= inject_Z n * (1 + u24))%Q
  /\ (brightness_of n = S754_zero false <-> n = 0).
Proof.
  intros Hn.
  pose proof (all_below_spec 3061 _ brightness_table n ltac:(lia)) as H.
  unfold brightness_entry_ok in H.
  destruct (brightness_of n) as [[|]|[|]| |[|] m e]; try discriminate.
  - apply Z.eqb_eq in H. subst n. cbn [tame canonical_nonneg SF2Q].
    change (inject_Z 0) with 0%Q.
    split; [exact I|]. split; [exact I|]. split; [lra|]. split; reflexivity.
  - rewrite !andb_true_iff in H.
    destruct H as (((((Hn0 & Hm) & He) & Hc) & Hlo) & Hhi).
    apply Z.ltb_lt in Hn0, Hm. apply Z.leb_le in He.
    apply Qle_bool_iff in Hlo, Hhi.
    cbn [tame canonical_nonneg SF2Q cond_Zopp].
    split; [tauto|]. split; [assumption|]. split; [tauto|].
    split; [discriminate|lia].
Qed.

Lemma channel_entry (c : Z) :
  0 <= c <= 255 ->
  tame 24 (F32.of_Z c)
  /\ (SF2Q (F32.of_Z c) == inject_Z c)%Q
  /\ F32.mul (F32.of_Z 1) (F32.of_Z c) = F32.of_Z c
  /\ F32.mul F32.zero (F32.of_Z c) = F32.zero
  /\ float_to_uint32 (F32.of_Z c) = Some c.
Proof.
  intros Hc.
  pose proof (all_below_spec 256 _ channel_table c ltac:(lia)) as H.
  unfold channel_entry_ok in H. rewrite !andb_true_iff in H.
  destruct H as (((Hshape & Hone) & Hzero) & Hint).
  apply sf_eqb_eq in Hone, Hzero.
  split; [|split; [|split; [assumption|split; [assumption|]]]].
  - destruct (F32.of_Z c) as [[|]|[|]| |[|] m e]; try discriminate; cbn [tame]; trivial.
    rewrite !andb_true_iff in Hshape.
    destruct Hshape as (((_ & Hm) & He) & _).
    apply Z.ltb_lt in Hm. apply Z.leb_le in He. tauto.
  - destruct (F32.of_Z c) as [[|]|[|]| |[|] m e]; try discriminate; cbn [SF2Q cond_Zopp].
    + apply Z.eqb_eq in Hshape. subst c. reflexivity.
    + rewrite !andb_true_iff in Hshape.
      destruct Hshape as (_ & Hv). now apply Qeq_bool_iff in Hv.
  - destruct (float_to_uint32 (F32.of_Z c)) as [v|]; [|discriminate].
    apply Z.eqb_eq in Hint. now subst.
Qed.

Lemma f32_prec : 0 < 24.
Proof. lia. Qed.

Lemma f32_emax : 24 < 128.
Proof. lia. Qed.

Lemma float_to_uint32_floor (x : spec_float) :
  tame 24 x ->
  exists v, float_to_uint32 x = Some v /\ 0 <= v
            /\ (inject_Z v <= SF2Q x < inject_Z v + 1)%Q.
Proof.
  destruct x as [[|]|[|]| |[|] m e]; cbn [tame]; try tauto.
  - intros _. exists 0. split; [reflexivity|]. split; [lia|].
    cbn [SF2Q]. change (inject_Z 0) with 0%Q. lra.
  - intros [Hm He]. cbn [float_to_uint32 cond_Zopp SF2Q].
    rewrite Z.shiftl_div_pow2 by assumption.
    set (k := - e). assert (Hk : 0 <= k) by (unfold k; lia).
    pose proof (pow2_pos k Hk) as Hp.
    set (v := Zpos m / 2 ^ k).
    assert (Hv0 : 0 <= v) by (apply Z.div_pos; lia).
    assert (Hvm : v <= Zpos m) by (apply Z.div_le_upper_bound; nia).
    assert (Hlo : v * 2 ^ k <= Zpos m)
      by (unfold v; rewrite Z.mul_comm; apply Z.mul_div_le; lia).
    assert (Hhi : Zpos m < (v + 1) * 2 ^ k).
    { unfold v. rewrite Z.mul_comm.
      pose proof (Z.mul_succ_div_gt (Zpos m) (2 ^ k) Hp). lia. }
    exists v.
    assert (Hr : (0 <=? v) && (v <? 2 ^ 32) = true).
    { apply andb_true_intro. split; [now apply Z.leb_le|apply Z.ltb_lt].
      change (2 ^ 24) with 16777216 in Hm. change (2 ^ 32) with 4294967296. lia. }
    rewrite Hr. split; [reflexivity|]. split; [assumption|].
    pose proof (bpow_pos k) as Hbk.
    assert (Hone : (bpow e * bpow k == 1)%Q).
    { rewrite <- bpow_add. unfold k. now replace (e + - e) with 0 by lia. }
    rewrite Zle_Qle, inject_Z_mult, bpow_inject in Hlo by assumption.
    rewrite Zlt_Qlt, inject_Z_mult, inject_Z_plus, bpow_inject in Hhi by assumption.
    change (inject_Z 1) with 1%Q in Hhi.
    split.
    + apply (Qmult_le_r _ _ (bpow k)); [assumption|].
      rewrite <- Qmult_assoc, Hone, Qmult_1_r. exact Hlo.
    + apply (Qmult_lt_r _ _ (bpow k)); [assumption|].
      rewrite <- Qmult_assoc, Hone, Qmult_1_r. exact Hhi.
Qed.

(** Blending a channel value with itself: the result is the value or one
    less. *)
Lemma blend_same_channel (c : Z) (alpha : spec_float) :
  0 <= c <= 255 -> tame 24 alpha -> (SF2Q alpha <= 1)%Q ->
  exists v,
    float_to_uint32
      (F32.add (F32.mul (F32.sub (F32.of_Z 1) alpha) (F32.of_Z c))
               (F32.mul alpha (F32.of_Z c))) = Some v
    /\ 0 <= v /\ c - 1 <= v <= c.
Proof.
  intros Hc Ha Ha1.
  destruct (channel_entry 1 ltac:(lia)) as (H1t & H1v & _).
  destruct (channel_entry c Hc) as (Hct & Hcv & _).
  pose proof (SF2Q_nonneg 24 alpha Ha) as Ha0.
  change (inject_Z 1) with 1%Q in H1v.
  assert (Hcq : (0 <= inject_Z c <= 255)%Q).
  { change 0%Q with (inject_Z 0). change 255%Q with (inject_Z 255).
    rewrite <- !Zle_Qle. lia. }
  set (a := SF2Q alpha) in *. set (cq := inject_Z c) in *.
  (* 1 - alpha *)
  destruct (sub_value 24 128 f32_prec f32_emax (F32.of_Z 1) alpha 1 H1t Ha)
    as [Htt Htv]; try (unfold emin; lia).
  { rewrite H1v. exact Ha1. }
  { rewrite H1v. change (bpow 1) with 2%Q. fold a. lra. }
  change (SFsub 24 128) with F32.sub in Htt, Htv. rewrite H1v in Htv. fold a in Htv.
  change (bpow (1 - 24 - 1)) with (1 # 16777216)%Q in Htv.
  set (t := SF2Q (F32.sub (F32.of_Z 1) alpha)) in *.
  assert (Hac : (0 <= a * cq <= cq)%Q).
  { split; [apply Qmult_le_0_compat; lra|].
    setoid_replace cq with (1 * cq)%Q at 2 by ring.
    apply Qmult_le_compat_r; lra. }
  assert (Htc : ((1 - a - (1 # 16777216)) * cq <= t * cq
                 <= (1 - a + (1 # 16777216)) * cq)%Q)
    by (split; apply Qmult_le_compat_r; lra).
  setoid_replace ((1 - a - (1 # 16777216)) * cq)%Q
    with (cq - a * cq - (1 # 16777216) * cq)%Q in Htc by ring.
  setoid_replace ((1 - a + (1 # 16777216)) * cq)%Q
    with (cq - a * cq + (1 # 16777216) * cq)%Q in Htc by ring.
  (* (1 - alpha) * c *)
  destruct (mul_value 24 128 f32_prec f32_emax (F32.sub (F32.of_Z 1) alpha) (F32.of_Z c) 8
              Htt Hct) as [Hxt Hxv]; try (unfold emin; lia).
  { rewrite Hcv. fold t cq. change (bpow 8) with 256%Q. lra. }
  change (SFmul 24 128) with F32.mul in Hxt, Hxv. rewrite Hcv in Hxv. fold t cq in Hxv.
  change (bpow (8 - 24 - 1)) with (1 # 131072)%Q in Hxv.
  (* alpha * c *)
  destruct (mul_value 24 128 f32_prec f32_emax alpha (F32.of_Z c) 8 Ha Hct)
    as [Hyt Hyv]; try (unfold emin; lia).
  { rewrite Hcv. fold a cq. change (bpow 8) with 256%Q. lra. }
  change (SFmul 24 128) with F32.mul in Hyt, Hyv. rewrite Hcv in Hyv. fold a cq in Hyv.
  change (bpow (8 - 24 - 1)) with (1 # 131072)%Q in Hyv.
  (* the sum *)
  destruct (add_value 24 128 f32_prec f32_emax _ _ 8 Hxt Hyt)
    as [Hst Hsv]; try (unfold emin; lia).
  { change (bpow 8) with 256%Q. lra. }
  change (SFadd 24 128) with F32.add in Hst, Hsv.
  change (bpow (8 - 24 - 1)) with (1 # 131072)%Q in Hsv.
  destruct (float_to_uint32_floor _ Hst) as (v & Hv & Hv0 & Hvlo & Hvhi).
  exists v. split; [exact Hv|]. split; [assumption|].
  assert (Hlt : (inject_Z v < inject_Z (c + 1))%Q)
    by (rewrite inject_Z_plus; fold cq; change (inject_Z 1) with 1%Q; lra).
  assert (Hgt : (inject_Z (c - 2) < inject_Z v)%Q).
  { unfold Z.sub. rewrite inject_Z_plus. fold cq.
    change (inject_Z (- (2))) with (- (2))%Q. lra. }
  rewrite <- Zlt_Qlt in Hlt, Hgt. lia.
Qed.

Lemma inject_Z_range (z lo hi : Z) :
  lo <= z <= hi -> (inject_Z lo <= inject_Z z <= inject_Z hi)%Q.
Proof. intros. rewrite <- !Zle_Qle. lia. Qed.

Lemma Qmult_le_compat_l_nonneg (x y z : Q) :
  (0 <= z)%Q -> (x <= y)%Q -> (z * x <= z * y)%Q.
Proof.
  intros Hz Hxy. rewrite (Qmult_comm z x), (Qmult_comm z y).
  now apply Qmult_le_compat_r.
Qed.

(** Scaling a channel [c] of a colour of weight [nC] to a reference of
    weight [nR < nC]: the result is [c * nR / nC], rounded down or, when it
    is an integer, possibly one less. *)
Lemma scale_channel_bounds (c nR nC : Z) :
  0 <= c <= 255 -> 0 <= nR -> nR < nC -> nC <= 3060 ->
  exists v,
    float_to_uint32
      (F32.div (F32.mul (F32.of_Z c) (brightness_of nR)) (brightness_of nC)) = Some v
    /\ 0 <= v /\ v * nC <= c * nR <= (v + 1) * nC.
Proof.
  intros Hc HnR Hlt HnC.
  destruct (channel_entry c Hc) as (Hct & Hcv & _).
  destruct (brightness_entry nR ltac:(lia)) as (HRt & _ & HRv & _).
  destruct (brightness_entry nC ltac:(lia)) as (HCt & _ & HCv & _).
  pose proof (inject_Z_range c 0 255 Hc) as Hcq.
  pose proof (inject_Z_range nR 0 3059 ltac:(lia)) as HnRq.
  pose proof (inject_Z_range nC 1 3060 ltac:(lia)) as HnCq.
  assert (Hltq : (inject_Z nR + 1 <= inject_Z nC)%Q).
  { change 1%Q with (inject_Z 1). rewrite <- inject_Z_plus, <- Zle_Qle. lia. }
  pose proof (inject_Z_range (c * nR) 0 780045 ltac:(nia)) as HTq.
  rewrite inject_Z_mult in HTq.
  change (inject_Z 0) with 0%Q in *. change (inject_Z 1) with 1%Q in *.
  change (inject_Z 255) with 255%Q in *. change (inject_Z 3059) with 3059%Q in *.
  change (inject_Z 3060) with 3060%Q in *. change (inject_Z 780045) with 780045%Q in *.
  unfold u24 in HRv, HCv.
  set (cq := inject_Z c) in *. set (r := inject_Z nR) in *. set (n := inject_Z nC) in *.
  set (BR := SF2Q (brightness_of nR)) in *. set (BC := SF2Q (brightness_of nC)) in *.
  assert (HBR0 : (0 <= BR)%Q) by lra.
  assert (HBC0 : (0 < BC)%Q) by lra.
  (* c * brightness(R) *)
  assert (HcB : (0 <= cq * BR <= 255 * BR)%Q).
  { split; [apply Qmult_le_0_compat; lra|]. apply Qmult_le_compat_r; lra. }
  assert (HcBr : (12 * (cq * BR) <= (1 + (1 # 16777216)) * (cq * r)
                  /\ (1 - (1 # 16777216)) * (cq * r) <= 12 * (cq * BR))%Q).
  { split.
    - setoid_replace (12 * (cq * BR))%Q with (cq * (12 * BR))%Q by ring.
      setoid_replace ((1 + (1 # 16777216)) * (cq * r))%Q
        with (cq * (r * (1 + (1 # 16777216))))%Q by ring.
      apply Qmult_le_compat_l_nonneg; lra.
    - setoid_replace (12 * (cq * BR))%Q with (cq * (12 * BR))%Q by ring.
      setoid_replace ((1 - (1 # 16777216)) * (cq * r))%Q
        with (cq * (r * (1 - (1 # 16777216))))%Q by ring.
      apply Qmult_le_compat_l_nonneg; lra. }
  destruct (mul_value 24 128 f32_prec f32_emax (F32.of_Z c) (brightness_of nR) 16 Hct HRt)
    as [Hpt Hpv]; try (unfold emin; lia).
  { rewrite Hcv. fold cq BR. change (bpow 16) with 65536%Q. lra. }
  change (SFmul 24 128) with F32.mul in Hpt, Hpv. rewrite Hcv in Hpv. fold cq BR in Hpv.
  change (bpow (16 - 24 - 1)) with (1 # 512)%Q in Hpv.
  set (p := F32.mul (F32.of_Z c) (brightness_of nR)) in *.
  set (P := SF2Q p) in *.
  (* the quotient *)
  set (q := (P / BC)%Q).
  assert (Hq : (q * BC == P)%Q) by (unfold q; field; lra).
  assert (Hq0 : (0 <= q)%Q).
  { unfold q. apply Qle_shift_div_l; [assumption|]. pose proof (SF2Q_nonneg 24 p Hpt). fold P in H. lra. }
  assert (Hq8 : (q < 256)%Q).
  { unfold q. apply Qlt_shift_div_r; [assumption|]. lra. }
  assert (Hqn : ((1 - (1 # 16777216)) * (q * n) <= 12 * P
                 /\ 12 * P <= (1 + (1 # 16777216)) * (q * n))%Q).
  { rewrite <- Hq. split.
    - setoid_replace ((1 - (1 # 16777216)) * (q * n))%Q
        with (q * (n * (1 - (1 # 16777216))))%Q by ring.
      setoid_replace (12 * (q * BC))%Q with (q * (12 * BC))%Q by ring.
      apply Qmult_le_compat_l_nonneg; lra.
    - setoid_replace ((1 + (1 # 16777216)) * (q * n))%Q
        with (q * (n * (1 + (1 # 16777216))))%Q by ring.
      setoid_replace (12 * (q * BC))%Q with (q * (12 * BC))%Q by ring.
      apply Qmult_le_compat_l_nonneg; lra. }
  destruct (div_value 24 128 f32_prec f32_emax p (brightness_of nC) 8 q Hpt HCt)
    as [Hzt Hzv]; try (unfold emin; lia).
  { fold BC. assumption. }
  { fold BC P. assumption. }
  { change (bpow 8) with 256%Q. assumption. }
  change (SFdiv 24 128) with F32.div in Hzt, Hzv.
  change (bpow (8 - 24 - 1)) with (1 # 131072)%Q in Hzv.
  destruct (float_to_uint32_floor _ Hzt) as (v & Hv & Hv0 & Hvlo & Hvhi).
  exists v. split; [exact Hv|]. split; [assumption|].
  set (zq := SF2Q (F32.div p (brightness_of nC))) in *.
  set (vq := inject_Z v) in *.
  assert (Hvq0 : (0 <= vq)%Q)
    by (unfold vq; change 0%Q with (inject_Z 0); now rewrite <- Zle_Qle).
  assert (Hvn : (vq * n <= (q + (1 # 131072)) * n
                 /\ (q - (1 # 131072)) * n < (vq + 1) * n)%Q).
  { split; [apply Qmult_le_compat_r; lra|apply Qmult_lt_compat_r; lra]. }
  setoid_replace ((q + (1 # 131072)) * n)%Q with (q * n + (1 # 131072) * n)%Q in Hvn by ring.
  setoid_replace ((q - (1 # 131072)) * n)%Q with (q * n - (1 # 131072) * n)%Q in Hvn by ring.
  assert (Hlo : (inject_Z (v * nC) < inject_Z (c * nR + 1))%Q).
  { rewrite inject_Z_plus, !inject_Z_mult. fold vq n cq r.
    change (inject_Z 1) with 1%Q. lra. }
  assert (Hhi : (inject_Z (c * nR - 1) < inject_Z ((v + 1) * nC))%Q).
  { unfold Z.sub. rewrite inject_Z_plus, !inject_Z_mult, inject_Z_plus. fold vq n cq r.
    change (inject_Z (- (1))) with (- (1))%Q. change (inject_Z 1) with 1%Q. lra. }
  rewrite <- Zlt_Qlt in Hlo, Hhi. lia.
Qed.

(** ** Brightness *)

Lemma brightness_value_mono (n n' : Z) :
  0 <= n -> n <= n' -> n' <= 3060 ->
  (SF2Q (brightness_of n) <= SF2Q (brightness_of n'))%Q.
Proof.
  intros H0 Hle Hhi.
  destruct (Z.eq_dec n n') as [->|Hne]; [apply Qle_refl|].
  destruct (brightness_entry n ltac:(lia)) as (_ & _ & Hv & _).
  destruct (brightness_entry n' ltac:(lia)) as (_ & _ & Hv' & _).
  pose proof (inject_Z_range n 0 3059 ltac:(lia)) as Hq.
  pose proof (inject_Z_range n' 1 3060 ltac:(lia)) as Hq'.
  assert (Hs : (inject_Z n + 1 <= inject_Z n')%Q).
  { change 1%Q with (inject_Z 1). rewrite <- inject_Z_plus, <- Zle_Qle. lia. }
  change (inject_Z 0) with 0%Q in *. change (inject_Z 1) with 1%Q in *.
  change (inject_Z 3059) with 3059%Q in *. change (inject_Z 3060) with 3060%Q in *.
  unfold u24 in *. lra.
Qed.

Lemma brightness_ltb (n n' : Z) :
  0 <= n <= 3060 -> 0 <= n' <= 3060 ->
  F32.ltb (brightness_of n) (brightness_of n') = true -> n < n'.
Proof.
  intros Hn Hn' H.
  destruct (brightness_entry n Hn) as (_ & Hc & _).
  destruct (brightness_entry n' Hn') as (_ & Hc' & _).
  apply (ltb_value 24 128 f32_prec _ _ Hc Hc') in H.
  destruct (Z.lt_ge_cases n n') as [|Hge]; [assumption|].
  pose proof (brightness_value_mono n' n ltac:(lia) ltac:(lia) ltac:(lia)). lra.
Qed.

Lemma brightness_leb (n n' : Z) :
  0 <= n -> n <= n' -> n' <= 3060 ->
  F32.leb (brightness_of n) (brightness_of n') = true.
Proof.
  intros H0 Hle Hhi.
  destruct (brightness_entry n ltac:(lia)) as (_ & Hc & _).
  destruct (brightness_entry n' ltac:(lia)) as (_ & Hc' & _).
  apply (leb_value 24 128 f32_prec _ _ Hc Hc').
  now apply brightness_value_mono.
Qed.

Lemma brightness_leb_not_ltb (n n' : Z) :
  0 <= n <= 3060 -> 0 <= n' <= 3060 ->
  F32.leb (brightness_of n) (brightness_of n') = true ->
  F32.ltb (brightness_of n') (brightness_of n) = false.
Proof.
  intros Hn Hn' H.
  destruct (brightness_entry n Hn) as (_ & Hc & _).
  destruct (brightness_entry n' Hn') as (_ & Hc' & _).
  apply (leb_value 24 128 f32_prec _ _ Hc Hc') in H.
  destruct (F32.ltb (brightness_of n') (brightness_of n)) eqn:E; [|reflexivity].
  apply (ltb_value 24 128 f32_prec _ _ Hc' Hc) in E. lra.
Qed.

(** X2: the brightness is the weighted channel sum, divided by 12 in binary32:
    a value between 0 and 255, within the rounding error 2^-24 of the exact
    quotient. *)
Lemma get_brightness_value (color : Z) :
  get_brightness color
  = F32.div (F32.of_Z (weights color)) (F32.of_Z 12)
  /\ (inject_Z (weights color) * (1 - u24) <= 12 * SF2Q (get_brightness color)
      <= inject_Z (weights color) * (1 + u24))%Q
  /\ F32.leb F32.zero (get_brightness color) = true
  /\ F32.leb (get_brightness color) (F32.of_Z 255) = true.
Proof.
  rewrite get_brightness_of.
  destruct (weighted_sum_weights color) as [_ Hw].
  destruct (brightness_entry _ Hw) as (_ & _ & Hv & _).
  split; [reflexivity|]. split; [exact Hv|]. split.
  - change F32.zero with (brightness_of 0). apply brightness_leb; lia.
  - change (F32.of_Z 255) with (brightness_of 3060). apply brightness_leb; lia.
Qed.

(** C1: the brightness is the average of the four channels weighted 5, 2, 3
    and 2 over 12, but of the channel values 0..255 as they are: full white
    has brightness 255, above 1, and not 1 as the comment on
    [get_brightness] announces. *)
Theorem get_brightness_white_is_255 :
  get_brightness 0xFFFFFFFF = F32.of_Z 255
  /\ (SF2Q (get_brightness 0xFFFFFFFF) == 255)%Q
  /\ F32.leb (get_brightness 0xFFFFFFFF) (F32.of_Z 1) = false
  /\ get_brightness 0 = F32.zero.
Proof. repeat split. Qed.

(** ** Brightness limiter *)

(** The scaling branch divides by a positive brightness. *)
Lemma limit_divisor_positive (color reference_color : Z) :
  F32.ltb (get_brightness reference_color) (get_brightness color) = true ->
  0 < weights color /\ (0 < SF2Q (get_brightness color))%Q.
Proof.
  rewrite !get_brightness_of. intros H.
  destruct (weighted_sum_weights color) as [_ Hc].
  destruct (weighted_sum_weights reference_color) as [_ Hr].
  apply brightness_ltb in H; try assumption.
  split; [lia|].
  destruct (brightness_entry _ Hc) as (_ & _ & Hv & _).
  pose proof (inject_Z_range (weights color) 1 3060 ltac:(lia)) as Hq.
  change (inject_Z 1) with 1%Q in Hq. unfold u24 in Hv. lra.
Qed.

(** C5: when the reference is at least as bright as the candidate, and in
    particular when the candidate has brightness 0, [limit_brightness]
    does not enter the scaling branch (nothing is divided) and returns the
    candidate unchanged. *)
Theorem limit_brightness_unchanged (color reference_color : Z) :
  F32.leb (get_brightness color) (get_brightness reference_color) = true
  \/ get_brightness color = F32.zero ->
  F32.ltb (get_brightness reference_color) (get_brightness color) = false
  /\ limit_brightness color reference_color = Some color.
Proof.
  intros H.
  destruct (weighted_sum_weights color) as [_ Hc].
  destruct (weighted_sum_weights reference_color) as [_ Hr].
  assert (Hle : F32.leb (get_brightness color) (get_brightness reference_color) = true).
  { destruct H as [H|H]; [exact H|].
    rewrite !get_brightness_of in *.
    destruct (brightness_entry _ Hc) as (_ & _ & _ & Hz).
    apply Hz in H. rewrite H. apply brightness_leb; lia. }
  assert (Hlt : F32.ltb (get_brightness reference_color) (get_brightness color) = false).
  { rewrite !get_brightness_of in *. now apply brightness_leb_not_ltb. }
  split; [exact Hlt|].
  unfold limit_brightness. now rewrite Hlt.
Qed.

Lemma limit_brightness_unchanged_witness :
  F32.ltb (get_brightness 0xFFFFFFFF) (get_brightness 0) = false
  /\ limit_brightness 0 0xFFFFFFFF = Some 0.
Proof.
  apply (limit_brightness_unchanged 0 0xFFFFFFFF). right. reflexivity.
Defined.

Lemma scaled_down_le (c v nR nC : Z) :
  0 <= c -> 0 <= nR -> nR < nC -> scaled_down c v nR nC -> 0 <= v <= c.
Proof. unfold scaled_down. intros Hc HnR Hlt (Hv & Hlo & _). split; [assumption|nia]. Qed.

Lemma in_shifts (P : Z -> Prop) :
  P 24 -> P 16 -> P 8 -> P 0 -> forall k, In k shifts -> P k.
Proof.
  intros H24 H16 H8 H0 k [<-|[<-|[<-|[<-|[]]]]]; assumption.
Qed.

(** The scaling branch: every channel becomes its share [nR / nC] of what it
    was, where [nR] and [nC] are the weighted sums of the reference and of
    the colour. *)
Lemma limit_brightness_scaled (color reference_color : Z) :
  F32.ltb (get_brightness reference_color) (get_brightness color) = true ->
  weights reference_color < weights color
  /\ exists w r g b,
      limit_brightness color reference_color = Some (compose w r g b)
      /\ float_to_uint32 (scale_channel color 24 (get_brightness reference_color)
                            (get_brightness color)) = Some w
      /\ float_to_uint32 (scale_channel color 16 (get_brightness reference_color)
                            (get_brightness color)) = Some r
      /\ float_to_uint32 (scale_channel color 8 (get_brightness reference_color)
                            (get_brightness color)) = Some g
      /\ float_to_uint32 (scale_channel color 0 (get_brightness reference_color)
                            (get_brightness color)) = Some b
      /\ scaled_down (channel color 24) w (weights reference_color) (weights color)
      /\ scaled_down (channel color 16) r (weights reference_color) (weights color)
      /\ scaled_down (channel color 8) g (weights reference_color) (weights color)
      /\ scaled_down (channel color 0) b (weights reference_color) (weights color).
Proof.
  intros Hlt.
  destruct (weighted_sum_weights color) as [_ Hc].
  destruct (weighted_sum_weights reference_color) as [_ Hr].
  assert (Hn : weights reference_color < weights color)
    by (rewrite !get_brightness_of in Hlt; apply brightness_ltb in Hlt; assumption).
  split; [assumption|].
  unfold limit_brightness. rewrite Hlt. unfold scale_channel.
  rewrite !get_brightness_of.
  channel_bounds color H24 H16 H8 H0.
  destruct (scale_channel_bounds (channel color 24) (weights reference_color)
              (weights color)) as (w & Ew & Hw0 & Hw); try lia.
  destruct (scale_channel_bounds (channel color 16) (weights reference_color)
              (weights color)) as (r & Er & Hr0 & Hr'); try lia.
  destruct (scale_channel_bounds (channel color 8) (weights reference_color)
              (weights color)) as (g & Eg & Hg0 & Hg); try lia.
  destruct (scale_channel_bounds (channel color 0) (weights reference_color)
              (weights color)) as (b & Eb & Hb0 & Hb); try lia.
  exists w, r, g, b. unfold pack. rewrite Ew, Er, Eg, Eb. cbn [bind].
  assert (Sw : scaled_down (channel color 24) w (weights reference_color) (weights color))
    by (split; assumption).
  assert (Sr : scaled_down (channel color 16) r (weights reference_color) (weights color))
    by (split; assumption).
  assert (Sg : scaled_down (channel color 8) g (weights reference_color) (weights color))
    by (split; assumption).
  assert (Sb : scaled_down (channel color 0) b (weights reference_color) (weights color))
    by (split; assumption).
  pose proof (scaled_down_le _ _ _ _ (proj1 H24) (proj1 Hr) Hn Sw).
  pose proof (scaled_down_le _ _ _ _ (proj1 H16) (proj1 Hr) Hn Sr).
  pose proof (scaled_down_le _ _ _ _ (proj1 H8) (proj1 Hr) Hn Sg).
  pose proof (scaled_down_le _ _ _ _ (proj1 H0) (proj1 Hr) Hn Sb).
  rewrite pack_words by lia.
  repeat split; try reflexivity; try assumption; try apply Sw; try apply Sr;
    try apply Sg; try apply Sb.
Qed.

(** C6: when the reference is strictly less bright than the candidate (whose
    brightness is then positive), [limit_brightness] multiplies every
    channel by the ratio of the two brightnesses and truncates: each channel
    of the result is its share [nR / nC] of the candidate's channel rounded
    down (or one less when the share is an integer), so the channels keep
    their proportions, and the result is not brighter than the reference. *)
Theorem limit_brightness_scales (color reference_color : Z) :
  F32.ltb (get_brightness reference_color) (get_brightness color) = true ->
  exists limited,
    limit_brightness color reference_color = Some limited
    /\ is_uint32 limited
    /\ (0 < SF2Q (get_brightness color))%Q
    /\ (forall k, In k shifts ->
          float_to_uint32 (scale_channel color k (get_brightness reference_color)
                             (get_brightness color)) = Some (channel limited k)
          /\ channel limited k * weights color
              <= channel color k * weights reference_color
              <= (channel limited k + 1) * weights color)
    /\ F32.leb (get_brightness limited) (get_brightness reference_color) = true.
Proof.
  intros Hlt.
  destruct (limit_divisor_positive _ _ Hlt) as [HnC HBC].
  destruct (limit_brightness_scaled _ _ Hlt)
    as (Hn & w & r & g & b & HL & Ew & Er & Eg & Eb & Sw & Sr & Sg & Sb).
  destruct (weighted_sum_weights color) as [_ Hc].
  destruct (weighted_sum_weights reference_color) as [_ Hr].
  channel_bounds color H24 H16 H8 H0.
  pose proof (scaled_down_le _ _ _ _ (proj1 H24) (proj1 Hr) Hn Sw) as Bw.
  pose proof (scaled_down_le _ _ _ _ (proj1 H16) (proj1 Hr) Hn Sr) as Br.
  pose proof (scaled_down_le _ _ _ _ (proj1 H8) (proj1 Hr) Hn Sg) as Bg.
  pose proof (scaled_down_le _ _ _ _ (proj1 H0) (proj1 Hr) Hn Sb) as Bb.
  destruct (channels_compose w r g b) as (HU & C24 & C16 & C8 & C0); try lia.
  exists (compose w r g b).
  split; [exact HL|]. split; [exact HU|]. split; [exact HBC|]. split.
  - apply in_shifts; [rewrite C24|rewrite C16|rewrite C8|rewrite C0];
      (split; [assumption|]);
      [apply Sw|apply Sr|apply Sg|apply Sb].
  - rewrite !get_brightness_of.
    destruct (weighted_sum_weights (compose w r g b)) as [_ HcL].
    apply brightness_leb; try lia.
    unfold weights at 1. rewrite C24, C16, C8, C0.
    destruct Sw as (_ & Sw & _), Sr as (_ & Sr & _), Sg as (_ & Sg & _),
             Sb as (_ & Sb & _).
    unfold weights in Sw, Sr, Sg, Sb, HnC, Hn |- * at 1. 
    nia.
Qed.

Lemma limit_brightness_scales_witness :
  exists limited,
    limit_brightness 0xFFFFFFFF 0x80808080 = Some limited
    /\ is_uint32 limited
    /\ (0 < SF2Q (get_brightness 0xFFFFFFFF))%Q
    /\ (forall k, In k shifts ->
          float_to_uint32 (scale_channel 0xFFFFFFFF k (get_brightness 0x80808080)
                             (get_brightness 0xFFFFFFFF)) = Some (channel limited k)
          /\ channel limited k * weights 0xFFFFFFFF
              <= channel 0xFFFFFFFF k * weights 0x80808080
              <= (channel limited k + 1) * weights 0xFFFFFFFF)
    /\ F32.leb (get_brightness limited) (get_brightness 0x80808080) = true.
Proof.
  apply (limit_brightness_scales 0xFFFFFFFF 0x80808080). reflexivity.
Defined.

(** C10: no channel of [limit_brightness color reference_color] exceeds the
    same channel of [color]. *)
Theorem limit_brightness_never_brightens (color reference_color : Z) :
  exists limited,
    limit_brightness color reference_color = Some limited
    /\ forall k, In k shifts -> 0 <= channel limited k <= channel color k.
Proof.
  destruct (F32.ltb (get_brightness reference_color) (get_brightness color)) eqn:Hlt.
  - destruct (limit_brightness_scaled _ _ Hlt)
      as (Hn & w & r & g & b & HL & _ & _ & _ & _ & Sw & Sr & Sg & Sb).
    destruct (weighted_sum_weights reference_color) as [_ Hr].
    channel_bounds color H24 H16 H8 H0.
    pose proof (scaled_down_le _ _ _ _ (proj1 H24) (proj1 Hr) Hn Sw) as Bw.
    pose proof (scaled_down_le _ _ _ _ (proj1 H16) (proj1 Hr) Hn Sr) as Br.
    pose proof (scaled_down_le _ _ _ _ (proj1 H8) (proj1 Hr) Hn Sg) as Bg.
    pose proof (scaled_down_le _ _ _ _ (proj1 H0) (proj1 Hr) Hn Sb) as Bb.
    destruct (channels_compose w r g b) as (_ & C24 & C16 & C8 & C0); try lia.
    exists (compose w r g b). split; [exact HL|].
    apply in_shifts; [rewrite C24|rewrite C16|rewrite C8|rewrite C0]; assumption.
  - exists color. unfold limit_brightness. rewrite Hlt. split; [reflexivity|].
    intros k Hk.
    assert (Hk0 : 0 <= k) by (revert k Hk; apply in_shifts; lia).
    pose proof (channel_range color k Hk0). lia.
Qed.

(** ** Blending *)

Lemma add_zero_r (x : spec_float) : tame 24 x -> F32.add x F32.zero = x.
Proof. destruct x as [[|]|[|]| |[|] m e]; cbn; tauto. Qed.

Lemma add_zero_l (x : spec_float) : tame 24 x -> F32.add F32.zero x = x.
Proof. destruct x as [[|]|[|]| |[|] m e]; cbn; tauto. Qed.

Lemma blend_channel_zero (color1 color2 k : Z) :
  0 <= k ->
  blend_channel color1 color2 k F32.zero = F32.of_Z (channel color1 k).
Proof.
  intros Hk. unfold blend_channel.
  destruct (channel_entry _ (channel_range color1 k Hk)) as (Ht & _ & H1 & _).
  destruct (channel_entry _ (channel_range color2 k Hk)) as (_ & _ & _ & H0 & _).
  change (F32.sub (F32.of_Z 1) F32.zero) with (F32.of_Z 1).
  rewrite H1, H0. now apply add_zero_r.
Qed.

Lemma blend_channel_one (color1 color2 k : Z) :
  0 <= k ->
  blend_channel color1 color2 k (F32.of_Z 1) = F32.of_Z (channel color2 k).
Proof.
  intros Hk. unfold blend_channel.
  destruct (channel_entry _ (channel_range color1 k Hk)) as (_ & _ & _ & H0 & _).
  destruct (channel_entry _ (channel_range color2 k Hk)) as (Ht & _ & H1 & _).
  change (F32.sub (F32.of_Z 1) (F32.of_Z 1)) with F32.zero.
  rewrite H1, H0. now apply add_zero_l.
Qed.

Lemma pack_channels (fw fr fg fb : spec_float) (w r g b : Z) :
  float_to_uint32 fw = Some w -> float_to_uint32 fr = Some r ->
  float_to_uint32 fg = Some g -> float_to_uint32 fb = Some b ->
  0 <= w <= 255 -> 0 <= r <= 255 -> 0 <= g <= 255 -> 0 <= b <= 255 ->
  pack fw fr fg fb = Some (compose w r g b).
Proof.
  intros Ew Er Eg Eb Hw Hr Hg Hb. unfold pack.
  rewrite Ew, Er, Eg, Eb. cbn [bind]. now rewrite pack_words.
Qed.

Lemma blend_colors_zero (color1 color2 : Z) :
  is_uint32 color1 -> blend_colors color1 color2 F32.zero = Some color1.
Proof.
  intros H1. unfold blend_colors. rewrite !blend_channel_zero by lia.
  rewrite (uint32_channels color1 H1) at 5.
  apply pack_channels;
    try (apply channel_entry; apply channel_range; lia);
    apply channel_range; lia.
Qed.

Lemma blend_colors_one (color1 color2 : Z) :
  is_uint32 color2 -> blend_colors color1 color2 (F32.of_Z 1) = Some color2.
Proof.
  intros H2. unfold blend_colors. rewrite !blend_channel_one by lia.
  rewrite (uint32_channels color2 H2) at 5.
  apply pack_channels;
    try (apply channel_entry; apply channel_range; lia);
    apply channel_range; lia.
Qed.

(** C8: [blend_colors a b 0] is [a] and [blend_colors a b 1] is [b]; the
    results are exact, and so within one unit in every channel. *)
Theorem blend_colors_endpoints (color1 color2 : Z) :
  is_uint32 color1 -> is_uint32 color2 ->
  exists at0 at1,
    blend_colors color1 color2 F32.zero = Some at0
    /\ blend_colors color1 color2 (F32.of_Z 1) = Some at1
    /\ (forall k, In k shifts ->
          Z.abs (channel at0 k - channel color1 k) <= 1
          /\ Z.abs (channel at1 k - channel color2 k) <= 1)
    /\ at0 = color1 /\ at1 = color2.
Proof.
  intros H1 H2. exists color1, color2.
  split; [now apply blend_colors_zero|].
  split; [now apply blend_colors_one|].
  split; [|split; reflexivity].
  intros k _. rewrite !Z.sub_diag. cbn. lia.
Qed.

Lemma blend_colors_endpoints_witness :
  exists at0 at1,
    blend_colors 0x01020304 0xF1F2F3F4 F32.zero = Some at0
    /\ blend_colors 0x01020304 0xF1F2F3F4 (F32.of_Z 1) = Some at1
    /\ (forall k, In k shifts ->
          Z.abs (channel at0 k - channel 0x01020304 k) <= 1
          /\ Z.abs (channel at1 k - channel 0xF1F2F3F4 k) <= 1)
    /\ at0 = 0x01020304 /\ at1 = 0xF1F2F3F4.
Proof.
  apply (blend_colors_endpoints 0x01020304 0xF1F2F3F4); unfold is_uint32; lia.
Defined.

(** ** Progress *)

Lemma one_tame :
  tame 24 (S754_finite false 8388608 (-23))
  /\ (SF2Q (S754_finite false 8388608 (-23)) <= 1)%Q.
Proof.
  split; [split; [reflexivity|lia]|]. vm_compute. intros H. discriminate H.
Qed.

(** The clamped progress of a quotient of non-negative floats is a float
    between 0 and 1. *)
Lemma clamp_progress_tame (progress : spec_float) :
  quotient_shape 24 progress ->
  tame 24 (clamp_progress progress) /\ (SF2Q (clamp_progress progress) <= 1)%Q.
Proof.
  unfold clamp_progress.
  change (F32.of_Z 1) with (S754_finite false 8388608 (-23)).
  destruct progress as [[|]|[|]| |[|] m e]; cbn [quotient_shape]; try tauto; intros Hm;
    try exact one_tame.
  - cbn. split; [exact I|]. lra.
  - unfold F32.ltb, SFltb. cbn [SFcompare].
    destruct (Z.compare_spec e (-23)) as [He|He|He]; cbn [negb]; try exact one_tame.
    + rewrite Pos.compare_cont_spec. cbn [Pos.switch_Eq].
      destruct (Pos.compare_spec m 8388608) as [Hc|Hc|Hc];
        cbn [negb Pos.switch_Eq]; try exact one_tame.
      apply Pos2Z.pos_lt_pos in Hc.
      subst e. cbn [tame SF2Q cond_Zopp]. split; [split; [assumption|lia]|].
      change (bpow (-23)) with (1 # 8388608)%Q.
      rewrite Zlt_Qlt in Hc. change (inject_Z 8388608) with 8388608%Q in Hc. lra.
    + cbn [tame SF2Q cond_Zopp]. split; [split; [assumption|lia]|].
      pose proof (bpow_le e (-24) ltac:(lia)) as Hb.
      change (bpow (-24)) with (1 # 16777216)%Q in Hb.
      pose proof (bpow_pos e) as Hp.
      assert (Hmq : (inject_Z (Zpos m) <= 16777216)%Q).
      { change 16777216%Q with (inject_Z 16777216). rewrite <- Zle_Qle.
        change (2 ^ 24) with 16777216 in Hm. lia. }
      apply Qle_trans with (16777216 * bpow e)%Q.
      * apply Qmult_le_compat_r; [assumption|lra].
      * lra.
Qed.

Lemma frame_progress_tame (elapsed duration : spec_float) :
  nonneg_float elapsed -> nonneg_float duration ->
  tame 24 (frame_progress elapsed duration)
  /\ (SF2Q (frame_progress elapsed duration) <= 1)%Q.
Proof.
  intros He Hd. apply clamp_progress_tame.
  apply (div_shape 24 128 f32_prec); assumption.
Qed.

(** When the end colour of an LED is its start colour, a frame shows in
    every channel that colour's value or one less, and exactly the colour
    when the progress is 0 or 1. *)
Lemma blend_same_color_frame (color : Z) (elapsed duration : spec_float) :
  is_uint32 color -> nonneg_float elapsed -> nonneg_float duration ->
  exists shown,
    blend_colors color color (frame_progress elapsed duration) = Some shown
    /\ is_uint32 shown
    /\ near color shown
    /\ (frame_progress elapsed duration = F32.zero
        \/ frame_progress elapsed duration = F32.of_Z 1 -> shown = color).
Proof.
  intros HU He Hd.
  destruct (frame_progress_tame elapsed duration He Hd) as [Ht Hv].
  set (progress := frame_progress elapsed duration) in *.
  channel_bounds color H24 H16 H8 H0.
  destruct (blend_same_channel _ progress H24 Ht Hv) as (w & Ew & Hw0 & Hw).
  destruct (blend_same_channel _ progress H16 Ht Hv) as (r & Er & Hr0 & Hr).
  destruct (blend_same_channel _ progress H8 Ht Hv) as (g & Eg & Hg0 & Hg).
  destruct (blend_same_channel _ progress H0 Ht Hv) as (b & Eb & Hb0 & Hb).
  destruct (channels_compose w r g b) as (HUs & C24 & C16 & C8 & C0); try lia.
  assert (Hshown : blend_colors color color progress = Some (compose w r g b))
    by (unfold blend_colors, blend_channel; apply pack_channels; try assumption; lia).
  exists (compose w r g b).
  split; [exact Hshown|]. split; [exact HUs|]. split.
  - unfold near. apply in_shifts; [rewrite C24|rewrite C16|rewrite C8|rewrite C0]; lia.
  - intros [Hp|Hp]; rewrite Hp in Hshown.
    + rewrite blend_colors_zero in Hshown by assumption. congruence.
    + rewrite blend_colors_one in Hshown by assumption. congruence.
Qed.

(** Limited against itself a colour stays as it is, so the end state of a
    strip that shows the requested colour is its start state, with or without
    [--not-brighter]. *)
Lemma limit_brightness_same (color : Z) : limit_brightness color color = Some color.
Proof.
  destruct (weighted_sum_weights color) as [_ Hc].
  unfold limit_brightness. rewrite get_brightness_of.
  rewrite brightness_leb_not_ltb; try assumption; [reflexivity|].
  apply brightness_leb; lia.
Qed.

Lemma end_state_same (p : params.params) (n : nat) :
  end_state p (repeat (params.color p) n) = Some (repeat (params.color p) n).
Proof.
  induction n as [|n IH]; [reflexivity|].
  cbn [repeat end_state]. rewrite IH, limit_brightness_same.
  now destruct (params.limit_brightness p).
Qed.

(** C9 as stated fails: with the colour 0xFF804020 on every LED, requested
    again with a fade of 2 s, the frame 80 ms into the fade shows and saves
    0xFE804020. *)
Lemma blend_same_color_drifts :
  blend_colors 0xFF804020 0xFF804020
    (frame_progress
       (get_timespan {| tv_sec := 1; tv_nsec := 80000000 |} {| tv_sec := 1; tv_nsec := 0 |})
       (S754_finite false 8388608 (-22)))
  = Some 0xFE804020
  /\ let r := main scan_hex scan_float "lightctl" ["ff804020"; "--time"; "2"]%string
                (world_of (files_showing 0xFF804020) [frame_at 80; cancelled]) in
     exit r = Exit 0
     /\ rendered r = [(repeat 0xFE804020 count0, repeat 0xFE804020 count1)]
     /\ saved r "/tmp/leds0"%string = Some (fwrite32 (repeat 0xFE804020 count0) count0)
     /\ saved r "/tmp/leds0"%string <> files_showing 0xFF804020 "/tmp/leds0"%string.
Proof.
  vm_compute. repeat split. intros H. discriminate H.
Qed.

(** ** Exit codes and the command line *)

(** C2: a clock failure inside the animation loop leaves the loop with
    [break], and [main] returns [ret], which is [WS2811_SUCCESS] there: the
    process prints "clock failed" and exits with 0, while the same failure
    before the loop exits with -1. *)
Theorem clock_failure_in_loop_exits_0 :
  let r := main scan_hex scan_float "lightctl" ["ff804020"; "--time"; "2"]%string
             (world_of no_files [frame_at 3; clock_fails]) in
  exit r = Exit 0
  /\ stderr r = ["failed to load LED state (could not open /tmp/leds0)";
                 "failed to load LED state (could not open /tmp/leds1)";
                 "clock failed"]%string
  /\ exit (main scan_hex scan_float "lightctl" ["ff804020"]%string
             {| setuid := 0; files := no_files; stack := fun _ => 0;
                starttime := None; init := WS2811_SUCCESS; frames := [] |})
     = Exit (-1).
Proof.
  vm_compute. repeat split.
Qed.

(** C3: without any argument [parse_cmdline] returns 0 with
    [color_specified] still false, which [main] never looks at: no usage
    text, the strip is driven to colour 0 and the exit code is 0. *)
Theorem no_color_argument_accepted :
  (forall sx sf name,
     parse_cmdline sx sf name []
     = (Some {| params.prog_name := name; params.color := 0;
                params.color_specified := false;
                params.duration := S754_zero false;
                params.limit_brightness := false |}, []))
  /\ let r := main scan_hex scan_float "lightctl" []
                (world_of (files_showing 0xFF804020) [frame_at 3]) in
     exit r = Exit 0 /\ usage r = false
     /\ rendered r = [(repeat 0 count0, repeat 0 count1)].
Proof.
  split; [reflexivity|]. vm_compute. repeat split.
Qed.

(** C4: with [--time -0] the duration is the float -0; 3 ms into the fade
    the quotient is minus infinity, which is less than 1 and stays
    unclamped, and the blend with it has no defined conversion to
    [uint32_t]. *)
Theorem negative_zero_duration_unclamped :
  scan_float "-0" = Some (S754_zero true)
  /\ frame_progress
       (get_timespan {| tv_sec := 1; tv_nsec := 3000000 |} {| tv_sec := 1; tv_nsec := 0 |})
       (S754_zero true)
     = S754_infinity true
  /\ blend_colors 0 0xFF000000 (S754_infinity true) = None
  /\ exit (main scan_hex scan_float "lightctl" ["ff000000"; "--time"; "-0"]%string
             (world_of no_files [frame_at 3]))
     = Undefined.
Proof.
  vm_compute. repeat split.
Qed.

(** ** What does hold of the progress, the exit codes and the command line *)

Lemma SFcompare_antisym (x y : spec_float) :
  SFcompare y x = option_map CompOpp (SFcompare x y).
Proof.
  destruct x as [sx|sx| |sx mx ex], y as [sy|sy| |sy my ey]; cbn;
    try destruct sx; try destruct sy; try reflexivity;
    assert (Hm : Pos.compare_cont Eq my mx = CompOpp (Pos.compare_cont Eq mx my))
      by (now rewrite Pos.compare_cont_antisym);
    rewrite (Z.compare_antisym ex ey), Hm;
    destruct (ex ?= ey); cbn; try reflexivity;
    destruct (Pos.compare_cont Eq mx my); reflexivity.
Qed.

(** The clamp catches NaN, plus infinity and every quotient of at least 1. *)
Lemma frame_progress_clamped (elapsed duration : spec_float) :
  raw_progress elapsed duration = S754_nan
  \/ raw_progress elapsed duration = S754_infinity false
  \/ F32.leb (F32.of_Z 1) (raw_progress elapsed duration) = true ->
  frame_progress elapsed duration = F32.of_Z 1.
Proof.
  unfold frame_progress, clamp_progress.
  intros [->|[->|H]]; try reflexivity.
  unfold F32.ltb, F32.leb, SFltb, SFleb in *.
  rewrite (SFcompare_antisym (F32.of_Z 1) (raw_progress elapsed duration)).
  destruct (SFcompare (F32.of_Z 1) (raw_progress elapsed duration)) as [[| |]|];
    try discriminate; reflexivity.
Qed.

(** Without [--time] the duration is +0 and the first frame shows the end
    colour. *)
Lemma zero_duration_jump (elapsed : spec_float) (color1 color2 : Z) :
  is_finite elapsed = true -> nonneg_float elapsed -> is_uint32 color2 ->
  frame_progress elapsed (S754_zero false) = F32.of_Z 1
  /\ blend_colors color1 color2 (frame_progress elapsed (S754_zero false)) = Some color2.
Proof.
  intros Hf Hn HU.
  assert (Hp : frame_progress elapsed (S754_zero false) = F32.of_Z 1).
  { apply frame_progress_clamped.
    destruct elapsed as [s|s| |s m e]; cbn in Hf, Hn; try discriminate; subst s;
      [left|right; left]; reflexivity. }
  split; [exact Hp|]. rewrite Hp. now apply blend_colors_one.
Qed.

Lemma limit_brightness_defined (color reference_color : Z) :
  exists limited, limit_brightness color reference_color = Some limited.
Proof.
  destruct (F32.ltb (get_brightness reference_color) (get_brightness color)) eqn:Hlt.
  - destruct (limit_brightness_scaled _ _ Hlt) as (_ & w & r & g & b & HL & _).
    now exists (compose w r g b).
  - exists color. unfold limit_brightness. now rewrite Hlt.
Qed.

Lemma end_state_defined (p : params.params) (start_ : list Z) :
  exists end_, end_state p start_ = Some end_.
Proof.
  induction start_ as [|s start_ [end_ IH]]; [now exists []|].
  cbn [end_state]. rewrite IH.
  destruct (params.limit_brightness p).
  - destruct (limit_brightness_defined (params.color p) s) as [c ->].
    now exists (c :: end_).
  - now exists (params.color p :: end_).
Qed.

(** X19: every failure before the loop gives an exit code of -1, and the
    driver's own when [ws2811_init] fails; a usage error touches neither the
    state files nor the strip. *)
Lemma main_failure_exits (sx : string -> option Z) (sf : string -> option spec_float)
    (name : string) (args : list string) (w : world) :
  (fst (parse_cmdline sx sf name args) = None ->
     exit (main sx sf name args w) = Exit (-1)
     /\ usage (main sx sf name args w) = true
     /\ rendered (main sx sf name args w) = []
     /\ saved (main sx sf name args w) = files w)
  /\ (fst (parse_cmdline sx sf name args) <> None ->
      (setuid w <> 0 -> exit (main sx sf name args w) = Exit (-1))
      /\ (setuid w = 0 -> starttime w = None ->
          exit (main sx sf name args w) = Exit (-1))
      /\ (setuid w = 0 -> starttime w <> None -> init w <> WS2811_SUCCESS ->
          exit (main sx sf name args w) = Exit (init w))).
Proof.
  unfold main.
  destruct (parse_cmdline sx sf name args) as [[p|] err]; cbn [fst].
  - split; [discriminate|]. intros _.
    destruct (load_leds (files w) "/tmp/leds0" _ count0) as [start0 err0].
    destruct (load_leds (files w) "/tmp/leds1" _ count1) as [start1 err1].
    destruct (end_state_defined p start0) as [end0 ->].
    destruct (end_state_defined p start1) as [end1 ->].
    split; [|split].
    + intros H. apply Z.eqb_neq in H. now rewrite H.
    + intros H Ht. rewrite H, Ht. reflexivity.
    + intros H Ht Hi. rewrite H. cbn [Z.eqb negb].
      destruct (starttime w); [|contradiction].
      apply Z.eqb_neq in Hi. now rewrite Hi.
  - split; [|intros H; contradiction]. intros _. repeat split.
Qed.

(** Once a colour has been read, any further argument that is not an option
    is refused. *)
Lemma second_color_rejected (sx : string -> option Z) (sf : string -> option spec_float)
    (arg : string) (rest : list string) (p : params.params) :
  params.color_specified p = true ->
  (arg =? "--help")%string = false -> (arg =? "-h")%string = false ->
  (arg =? "--not-brighter")%string = false ->
  (arg =? "--time")%string = false -> (arg =? "-t")%string = false ->
  fst (parse_args sx sf (arg :: rest) p) = None.
Proof.
  intros Hc H1 H2 H3 H4 H5. cbn [parse_args].
  rewrite H1, H2, H3, H4, H5, Hc. reflexivity.
Qed.

(** * Further properties *)

(** ** The state files *)

Lemma byte_table : all_below 256 byte_entry_ok = true.
Proof. vm_compute. reflexivity. Qed.

Lemma Z_of_byte_of_Z (z : Z) : Z_of_byte (byte_of_Z z) = z mod 256.
Proof.
  pose proof (Z.mod_pos_bound z 256 ltac:(lia)) as Hb.
  pose proof (all_below_spec 256 _ byte_table (z mod 256) ltac:(lia)) as H.
  unfold byte_entry_ok in H. apply Z.eqb_eq in H.
  unfold byte_of_Z in *. now rewrite Z.mod_mod in H by lia.
Qed.

Lemma decode32_encode32 (c : Z) :
  match encode32 c with
  | [b0; b1; b2; b3] => decode32 b0 b1 b2 b3 = wrap32 c
  | _ => False
  end.
Proof.
  cbn [encode32]. unfold decode32, wrap32.
  rewrite !Z_of_byte_of_Z, !Z.shiftr_div_pow2, !Z.shiftl_mul_pow2 by lia.
  change (2 ^ 8) with 256. change (2 ^ 16) with 65536.
  change (2 ^ 24) with 16777216. change (2 ^ 32) with 4294967296.
  Z.div_mod_to_equations. lia.
Qed.

Lemma entries_fwrite32 (colors : list Z) (rest : file) :
  entries (fwrite32 colors (length colors) ++ rest) = map wrap32 colors ++ entries rest.
Proof.
  induction colors as [|c colors IH]; [reflexivity|].
  cbn [length fwrite32 map]. pose proof (decode32_encode32 c) as H.
  unfold encode32 in *. cbn [app entries]. now rewrite H, IH.
Qed.

Lemma map_wrap32 (colors : list Z) : Forall is_uint32 colors -> map wrap32 colors = colors.
Proof.
  induction 1 as [|c colors Hc _ IH]; [reflexivity|].
  cbn [map]. rewrite IH. f_equal. apply Z.mod_small. exact Hc.
Qed.

(** Loading a file that holds an array as [fwrite] wrote it. *)
Lemma load_written (fs : filesystem) (filename : string) (leds colors : list Z)
    (led_count : nat) :
  fs filename = Some (fwrite32 leds (length leds)) ->
  Forall is_uint32 leds -> length colors = led_count ->
  load_leds fs filename colors led_count
  = (firstn led_count leds ++ repeat 0 (led_count - length leds),
     if (length leds <? led_count)%nat
     then ["insufficient data in " ++ filename]%string else []).
Proof.
  intros Hfs Hu Hl. unfold load_leds. rewrite Hfs, fread32_entries.
  rewrite <- (app_nil_r (fwrite32 leds (length leds))), entries_fwrite32.
  cbn [entries]. rewrite app_nil_r, (map_wrap32 leds Hu).
  unfold overwrite.
  assert (Hi : length (firstn led_count leds) = Nat.min led_count (length leds))
    by apply length_firstn.
  rewrite fill_zero_spec by (rewrite length_skipn; lia).
  rewrite Hi. f_equal.
  - f_equal. f_equal. lia.
  - destruct (Nat.ltb_spec (Nat.min led_count (length leds)) led_count);
      destruct (Nat.ltb_spec (length leds) led_count); try reflexivity; lia.
Qed.

(** Loading exactly the array a file holds. *)
Lemma load_written_all (fs : filesystem) (filename : string) (leds colors : list Z)
    (led_count : nat) :
  fs filename = Some (fwrite32 leds led_count) ->
  length leds = led_count -> Forall is_uint32 leds -> length colors = led_count ->
  load_leds fs filename colors led_count = (leds, []).
Proof.
  intros Hfs Hn Hu Hl. subst led_count.
  rewrite (load_written _ _ _ _ _ Hfs Hu Hl).
  rewrite firstn_all, Nat.sub_diag, Nat.ltb_irrefl. cbn [repeat].
  now rewrite app_nil_r.
Qed.

(** A store that succeeds writes the array and prints nothing. *)
Lemma store_leds_stored (fs : filesystem) (filename : string) (colors : list Z)
    (led_count : nat) (io : store_io) :
  stored led_count io ->
  store_leds fs filename colors led_count io
  = (write_file fs filename (fwrite32 colors led_count), []).
Proof.
  destruct io as [|n [|] content]; cbn [stored]; try contradiction.
  intros H. unfold store_leds.
  rewrite (proj2 (Nat.leb_le led_count n) H).
  now rewrite (proj2 (Nat.ltb_ge n led_count) H).
Qed.

(** A store changes no other file; when it succeeds the file holds the
    array and nothing is printed. *)
Lemma store_leds_spec (fs fs' : filesystem) (filename : string) (colors : list Z)
    (led_count : nat) (io : store_io) (err : list string) :
  store_leds fs filename colors led_count io = (fs', err) ->
  (forall name, name <> filename -> fs' name = fs name)
  /\ (stored led_count io ->
      fs' filename = Some (fwrite32 colors led_count) /\ err = []).
Proof.
  intros H. split.
  - intros name Hn. apply String.eqb_neq in Hn.
    destruct io as [|n c content]; cbn [store_leds] in H; injection H as <- _;
      [reflexivity|].
    unfold write_file. now rewrite Hn.
  - intros Hs. rewrite (store_leds_stored _ _ _ _ _ Hs) in H. injection H as <- <-.
    unfold write_file. now rewrite String.eqb_refl.
Qed.



Lemma load_leds_length (fs : filesystem) (filename : string) (colors : list Z)
    (led_count : nat) :
  length colors = led_count ->
  length (fst (load_leds fs filename colors led_count)) = led_count.
Proof.
  intros Hl. rewrite (load_leds_value _ _ _ _ Hl).
  destruct (fs filename) as [data|].
  - rewrite length_app, length_firstn, repeat_length. lia.
  - apply repeat_length.
Qed.

Lemma stack_length (w : world) (a n : nat) : length (map (stack w) (seq a n)) = n.
Proof. now rewrite length_map, length_seq. Qed.

(** ** Brightness *)

Lemma brightness_value_strict (n n' : Z) :
  0 <= n -> n < n' -> n' <= 3060 ->
  (SF2Q (brightness_of n) < SF2Q (brightness_of n'))%Q.
Proof.
  intros H0 Hlt Hhi.
  destruct (brightness_entry n ltac:(lia)) as (_ & _ & Hv & _).
  destruct (brightness_entry n' ltac:(lia)) as (_ & _ & Hv' & _).
  pose proof (inject_Z_range n 0 3059 ltac:(lia)) as Hq.
  pose proof (inject_Z_range n' 1 3060 ltac:(lia)) as Hq'.
  assert (Hs : (inject_Z n + 1 <= inject_Z n')%Q).
  { change 1%Q with (inject_Z 1). rewrite <- inject_Z_plus, <- Zle_Qle. lia. }
  change (inject_Z 0) with 0%Q in *. change (inject_Z 1) with 1%Q in *.
  change (inject_Z 3059) with 3059%Q in *. change (inject_Z 3060) with 3060%Q in *.
  unfold u24 in *. lra.
Qed.

Lemma brightness_ltb_iff (n n' : Z) :
  0 <= n <= 3060 -> 0 <= n' <= 3060 ->
  F32.ltb (brightness_of n) (brightness_of n') = true <-> n < n'.
Proof.
  intros Hn Hn'. split; [now apply brightness_ltb|]. intros Hlt.
  destruct (brightness_entry n Hn) as (_ & Hc & _).
  destruct (brightness_entry n' Hn') as (_ & Hc' & _).
  apply (ltb_value 24 128 f32_prec _ _ Hc Hc').
  apply brightness_value_strict; lia.
Qed.

Lemma brightness_leb_iff (n n' : Z) :
  0 <= n <= 3060 -> 0 <= n' <= 3060 ->
  F32.leb (brightness_of n) (brightness_of n') = true <-> n <= n'.
Proof.
  intros Hn Hn'. split; [|intros; apply brightness_leb; lia]. intros H.
  destruct (brightness_entry n Hn) as (_ & Hc & _).
  destruct (brightness_entry n' Hn') as (_ & Hc' & _).
  apply (leb_value 24 128 f32_prec _ _ Hc Hc') in H.
  destruct (Z.le_gt_cases n n') as [|Hgt]; [assumption|].
  pose proof (brightness_value_strict n' n ltac:(lia) ltac:(lia) ltac:(lia)). lra.
Qed.

(** X3: the binary32 brightnesses of two colours compare as their integer
    weighted channel sums [5 w + 2 r + 3 g + 2 b] do: rounding never makes two
    different sums equal nor turns their order. *)
Theorem brightness_order (color1 color2 : Z) :
  (F32.ltb (get_brightness color1) (get_brightness color2) = true
   <-> weights color1 < weights color2)
  /\ (F32.leb (get_brightness color1) (get_brightness color2) = true
      <-> weights color1 <= weights color2)
  /\ (get_brightness color1 = get_brightness color2
      <-> weights color1 = weights color2).
Proof.
  rewrite !get_brightness_of.
  destruct (weighted_sum_weights color1) as [_ H1].
  destruct (weighted_sum_weights color2) as [_ H2].
  split; [now apply brightness_ltb_iff|]. split; [now apply brightness_leb_iff|].
  split; [|now intros ->]. intros E.
  destruct (Z.lt_total (weights color1) (weights color2)) as [Hlt|[Heq|Hgt]];
    [|assumption|].
  - pose proof (brightness_value_strict _ _ (proj1 H1) Hlt (proj2 H2)) as Hs.
    rewrite E in Hs. lra.
  - pose proof (brightness_value_strict _ _ (proj1 H2) Hgt (proj2 H1)) as Hs.
    rewrite E in Hs. lra.
Qed.

(** X4: a colour that is no larger in any channel is not brighter. *)
Theorem get_brightness_monotone (color1 color2 : Z) :
  (forall k, In k shifts -> channel color1 k <= channel color2 k) ->
  F32.leb (get_brightness color1) (get_brightness color2) = true.
Proof.
  intros H. rewrite !get_brightness_of.
  destruct (weighted_sum_weights color1) as [_ H1].
  destruct (weighted_sum_weights color2) as [_ H2].
  apply brightness_leb; try lia.
  pose proof (H 24 ltac:(cbn; tauto)). pose proof (H 16 ltac:(cbn; tauto)).
  pose proof (H 8 ltac:(cbn; tauto)). pose proof (H 0 ltac:(cbn; tauto)).
  unfold weights. lia.
Qed.

Lemma get_brightness_monotone_witness :
  F32.leb (get_brightness 0x10203040) (get_brightness 0x11203045) = true.
Proof.
  apply (get_brightness_monotone 0x10203040 0x11203045).
  intros k [<-|[<-|[<-|[<-|[]]]]]; vm_compute; discriminate.
Defined.

(** ** The limiter *)

(** The weighted sum of a limited colour. *)
Lemma limit_brightness_weight (color reference_color limited : Z) :
  limit_brightness color reference_color = Some limited ->
  weights limited <= weights reference_color
  /\ forall k, In k shifts -> 0 <= channel limited k <= channel color k.
Proof.
  intros HL.
  destruct (weighted_sum_weights color) as [_ Hc].
  destruct (weighted_sum_weights reference_color) as [_ Hr].
  channel_bounds color H24 H16 H8 H0.
  destruct (F32.ltb (get_brightness reference_color) (get_brightness color)) eqn:Hlt.
  - destruct (limit_brightness_scaled _ _ Hlt)
      as (Hn & w & r & g & b & HL' & _ & _ & _ & _ & Sw & Sr & Sg & Sb).
    rewrite HL in HL'. injection HL' as ->.
    pose proof (scaled_down_le _ _ _ _ (proj1 H24) (proj1 Hr) Hn Sw) as Bw.
    pose proof (scaled_down_le _ _ _ _ (proj1 H16) (proj1 Hr) Hn Sr) as Br.
    pose proof (scaled_down_le _ _ _ _ (proj1 H8) (proj1 Hr) Hn Sg) as Bg.
    pose proof (scaled_down_le _ _ _ _ (proj1 H0) (proj1 Hr) Hn Sb) as Bb.
    destruct (channels_compose w r g b) as (_ & C24 & C16 & C8 & C0); try lia.
    split.
    + unfold weights at 1. rewrite C24, C16, C8, C0.
      destruct Sw as (_ & Sw & _), Sr as (_ & Sr & _), Sg as (_ & Sg & _),
               Sb as (_ & Sb & _).
      assert (EnC : weights color = 5 * channel color 24 + 2 * channel color 16
                                    + 3 * channel color 8 + 2 * channel color 0)
        by reflexivity.
      set (nC := weights color) in *. set (nR := weights reference_color) in *.
      assert (Hs : (5 * w + 2 * r + 3 * g + 2 * b) * nC
                   <= (5 * channel color 24 + 2 * channel color 16
                       + 3 * channel color 8 + 2 * channel color 0) * nR) by lia.
      rewrite <- EnC in Hs. nia.
    + apply in_shifts; [rewrite C24|rewrite C16|rewrite C8|rewrite C0]; assumption.
  - unfold limit_brightness in HL. rewrite Hlt in HL. injection HL as <-.
    split.
    + rewrite !get_brightness_of in Hlt.
      destruct (Z.le_gt_cases (weights color) (weights reference_color)) as [|Hgt];
        [assumption|].
      apply (brightness_ltb_iff _ _ Hr Hc) in Hgt. congruence.
    + apply in_shifts; lia.
Qed.

Lemma limit_brightness_uint32 (color reference_color limited : Z) :
  is_uint32 color -> limit_brightness color reference_color = Some limited ->
  is_uint32 limited.
Proof.
  intros HU HL.
  destruct (F32.ltb (get_brightness reference_color) (get_brightness color)) eqn:Hlt.
  - destruct (limit_brightness_scaled _ _ Hlt)
      as (Hn & w & r & g & b & HL' & _ & _ & _ & _ & Sw & Sr & Sg & Sb).
    rewrite HL in HL'. injection HL' as ->.
    destruct (weighted_sum_weights reference_color) as [_ Hr].
    channel_bounds color G24 G16 G8 G0.
    pose proof (scaled_down_le _ _ _ _ (proj1 G24) (proj1 Hr) Hn Sw).
    pose proof (scaled_down_le _ _ _ _ (proj1 G16) (proj1 Hr) Hn Sr).
    pose proof (scaled_down_le _ _ _ _ (proj1 G8) (proj1 Hr) Hn Sg).
    pose proof (scaled_down_le _ _ _ _ (proj1 G0) (proj1 Hr) Hn Sb).
    apply channels_compose; lia.
  - unfold limit_brightness in HL. rewrite Hlt in HL. now injection HL as <-.
Qed.

(** X5: for every colour and every reference, [limit_brightness] has
    a defined result that is not brighter than the reference, also as the
    limiter's own comparison sees it. *)
Theorem limit_brightness_not_brighter (color reference_color : Z) :
  exists limited,
    limit_brightness color reference_color = Some limited
    /\ F32.leb (get_brightness limited) (get_brightness reference_color) = true
    /\ F32.ltb (get_brightness reference_color) (get_brightness limited) = false.
Proof.
  destruct (limit_brightness_defined color reference_color) as [limited HL].
  exists limited. split; [exact HL|].
  destruct (limit_brightness_weight _ _ _ HL) as [Hw _].
  destruct (weighted_sum_weights limited) as [_ H1].
  destruct (weighted_sum_weights reference_color) as [_ H2].
  rewrite !get_brightness_of.
  assert (Hle : F32.leb (brightness_of (weights limited))
                  (brightness_of (weights reference_color)) = true)
    by (apply brightness_leb; lia).
  split; [exact Hle|]. now apply brightness_leb_not_ltb.
Qed.

(** X6: limiting the limited colour against the same reference changes
    nothing. *)
Theorem limit_brightness_idempotent (color reference_color : Z) :
  exists limited,
    limit_brightness color reference_color = Some limited
    /\ limit_brightness limited reference_color = Some limited.
Proof.
  destruct (limit_brightness_defined color reference_color) as [limited HL].
  exists limited. split; [exact HL|].
  destruct (limit_brightness_weight _ _ _ HL) as [Hw _].
  destruct (weighted_sum_weights limited) as [_ H1].
  destruct (weighted_sum_weights reference_color) as [_ H2].
  unfold limit_brightness. rewrite !get_brightness_of.
  rewrite brightness_leb_not_ltb; try assumption; [reflexivity|].
  apply brightness_leb; lia.
Qed.

(** X7: against a reference whose four channels are 0, the result is
    black, whatever the colour is. *)
Theorem limit_brightness_black (color reference_color : Z) :
  is_uint32 color ->
  (forall k, In k shifts -> channel reference_color k = 0) ->
  limit_brightness color reference_color = Some 0.
Proof.
  intros HU Hb.
  destruct (limit_brightness_defined color reference_color) as [limited HL].
  destruct (limit_brightness_weight _ _ _ HL) as [Hw Hch].
  assert (HR : weights reference_color = 0).
  { unfold weights. rewrite (Hb 24), (Hb 16), (Hb 8), (Hb 0) by (cbn; tauto). reflexivity. }
  channel_bounds limited H24 H16 H8 H0.
  assert (Hz : channel limited 24 = 0 /\ channel limited 16 = 0
               /\ channel limited 8 = 0 /\ channel limited 0 = 0)
    by (unfold weights in Hw at 1; lia).
  pose proof (limit_brightness_uint32 _ _ _ HU HL) as HUL.
  rewrite HL. f_equal. rewrite (uint32_channels limited HUL).
  destruct Hz as (-> & -> & -> & ->). reflexivity.
Qed.

Lemma limit_brightness_black_witness :
  limit_brightness 0xFFFFFFFF 0 = Some 0.
Proof.
  apply (limit_brightness_black 0xFFFFFFFF 0).
  - unfold is_uint32. lia.
  - intros k [<-|[<-|[<-|[<-|[]]]]]; reflexivity.
Defined.

(** X23: [limit_brightness] changes a colour exactly when the colour is
    brighter than the reference. *)
Theorem limit_brightness_changes_iff (color reference_color : Z) :
  limit_brightness color reference_color = Some color
  <-> F32.leb (get_brightness color) (get_brightness reference_color) = true.
Proof.
  destruct (weighted_sum_weights color) as [_ Hc].
  destruct (weighted_sum_weights reference_color) as [_ Hr].
  split.
  - intros HL.
    destruct (F32.ltb (get_brightness reference_color) (get_brightness color)) eqn:Hlt.
    + exfalso.
      destruct (limit_brightness_scaled _ _ Hlt)
        as (Hn & w & r & g & b & HL' & _ & _ & _ & _ & Sw & Sr & Sg & Sb).
      rewrite HL in HL'. injection HL' as E.
      channel_bounds color H24 H16 H8 H0.
      pose proof (scaled_down_le _ _ _ _ (proj1 H24) (proj1 Hr) Hn Sw) as Bw.
      pose proof (scaled_down_le _ _ _ _ (proj1 H16) (proj1 Hr) Hn Sr) as Br.
      pose proof (scaled_down_le _ _ _ _ (proj1 H8) (proj1 Hr) Hn Sg) as Bg.
      pose proof (scaled_down_le _ _ _ _ (proj1 H0) (proj1 Hr) Hn Sb) as Bb.
      destruct (channels_compose w r g b) as (_ & C24 & C16 & C8 & C0); try lia.
      rewrite <- E in C24, C16, C8, C0.
      destruct Sw as (_ & Sw & _), Sr as (_ & Sr & _), Sg as (_ & Sg & _),
               Sb as (_ & Sb & _).
      rewrite <- C24 in Sw. rewrite <- C16 in Sr. rewrite <- C8 in Sg.
      rewrite <- C0 in Sb.
      assert (Z24 : channel color 24 = 0) by nia.
      assert (Z16 : channel color 16 = 0) by nia.
      assert (Z8 : channel color 8 = 0) by nia.
      assert (Z0 : channel color 0 = 0) by nia.
      unfold weights in Hn at 2. lia.
    + rewrite !get_brightness_of in *.
      apply brightness_leb; try lia.
      destruct (Z.le_gt_cases (weights color) (weights reference_color)) as [|Hgt];
        [assumption|].
      apply (brightness_ltb_iff _ _ Hr Hc) in Hgt. congruence.
  - intros Hle. unfold limit_brightness.
    rewrite !get_brightness_of in *.
    now rewrite (brightness_leb_not_ltb _ _ Hc Hr Hle).
Qed.

(** X24: in the scaling branch the result is dimmed to the reference, and by
    no more than the truncation of the four channels takes: its weighted
    channel sum is at most that of the reference and less than 12 below. *)
Theorem limit_brightness_tight (color reference_color : Z) :
  F32.ltb (get_brightness reference_color) (get_brightness color) = true ->
  exists limited,
    limit_brightness color reference_color = Some limited
    /\ weights reference_color - 12 <= weights limited <= weights reference_color.
Proof.
  intros Hlt.
  destruct (limit_brightness_scaled _ _ Hlt)
    as (Hn & w & r & g & b & HL & _ & _ & _ & _ & Sw & Sr & Sg & Sb).
  destruct (weighted_sum_weights color) as [_ Hc].
  destruct (weighted_sum_weights reference_color) as [_ Hr].
  channel_bounds color H24 H16 H8 H0.
  pose proof (scaled_down_le _ _ _ _ (proj1 H24) (proj1 Hr) Hn Sw) as Bw.
  pose proof (scaled_down_le _ _ _ _ (proj1 H16) (proj1 Hr) Hn Sr) as Br.
  pose proof (scaled_down_le _ _ _ _ (proj1 H8) (proj1 Hr) Hn Sg) as Bg.
  pose proof (scaled_down_le _ _ _ _ (proj1 H0) (proj1 Hr) Hn Sb) as Bb.
  destruct (channels_compose w r g b) as (_ & C24 & C16 & C8 & C0); try lia.
  exists (compose w r g b). split; [exact HL|].
  unfold weights at 2 3. rewrite C24, C16, C8, C0.
  destruct Sw as (_ & Sw & Sw'), Sr as (_ & Sr & Sr'), Sg as (_ & Sg & Sg'),
           Sb as (_ & Sb & Sb').
  assert (EnC : weights color = 5 * channel color 24 + 2 * channel color 16
                                + 3 * channel color 8 + 2 * channel color 0)
    by reflexivity.
  set (nC := weights color) in *. set (nR := weights reference_color) in *.
  assert (Hhi : (5 * w + 2 * r + 3 * g + 2 * b) * nC
                <= (5 * channel color 24 + 2 * channel color 16
                    + 3 * channel color 8 + 2 * channel color 0) * nR) by lia.
  assert (Hlo : (5 * channel color 24 + 2 * channel color 16
                 + 3 * channel color 8 + 2 * channel color 0) * nR
                <= (5 * w + 2 * r + 3 * g + 2 * b + 12) * nC) by lia.
  rewrite <- EnC in Hhi, Hlo. split; nia.
Qed.

Lemma limit_brightness_tight_witness :
  exists limited,
    limit_brightness 0xFFFFFFFF 0x80808080 = Some limited
    /\ weights 0x80808080 - 12 <= weights limited <= weights 0x80808080.
Proof.
  apply (limit_brightness_tight 0xFFFFFFFF 0x80808080). reflexivity.
Defined.

Lemma end_state_leds (p : params.params) (start_ end_ : list Z) :
  end_state p start_ = Some end_ -> Forall2 (end_led p) start_ end_.
Proof.
  revert end_. induction start_ as [|s start_ IH]; intros end_ H.
  - cbn in H. injection H as <-. constructor.
  - cbn [end_state] in H.
    destruct (if params.limit_brightness p
              then limit_brightness (params.color p) s
              else Some (params.color p)) as [c|] eqn:Ec; [|discriminate].
    destruct (end_state p start_) as [rest|]; [|discriminate].
    cbn [bind] in H. injection H as <-.
    constructor; [|now apply IH].
    unfold end_led. destruct (params.limit_brightness p); [assumption|congruence].
Qed.

Lemma end_state_length (p : params.params) (start_ end_ : list Z) :
  end_state p start_ = Some end_ -> length end_ = length start_.
Proof. intros H. apply end_state_leds, Forall2_length in H. now symmetry. Qed.

Lemma end_state_uint32 (p : params.params) (start_ end_ : list Z) :
  is_uint32 (params.color p) -> end_state p start_ = Some end_ ->
  length end_ = length start_ /\ Forall is_uint32 end_.
Proof.
  intros HU H. apply end_state_leds in H.
  induction H as [|s e start_ end_ He _ [IHl IHu]]; [split; [reflexivity|constructor]|].
  split; [cbn; now rewrite IHl|]. constructor; [|assumption].
  unfold end_led in He. destruct (params.limit_brightness p).
  - exact (limit_brightness_uint32 _ s e HU He).
  - now subst e.
Qed.

(** X8: with [--not-brighter], the end state [main] computes has, LED
    by LED, a colour that is not brighter than the LED's start colour and
    exceeds the requested colour in no channel. *)
Theorem end_state_not_brighter (p : params.params) (start_ : list Z) :
  params.limit_brightness p = true ->
  exists end_,
    end_state p start_ = Some end_
    /\ Forall2 (fun s e =>
                  F32.leb (get_brightness e) (get_brightness s) = true
                  /\ forall k, In k shifts ->
                       0 <= channel e k <= channel (params.color p) k)
         start_ end_.
Proof.
  intros Hl. destruct (end_state_defined p start_) as [end_ H].
  exists end_. split; [exact H|].
  apply end_state_leds in H.
  induction H as [|s e start_ end_ He _ IH]; constructor; [|exact IH].
  unfold end_led in He. rewrite Hl in He.
  destruct (limit_brightness_weight _ _ _ He) as [Hw Hch].
  split; [|exact Hch].
  rewrite !get_brightness_of.
  destruct (weighted_sum_weights e) as [_ H1].
  destruct (weighted_sum_weights s) as [_ H2].
  apply brightness_leb; lia.
Qed.

Lemma end_state_not_brighter_witness :
  exists end_,
    end_state {| params.prog_name := "lightctl"; params.color := 0xFFFFFFFF;
                 params.color_specified := true;
                 params.duration := S754_zero false;
                 params.limit_brightness := true |} [0x80808080; 0] = Some end_
    /\ Forall2 (fun s e =>
                  F32.leb (get_brightness e) (get_brightness s) = true
                  /\ forall k, In k shifts -> 0 <= channel e k <= channel 0xFFFFFFFF k)
         [0x80808080; 0] end_.
Proof.
  apply (end_state_not_brighter
           {| params.prog_name := "lightctl"; params.color := 0xFFFFFFFF;
              params.color_specified := true;
              params.duration := S754_zero false;
              params.limit_brightness := true |} [0x80808080; 0]).
  reflexivity.
Defined.

(** ** Blending *)

(** Blending two channel values: the result is the linear interpolation
    [(1 - alpha) * c1 + alpha * c2], rounded down, up to the rounding error
    of the three operations; it lies between the two values, or is one less
    than the smaller. *)
Lemma blend_channel_value (c1 c2 : Z) (alpha : spec_float) :
  0 <= c1 <= 255 -> 0 <= c2 <= 255 -> tame 24 alpha -> (SF2Q alpha <= 1)%Q ->
  exists v,
    float_to_uint32
      (F32.add (F32.mul (F32.sub (F32.of_Z 1) alpha) (F32.of_Z c1))
               (F32.mul alpha (F32.of_Z c2))) = Some v
    /\ 0 <= v /\ Z.min c1 c2 - 1 <= v <= Z.max c1 c2
    /\ ((1 - SF2Q alpha) * inject_Z c1 + SF2Q alpha * inject_Z c2 - 1 - (1 # 16384)
        < inject_Z v
        <= (1 - SF2Q alpha) * inject_Z c1 + SF2Q alpha * inject_Z c2 + (1 # 16384))%Q.
Proof.
  intros Hc1 Hc2 Ha Ha1.
  destruct (channel_entry 1 ltac:(lia)) as (H1t & H1v & _).
  destruct (channel_entry c1 Hc1) as (Hct1 & Hcv1 & _).
  destruct (channel_entry c2 Hc2) as (Hct2 & Hcv2 & _).
  pose proof (SF2Q_nonneg 24 alpha Ha) as Ha0.
  change (inject_Z 1) with 1%Q in H1v.
  pose proof (inject_Z_range c1 0 255 Hc1) as Hq1.
  pose proof (inject_Z_range c2 0 255 Hc2) as Hq2.
  pose proof (inject_Z_range (Z.min c1 c2) 0 255 ltac:(lia)) as Hqlo.
  pose proof (inject_Z_range (Z.max c1 c2) 0 255 ltac:(lia)) as Hqhi.
  assert (Hlo1 : (inject_Z (Z.min c1 c2) <= inject_Z c1)%Q) by (rewrite <- Zle_Qle; lia).
  assert (Hlo2 : (inject_Z (Z.min c1 c2) <= inject_Z c2)%Q) by (rewrite <- Zle_Qle; lia).
  assert (Hhi1 : (inject_Z c1 <= inject_Z (Z.max c1 c2))%Q) by (rewrite <- Zle_Qle; lia).
  assert (Hhi2 : (inject_Z c2 <= inject_Z (Z.max c1 c2))%Q) by (rewrite <- Zle_Qle; lia).
  change (inject_Z 0) with 0%Q in *. change (inject_Z 255) with 255%Q in *.
  set (a := SF2Q alpha) in *.
  set (q1 := inject_Z c1) in *. set (q2 := inject_Z c2) in *.
  set (lo := inject_Z (Z.min c1 c2)) in *. set (hi := inject_Z (Z.max c1 c2)) in *.
  (* 1 - alpha *)
  destruct (sub_value 24 128 f32_prec f32_emax (F32.of_Z 1) alpha 1 H1t Ha)
    as [Htt Htv]; try (unfold emin; lia).
  { rewrite H1v. exact Ha1. }
  { rewrite H1v. change (bpow 1) with 2%Q. fold a. lra. }
  change (SFsub 24 128) with F32.sub in Htt, Htv. rewrite H1v in Htv. fold a in Htv.
  change (bpow (1 - 24 - 1)) with (1 # 16777216)%Q in Htv.
  set (t := SF2Q (F32.sub (F32.of_Z 1) alpha)) in *.
  (* the exact blend lies between the two values *)
  assert (Hb2 : (a * lo <= a * q2 <= a * hi)%Q)
    by (split; apply Qmult_le_compat_l_nonneg; assumption).
  assert (Hal : (0 <= a * lo <= lo)%Q).
  { split; [apply Qmult_le_0_compat; lra|].
    setoid_replace lo with (1 * lo)%Q at 2 by ring.
    apply Qmult_le_compat_r; lra. }
  assert (Hah : (0 <= a * hi <= hi)%Q).
  { split; [apply Qmult_le_0_compat; lra|].
    setoid_replace hi with (1 * hi)%Q at 2 by ring.
    apply Qmult_le_compat_r; lra. }
  assert (Htc : ((1 - a - (1 # 16777216)) * q1 <= t * q1
                 <= (1 - a + (1 # 16777216)) * q1)%Q)
    by (split; apply Qmult_le_compat_r; lra).
  setoid_replace ((1 - a - (1 # 16777216)) * q1)%Q
    with ((1 - a) * q1 - (1 # 16777216) * q1)%Q in Htc by ring.
  setoid_replace ((1 - a + (1 # 16777216)) * q1)%Q
    with ((1 - a) * q1 + (1 # 16777216) * q1)%Q in Htc by ring.
  assert (Hd1 : ((1 - a) * lo <= (1 - a) * q1 <= (1 - a) * hi)%Q)
    by (split; apply Qmult_le_compat_l_nonneg; lra).
  setoid_replace ((1 - a) * lo)%Q with (lo - a * lo)%Q in Hd1 by ring.
  setoid_replace ((1 - a) * hi)%Q with (hi - a * hi)%Q in Hd1 by ring.
  (* (1 - alpha) * c1 *)
  destruct (mul_value 24 128 f32_prec f32_emax (F32.sub (F32.of_Z 1) alpha) (F32.of_Z c1) 8
              Htt Hct1) as [Hxt Hxv]; try (unfold emin; lia).
  { rewrite Hcv1. fold t q1. change (bpow 8) with 256%Q. lra. }
  change (SFmul 24 128) with F32.mul in Hxt, Hxv. rewrite Hcv1 in Hxv. fold t q1 in Hxv.
  change (bpow (8 - 24 - 1)) with (1 # 131072)%Q in Hxv.
  (* alpha * c2 *)
  destruct (mul_value 24 128 f32_prec f32_emax alpha (F32.of_Z c2) 8 Ha Hct2)
    as [Hyt Hyv]; try (unfold emin; lia).
  { rewrite Hcv2. fold a q2. change (bpow 8) with 256%Q. lra. }
  change (SFmul 24 128) with F32.mul in Hyt, Hyv. rewrite Hcv2 in Hyv. fold a q2 in Hyv.
  change (bpow (8 - 24 - 1)) with (1 # 131072)%Q in Hyv.
  (* the sum *)
  destruct (add_value 24 128 f32_prec f32_emax _ _ 8 Hxt Hyt)
    as [Hst Hsv]; try (unfold emin; lia).
  { change (bpow 8) with 256%Q. lra. }
  change (SFadd 24 128) with F32.add in Hst, Hsv.
  change (bpow (8 - 24 - 1)) with (1 # 131072)%Q in Hsv.
  destruct (float_to_uint32_floor _ Hst) as (v & Hv & Hv0 & Hvlo & Hvhi).
  exists v. split; [exact Hv|]. split; [assumption|].
  assert (Hlt : (inject_Z v < inject_Z (Z.max c1 c2 + 1))%Q)
    by (rewrite inject_Z_plus; fold hi; change (inject_Z 1) with 1%Q; lra).
  assert (Hgt : (inject_Z (Z.min c1 c2 - 2) < inject_Z v)%Q).
  { unfold Z.sub. rewrite inject_Z_plus. fold lo.
    change (inject_Z (- (2))) with (- (2))%Q. lra. }
  rewrite <- Zlt_Qlt in Hlt, Hgt. split; [lia|]. split; lra.
Qed.

(** Blending two channel values: the result lies between them, or is one
    less than the smaller. *)
Lemma blend_channel_between (c1 c2 : Z) (alpha : spec_float) :
  0 <= c1 <= 255 -> 0 <= c2 <= 255 -> tame 24 alpha -> (SF2Q alpha <= 1)%Q ->
  exists v,
    float_to_uint32
      (F32.add (F32.mul (F32.sub (F32.of_Z 1) alpha) (F32.of_Z c1))
               (F32.mul alpha (F32.of_Z c2))) = Some v
    /\ 0 <= v /\ Z.min c1 c2 - 1 <= v <= Z.max c1 c2.
Proof.
  intros Hc1 Hc2 Ha Ha1.
  destruct (blend_channel_value c1 c2 alpha Hc1 Hc2 Ha Ha1) as (v & Hv & Hv0 & Hb & _).
  exists v. split; [exact Hv|]. split; assumption.
Qed.

Lemma blend_colors_range (color1 color2 : Z) (alpha : spec_float) :
  tame 24 alpha -> (SF2Q alpha <= 1)%Q ->
  exists shown,
    blend_colors color1 color2 alpha = Some shown /\ between color1 color2 shown.
Proof.
  intros Ht Hv.
  channel_bounds color1 A24 A16 A8 A0.
  channel_bounds color2 B24 B16 B8 B0.
  destruct (blend_channel_between _ _ alpha A24 B24 Ht Hv) as (w & Ew & Hw0 & Hw).
  destruct (blend_channel_between _ _ alpha A16 B16 Ht Hv) as (r & Er & Hr0 & Hr).
  destruct (blend_channel_between _ _ alpha A8 B8 Ht Hv) as (g & Eg & Hg0 & Hg).
  destruct (blend_channel_between _ _ alpha A0 B0 Ht Hv) as (b & Eb & Hb0 & Hb).
  destruct (channels_compose w r g b) as (HU & C24 & C16 & C8 & C0); try lia.
  exists (compose w r g b). split.
  - unfold blend_colors, blend_channel. apply pack_channels; try assumption; lia.
  - split; [exact HU|].
    apply in_shifts; [rewrite C24|rewrite C16|rewrite C8|rewrite C0]; assumption.
Qed.

(** X9: for a float [alpha] between 0 and 1, [blend_colors] has a
    defined result, a [uint32_t] of which every channel lies between the
    channels of the two colours, or one below the smaller: no channel
    overflows into its neighbour. *)
Theorem blend_colors_between (color1 color2 : Z) (alpha : spec_float) :
  tame 24 alpha -> (SF2Q alpha <= 1)%Q ->
  exists shown,
    blend_colors color1 color2 alpha = Some shown
    /\ is_uint32 shown
    /\ forall k, In k shifts ->
         Z.min (channel color1 k) (channel color2 k) - 1 <= channel shown k
         <= Z.max (channel color1 k) (channel color2 k).
Proof.
  intros Ht Hv.
  destruct (blend_colors_range color1 color2 alpha Ht Hv) as (shown & Hs & Hu & Hb).
  exists shown. split; [exact Hs|]. split; [exact Hu|exact Hb].
Qed.

Lemma blend_colors_between_witness :
  exists shown,
    blend_colors 0x00FF8040 0xFF004080 (S754_finite false 1 (-2)) = Some shown
    /\ is_uint32 shown
    /\ forall k, In k shifts ->
         Z.min (channel 0x00FF8040 k) (channel 0xFF004080 k) - 1 <= channel shown k
         <= Z.max (channel 0x00FF8040 k) (channel 0xFF004080 k).
Proof.
  apply (blend_colors_between 0x00FF8040 0xFF004080 (S754_finite false 1 (-2))).
  - cbn. lia.
  - vm_compute. discriminate.
Defined.

(** X26: for a float [alpha] between 0 and 1, every channel of
    [blend_colors] is the linear interpolation
    [(1 - alpha) * c1 + alpha * c2] of the two channel values, rounded down,
    up to a rounding error below 2^-14. *)
Theorem blend_colors_linear (color1 color2 : Z) (alpha : spec_float) :
  tame 24 alpha -> (SF2Q alpha <= 1)%Q ->
  exists shown,
    blend_colors color1 color2 alpha = Some shown
    /\ forall k, In k shifts ->
         ((1 - SF2Q alpha) * inject_Z (channel color1 k)
          + SF2Q alpha * inject_Z (channel color2 k) - 1 - (1 # 16384)
          < inject_Z (channel shown k)
          <= (1 - SF2Q alpha) * inject_Z (channel color1 k)
             + SF2Q alpha * inject_Z (channel color2 k) + (1 # 16384))%Q.
Proof.
  intros Ht Hv.
  channel_bounds color1 A24 A16 A8 A0.
  channel_bounds color2 B24 B16 B8 B0.
  destruct (blend_channel_value _ _ alpha A24 B24 Ht Hv) as (w & Ew & Hw0 & Hw & Lw).
  destruct (blend_channel_value _ _ alpha A16 B16 Ht Hv) as (r & Er & Hr0 & Hr & Lr).
  destruct (blend_channel_value _ _ alpha A8 B8 Ht Hv) as (g & Eg & Hg0 & Hg & Lg).
  destruct (blend_channel_value _ _ alpha A0 B0 Ht Hv) as (b & Eb & Hb0 & Hb & Lb).
  destruct (channels_compose w r g b) as (HU & C24 & C16 & C8 & C0); try lia.
  exists (compose w r g b). split.
  - unfold blend_colors, blend_channel. apply pack_channels; try assumption; lia.
  - apply in_shifts; [rewrite C24|rewrite C16|rewrite C8|rewrite C0]; assumption.
Qed.

Lemma blend_colors_linear_witness :
  exists shown,
    blend_colors 0x00FF8040 0xFF004080 (S754_finite false 1 (-2)) = Some shown
    /\ forall k, In k shifts ->
         ((1 - SF2Q (S754_finite false 1 (-2))) * inject_Z (channel 0x00FF8040 k)
          + SF2Q (S754_finite false 1 (-2)) * inject_Z (channel 0xFF004080 k)
          - 1 - (1 # 16384)
          < inject_Z (channel shown k)
          <= (1 - SF2Q (S754_finite false 1 (-2))) * inject_Z (channel 0x00FF8040 k)
             + SF2Q (S754_finite false 1 (-2)) * inject_Z (channel 0xFF004080 k)
             + (1 # 16384))%Q.
Proof.
  apply (blend_colors_linear 0x00FF8040 0xFF004080 (S754_finite false 1 (-2))).
  - cbn. lia.
  - vm_compute. discriminate.
Defined.

Lemma blend_leds_range (start_ end_ : list Z) (alpha : spec_float) :
  tame 24 alpha -> (SF2Q alpha <= 1)%Q ->
  exists leds,
    blend_leds start_ end_ alpha = Some leds /\ leds_between start_ end_ leds.
Proof.
  intros Ht Hv. revert end_.
  induction start_ as [|s start_ IH]; intros end_.
  - exists []. split; [reflexivity|constructor].
  - destruct end_ as [|e end_].
    + exists []. split; [reflexivity|constructor].
    + destruct (blend_colors_range s e alpha Ht Hv) as (c & Hc & Hb).
      destruct (IH end_) as (leds & Hl & Hbs).
      exists (c :: leds). cbn [blend_leds]. rewrite Hc, Hl. cbn [bind].
      split; [reflexivity|]. constructor; assumption.
Qed.

Lemma leds_between_length (start_ end_ leds : list Z) :
  leds_between start_ end_ leds ->
  length leds = Nat.min (length start_) (length end_).
Proof.
  intros H. apply Forall2_length in H. now rewrite length_combine in H.
Qed.

Lemma leds_between_uint32 (start_ end_ leds : list Z) :
  leds_between start_ end_ leds -> Forall is_uint32 leds.
Proof.
  unfold leds_between. intros H.
  induction H as [|se c l leds [Hu _] _ IH]; constructor; assumption.
Qed.

(** At progress 1 the frame is the end state. *)
Lemma blend_leds_one (start_ end_ : list Z) :
  length start_ = length end_ -> Forall is_uint32 end_ ->
  blend_leds start_ end_ (F32.of_Z 1) = Some end_.
Proof.
  revert end_. induction start_ as [|s start_ IH]; intros [|e end_] Hl Hu;
    try discriminate; [reflexivity|].
  cbn [blend_leds]. inversion Hu as [|? ? He Hu']; subst.
  rewrite blend_colors_one by assumption.
  rewrite IH by (try assumption; now injection Hl). reflexivity.
Qed.

(** ** Elapsed time and progress *)

Lemma plus_nonneg (x : spec_float) : plus_float x -> nonneg_float x.
Proof. destruct x as [s|s| |s m e]; cbn; tauto. Qed.

Lemma result_of_plus (prec emax m e : Z) :
  0 <= m -> plus_float (result_of prec emax false m e).
Proof.
  intros Hm. unfold result_of. destruct m as [|p|p]; [reflexivity| |lia].
  destruct (e <=? emax - prec); reflexivity.
Qed.

(** Rounding a non-negative integer mantissa gives no sign bit and no NaN. *)
Lemma normalize_plus (prec emax M e : Z) :
  0 < prec -> 0 <= M -> plus_float (binary_normalize prec emax M e false).
Proof.
  intros Hp HM. destruct M as [|p|p]; [reflexivity| |lia].
  cbn [binary_normalize]. unfold binary_round.
  destruct (shl_align p e (fexp prec emax (Zpos (digits2_pos p) + e))) as [mz ez].
  destruct (binary_round_aux_spec prec emax Hp false (Zpos mz) ez loc_Exact (Zpos mz) 1
              (represents_exact (Zpos mz) ltac:(lia))) as (m' & e' & -> & Hm' & _).
  apply result_of_plus. lia.
Qed.

(** Rounding to nearest does not take a value of at least 1 below 1. *)
Lemma normalize_at_least_one (prec emax : Z) (p : positive) (e : Z) :
  0 < prec -> prec < emax -> 2 < emax ->
  (1 <= inject_Z (Zpos p) * bpow e)%Q ->
  at_least_one (binary_normalize prec emax (Zpos p) e false).
Proof.
  intros Hp Hpe He2 Hv.
  cbn [binary_normalize]. unfold binary_round.
  pose proof (shl_align_spec p e (fexp prec emax (Zpos (digits2_pos p) + e))) as Hs.
  destruct (shl_align p e (fexp prec emax (Zpos (digits2_pos p) + e))) as [mz ez].
  destruct Hs as [Hez Hmz].
  assert (HvQ : (inject_Z (Zpos mz) * bpow ez == inject_Z (Zpos p) * bpow e)%Q).
  { rewrite Hmz, inject_Z_mult, bpow_inject by lia.
    rewrite <- Qmult_assoc, <- bpow_add.
    now replace (e - ez + ez) with e by lia. }
  rewrite <- HvQ in Hv. clear HvQ Hmz Hez.
  destruct (binary_round_aux_spec prec emax Hp false (Zpos mz) ez loc_Exact (Zpos mz) 1
              (represents_exact (Zpos mz) ltac:(lia))) as (m' & e' & -> & Hm' & He' & Herr).
  destruct (Zdigits2_bounds (Zpos mz) ltac:(lia)) as (Hd0 & Hdlo & Hdhi).
  set (dz := Zdigits2 (Zpos mz)) in *.
  pose proof (bpow_pos ez) as Hbz.
  assert (Hd : 1 <= dz + ez).
  { assert (H : (bpow 0 < bpow (dz + ez))%Q).
    { rewrite bpow_add, <- (bpow_inject dz) by lia. change (bpow 0) with 1%Q.
      apply Qle_lt_trans with (inject_Z (Zpos mz) * bpow ez)%Q; [assumption|].
      apply Qmult_lt_compat_r; [assumption|]. now rewrite <- Zlt_Qlt. }
    apply bpow_lt_inv in H. lia. }
  assert (Hf : fexp prec emax (dz + ez) = dz + ez - prec).
  { apply Z.le_antisymm; [|apply fexp_ge].
    apply fexp_le; [lia|unfold emin; lia]. }
  rewrite Hf in He', Herr. rewrite !Z.mul_1_r in Herr.
  assert (Hgoal : 0 < m' /\ (1 <= inject_Z m' * bpow e')%Q).
  { destruct (Z.le_gt_cases (dz + ez - prec) ez) as [Hg|Hg].
    - (* the mantissa fits: the result is exact *)
      rewrite Z.max_l in He', Herr by assumption.
      rewrite Z.sub_diag in Herr. change (2 ^ 0) with 1 in Herr.
      assert (Hx : m' * 2 ^ (e' - ez) = Zpos mz) by lia.
      assert (Hm0 : 0 < m').
      { destruct (Z.eq_dec m' 0) as [->|]; [cbn in Hx; lia|lia]. }
      split; [assumption|].
      apply Qle_trans with (inject_Z (Zpos mz) * bpow ez)%Q; [assumption|].
      rewrite <- Hx, inject_Z_mult.
      assert (H0 : 0 <= e' - ez) by lia.
      rewrite bpow_inject, <- Qmult_assoc, <- bpow_add by assumption.
      replace (e' - ez + ez) with e' by lia. apply Qle_refl.
    - rewrite Z.max_r in He', Herr by lia.
      set (g := dz + ez - prec - ez) in *.
      assert (Hg0 : 0 < g) by (unfold g; lia).
      pose proof (pow2_pos g ltac:(lia)) as Hpg.
      pose proof (pow2_pos (prec - 1) ltac:(lia)) as Hpp.
      assert (Hsplit : 2 ^ (dz - 1) = 2 ^ (prec - 1) * 2 ^ g).
      { rewrite <- Z.pow_add_r by lia. f_equal. unfold g. lia. }
      assert (Hm1 : 2 ^ (prec - 1) <= m').
      { destruct He' as [He'|[He' Hm1]]; [|lia].
        rewrite He' in Herr. fold g in Herr. nia. }
      split; [lia|].
      apply Qle_trans with (bpow (prec - 1) * bpow e')%Q.
      + rewrite <- bpow_add. change 1%Q with (bpow 0). apply bpow_le. lia.
      + apply Qmult_le_compat_r; [|apply Qlt_le_weak, bpow_pos].
        rewrite <- bpow_inject by lia. now rewrite <- Zle_Qle. }
  destruct Hgoal as [Hm0 Hq].
  unfold result_of. destruct m' as [|q|q]; try lia.
  destruct (e' <=? emax - prec); [exact Hq|exact I].
Qed.

Lemma add_plus (prec emax : Z) (x y : spec_float) :
  0 < prec -> plus_float x -> plus_float y -> plus_float (SFadd prec emax x y).
Proof.
  intros Hp Hx Hy.
  destruct x as [sx|sx| |sx mx ex]; cbn in Hx; try contradiction; try subst sx;
  destruct y as [sy|sy| |sy my ey]; cbn in Hy; try contradiction; try subst sy;
    cbn [SFadd plus_float]; trivial.
  apply normalize_plus; [assumption|]. cbn [cond_Zopp]. lia.
Qed.

(** Adding a negative float of magnitude at most 1 to a float of at least 1
    gives no sign bit. *)
Lemma add_small_negative (prec emax : Z) (x : spec_float) (my : positive) (ey : Z) :
  0 < prec -> at_least_one x -> (inject_Z (Zpos my) * bpow ey <= 1)%Q ->
  plus_float (SFadd prec emax x (S754_finite true my ey)).
Proof.
  intros Hp Hx Hy.
  destruct x as [[|]|[|]| |[|] mx ex]; cbn in Hx; try tauto; cbn [SFadd]; [reflexivity|].
  apply normalize_plus; [assumption|]. cbn [cond_Zopp].
  set (ez := IntDef.Z.min ex ey).
  assert (Hzx : ez <= ex) by (unfold ez; lia).
  assert (Hzy : ez <= ey) by (unfold ez; lia).
  pose proof (aligned_value mx ex ez Hzx) as Hax.
  pose proof (aligned_value my ey ez Hzy) as Hay.
  pose proof (bpow_pos ez) as Hb.
  assert (Hle : (inject_Z (Zpos (fst (shl_align my ey ez)))
                 <= inject_Z (Zpos (fst (shl_align mx ex ez))))%Q).
  { apply (Qmult_le_r _ _ (bpow ez)); [assumption|]. rewrite Hax, Hay. lra. }
  rewrite <- Zle_Qle in Hle. lia.
Qed.

(** Dividing by a positive finite float. *)
Lemma div_plus (prec emax : Z) (x : spec_float) (my : positive) (ey : Z) :
  0 < prec -> plus_float x ->
  plus_float (SFdiv prec emax x (S754_finite false my ey)).
Proof.
  intros Hp Hx.
  destruct x as [sx|sx| |sx mx ex]; cbn in Hx; try contradiction; subst sx;
    cbn [SFdiv xorb plus_float]; trivial.
  pose proof (div_core_spec prec emax mx my ex ey) as Hc.
  destruct (SFdiv_core_binary prec emax (Zpos mx) ex (Zpos my) ey) as [[q e'] l].
  destruct Hc as (_ & _ & Hrep).
  destruct (binary_round_aux_spec prec emax Hp false q e' l _ _ Hrep)
    as (m' & e'' & -> & Hm' & _).
  apply result_of_plus. lia.
Qed.

Lemma of_Z_plus (n : Z) : 0 <= n -> plus_float (F32.of_Z n).
Proof. intros. apply normalize_plus; [reflexivity|assumption]. Qed.

Lemma of_Z_at_least_one (n : Z) : 1 <= n -> at_least_one (F32.of_Z n).
Proof.
  intros Hn. destruct n as [|p|p]; try lia.
  apply normalize_at_least_one; try reflexivity.
  change (bpow 0) with 1%Q. rewrite Qmult_1_r.
  change 1%Q with (inject_Z 1). now rewrite <- Zle_Qle.
Qed.

Lemma of_F32_plus (x : spec_float) : plus_float x -> plus_float (F64.of_F32 x).
Proof.
  destruct x as [s|s| |s m e]; cbn [plus_float F64.of_F32]; trivial.
  intros ->. apply normalize_plus; [reflexivity|]. cbn. lia.
Qed.

Lemma of_F32_at_least_one (x : spec_float) :
  at_least_one x -> at_least_one (F64.of_F32 x).
Proof.
  destruct x as [[|]|[|]| |[|] m e]; cbn [at_least_one F64.of_F32]; try tauto.
  intros H. apply normalize_at_least_one; try reflexivity. exact H.
Qed.

Lemma to_F32_plus (x : spec_float) : plus_float x -> plus_float (F64.to_F32 x).
Proof.
  destruct x as [s|s| |s m e]; cbn [plus_float F64.to_F32]; trivial.
  intros ->. apply normalize_plus; [reflexivity|]. cbn. lia.
Qed.

Lemma millis_table : all_below 1000 millis_entry_ok = true.
Proof. vm_compute. reflexivity. Qed.

Lemma thousand : exists m e, F64.of_Z 1000 = S754_finite false m e.
Proof. vm_compute. eauto. Qed.

(** The elapsed time between two readings of a clock that does not go
    backwards. *)
Lemma timespan_sign (time1 time0 : timespec) :
  not_before time0 time1 -> plus_float (get_timespan time1 time0).
Proof.
  intros (H0 & H1 & Hord). unfold get_timespan.
  change (F64.div (F64.of_F32 (F32.of_Z (Z.quot (tv_nsec time1 - tv_nsec time0) 1000000)))
            (F64.of_Z 1000))
    with (millis (Z.quot (tv_nsec time1 - tv_nsec time0) 1000000)).
  set (dsec := tv_sec time1 - tv_sec time0).
  set (dns := tv_nsec time1 - tv_nsec time0).
  assert (Hms : - 999 <= Z.quot dns 1000000 <= 999
                /\ (0 <= dns -> 0 <= Z.quot dns 1000000)
                /\ (Z.quot dns 1000000 < 0 -> dns < 0)).
  { assert (- 1000000000 < dns < 1000000000) by (unfold dns; lia).
    Z.quot_rem_to_equations. lia. }
  destruct Hms as (Hr & Hpos & Hneg).
  apply to_F32_plus. unfold F64.add.
  destruct (Z.le_gt_cases 0 (Z.quot dns 1000000)) as [Hq|Hq].
  - apply add_plus; [reflexivity| |].
    + apply of_F32_plus, of_Z_plus. unfold dsec. lia.
    + unfold millis. destruct thousand as (m & e & ->).
      apply div_plus; [reflexivity|]. now apply of_F32_plus, of_Z_plus.
  - pose proof (all_below_spec 1000 _ millis_table (- Z.quot dns 1000000) ltac:(lia))
      as Ht.
    unfold millis_entry_ok in Ht. rewrite Z.opp_involutive in Ht.
    destruct (millis (Z.quot dns 1000000)) as [[|]|[|]| |[|] m e]; try discriminate.
    + apply Z.eqb_eq in Ht. lia.
    + apply andb_prop in Ht. destruct Ht as [_ Ht]. apply Qle_bool_iff in Ht.
      apply add_small_negative; [reflexivity| |exact Ht].
      apply of_F32_at_least_one, of_Z_at_least_one.
      specialize (Hneg ltac:(lia)). unfold dsec, dns in *. lia.
Qed.

(** X10: between two readings of a clock that does not go backwards,
    [get_timespan] is never negative: it is +0, a positive float or plus
    infinity, never -0 and never NaN, also when the nanoseconds of the later
    reading are the smaller ones. *)
Theorem get_timespan_nonneg (time1 time0 : timespec) :
  0 <= tv_nsec time0 < 1000000000 -> 0 <= tv_nsec time1 < 1000000000 ->
  tv_sec time0 < tv_sec time1
  \/ (tv_sec time0 = tv_sec time1 /\ tv_nsec time0 <= tv_nsec time1) ->
  match get_timespan time1 time0 with
  | S754_zero s | S754_infinity s | S754_finite s _ _ => s = false
  | S754_nan => False
  end.
Proof.
  intros H0 H1 Hord.
  exact (timespan_sign time1 time0 (conj H0 (conj H1 Hord))).
Qed.

Lemma get_timespan_nonneg_witness :
  match get_timespan {| tv_sec := 8; tv_nsec := 1000000 |}
                     {| tv_sec := 7; tv_nsec := 999000000 |} with
  | S754_zero s | S754_infinity s | S754_finite s _ _ => s = false
  | S754_nan => False
  end.
Proof.
  apply (get_timespan_nonneg {| tv_sec := 8; tv_nsec := 1000000 |}
                             {| tv_sec := 7; tv_nsec := 999000000 |}); cbn; lia.
Defined.

Lemma tame_finite (x : spec_float) : tame 24 x -> is_finite x = true /\ nonneg_float x.
Proof. destruct x as [[|]|[|]| |[|] m e]; cbn; tauto. Qed.

Lemma progress_in_range (p : params.params) (t0 now : timespec) :
  nonneg_float (params.duration p) -> not_before t0 now ->
  tame 24 (frame_progress (get_timespan now t0) (params.duration p))
  /\ (SF2Q (frame_progress (get_timespan now t0) (params.duration p)) <= 1)%Q.
Proof.
  intros Hd Hn. apply frame_progress_tame; [|assumption].
  now apply plus_nonneg, timespan_sign.
Qed.

(** X11: for a non-negative duration and a clock that does not go
    backwards, the progress of a frame after the clamp is a finite float
    between 0 and 1. *)
Theorem progress_in_unit_interval (duration : spec_float) (t0 now : timespec) :
  nonneg_float duration -> not_before t0 now ->
  let progress := frame_progress (get_timespan now t0) duration in
  is_finite progress = true /\ nonneg_float progress
  /\ (0 <= SF2Q progress <= 1)%Q.
Proof.
  intros Hd Hn progress.
  destruct (frame_progress_tame (get_timespan now t0) duration
              (plus_nonneg _ (timespan_sign _ _ Hn)) Hd) as [Ht Hv].
  fold progress in Ht, Hv.
  destruct (tame_finite _ Ht) as [Hf Hs].
  split; [exact Hf|]. split; [exact Hs|]. split; [|exact Hv].
  now apply (SF2Q_nonneg 24).
Qed.

Lemma progress_in_unit_interval_witness :
  let progress :=
    frame_progress (get_timespan {| tv_sec := 8; tv_nsec := 1000000 |}
                                 {| tv_sec := 7; tv_nsec := 999000000 |})
                   (S754_finite false 8388608 (-22)) in
  is_finite progress = true /\ nonneg_float progress
  /\ (0 <= SF2Q progress <= 1)%Q.
Proof.
  apply (progress_in_unit_interval (S754_finite false 8388608 (-22))
           {| tv_sec := 7; tv_nsec := 999000000 |} {| tv_sec := 8; tv_nsec := 1000000 |}).
  - reflexivity.
  - unfold not_before. cbn. lia.
Defined.

(** With the duration +0 that [parse_cmdline] sets, the progress is 1
    whatever the elapsed time is. *)
Lemma progress_zero_duration (elapsed : spec_float) :
  nonneg_float elapsed -> frame_progress elapsed (S754_zero false) = F32.of_Z 1.
Proof.
  destruct elapsed as [s|s| |s m e]; cbn [nonneg_float]; intros H; try subst s;
    reflexivity.
Qed.

(** X12: the test [progress >= 1] that ends the loop holds exactly when
    the progress is the float 1, for any elapsed time and duration, NaN and
    infinities included. *)
Theorem fade_ends_at_one (elapsed duration : spec_float) :
  F32.leb (F32.of_Z 1) (frame_progress elapsed duration) = true
  <-> frame_progress elapsed duration = F32.of_Z 1.
Proof.
  unfold frame_progress, clamp_progress.
  set (progress := raw_progress elapsed duration).
  destruct (F32.ltb progress (F32.of_Z 1)) eqn:E; cbn [negb].
  - unfold F32.ltb, F32.leb, SFltb, SFleb in *.
    rewrite (SFcompare_antisym progress (F32.of_Z 1)).
    split.
    + destruct (SFcompare progress (F32.of_Z 1)) as [[| |]|]; discriminate.
    + intros H. rewrite H in E. discriminate E.
  - split; reflexivity.
Qed.

(** A quotient of at least 1 is not rounded below 1. *)
Lemma div_at_least_one (prec emax : Z) (mx my : positive) (ex ey : Z) :
  0 < prec -> prec < emax -> 2 < emax ->
  (inject_Z (Zpos my) * bpow ey <= inject_Z (Zpos mx) * bpow ex)%Q ->
  exists m' e',
    SFdiv prec emax (S754_finite false mx ex) (S754_finite false my ey)
    = result_of prec emax false m' e'
    /\ 0 < m' < 2 ^ prec
    /\ (1 <= inject_Z m' * bpow e')%Q.
Proof.
  intros Hp Hpe He2 Hxy. cbn [SFdiv xorb].
  pose proof (div_core_spec prec emax mx my ex ey) as Hc.
  destruct (SFdiv_core_binary prec emax (Zpos mx) ex (Zpos my) ey) as [[q0 e'] l].
  destruct Hc as (Hs & He' & Hrep).
  destruct (binary_round_aux_spec prec emax Hp false q0 e' l _ _ Hrep)
    as (m' & e'' & Hres & Hm' & He'' & Herr).
  exists m', e''. split; [exact Hres|].
  destruct (Zdigits2_bounds (Zpos mx) ltac:(lia)) as (Hdx & Hxlo & _).
  destruct (Zdigits2_bounds (Zpos my) ltac:(lia)) as (Hdy & _ & Hyhi).
  set (dx := Zdigits2 (Zpos mx)) in *. set (dy := Zdigits2 (Zpos my)) in *.
  set (s := ex - ey - e') in *.
  set (N := Zpos mx * 2 ^ s) in *. set (D := Zpos my) in *.
  assert (HD : 0 < D) by (unfold D; lia).
  pose proof (pow2_pos s Hs) as Hps.
  assert (HN : 0 < N) by (unfold N; nia).
  assert (Hq0 : q0 = N / D).
  { destruct Hrep as (_ & _ & Hm & _).
    now rewrite (proj2 (location_roundtrip q0 l)) in Hm. }
  (* the exact quotient, at exponent e', is at least 1 *)
  assert (HND : (inject_Z D <= inject_Z N * bpow e')%Q).
  { unfold N. rewrite inject_Z_mult, bpow_inject by assumption.
    rewrite <- Qmult_assoc, <- bpow_add.
    replace (s + e') with (ex - ey) by (unfold s; lia).
    apply (Qmult_le_r _ _ (bpow ey)); [apply bpow_pos|].
    rewrite <- !Qmult_assoc, <- bpow_add.
    replace (ex - ey + ey) with ex by lia. exact Hxy. }
  (* the integer quotient is positive *)
  assert (Hq1 : 1 <= q0 /\ (0 < e' -> 2 ^ (prec - 1) <= q0)
                /\ (e' <= 0 -> 2 ^ (- e') * D <= N)).
  { destruct (Z.le_gt_cases e' 0) as [Hle|Hgt].
    - assert (HNb : 2 ^ (- e') * D <= N).
      { pose proof (bpow_pos (- e')) as Hb.
        assert (H : (inject_Z (2 ^ (- e') * D) <= inject_Z N)%Q).
        { rewrite inject_Z_mult, bpow_inject by lia.
          apply (Qmult_le_r _ _ (bpow e')); [apply bpow_pos|].
          rewrite (Qmult_comm (bpow (- e'))), <- Qmult_assoc, <- bpow_add.
          replace (- e' + e') with 0 by lia. change (bpow 0) with 1%Q.
          now rewrite Qmult_1_r. }
        now rewrite <- Zle_Qle in H. }
      pose proof (pow2_pos (- e') ltac:(lia)) as Hpe'.
      split; [|split; [lia|intros _; exact HNb]].
      rewrite Hq0. apply Z.div_le_lower_bound; [lia|]. nia.
    - assert (Hf : e' <= dx + ex - (dy + ey) - prec).
      { pose proof (fexp_le prec emax (dx + ex - (dy + ey))
                      (Z.max (dx + ex - (dy + ey) - prec) (emin prec emax))
                      (Z.le_max_l _ _) (Z.le_max_r _ _)) as Hfe.
        assert (Hem : emin prec emax < 0) by (unfold emin; lia).
        clearbody dx dy. lia. }
      assert (Hb : 2 ^ (prec - 1) * D <= N).
      { unfold N.
        assert (Hsp : prec - 1 + dy <= dx - 1 + s) by (unfold s; lia).
        pose proof (pow2_pos (prec - 1) ltac:(lia)) as Hpp.
        pose proof (pow2_pos (dx - 1) ltac:(lia)) as Hpx.
        apply Z.le_trans with (2 ^ (prec - 1) * 2 ^ dy); [nia|].
        apply Z.le_trans with (2 ^ (dx - 1) * 2 ^ s); [|nia].
        rewrite <- !Z.pow_add_r by lia. apply Z.pow_le_mono_r; lia. }
      pose proof (pow2_pos (prec - 1) ltac:(lia)) as Hpp.
      assert (Hq : 2 ^ (prec - 1) <= q0)
        by (rewrite Hq0; apply Z.div_le_lower_bound; [lia|nia]).
      split; [lia|]. split; [intros _; exact Hq|lia]. }
  destruct Hq1 as (Hq1 & Hqbig & HNsmall).
  destruct (Zdigits2_bounds q0 ltac:(lia)) as (Hdq & Hqlo & Hqhi).
  set (dq := Zdigits2 q0) in *.
  assert (HqD : q0 * D <= N)
    by (rewrite Hq0, Z.mul_comm; apply Z.mul_div_le; lia).
  assert (Hd : 1 <= dq + e').
  { destruct (Z.le_gt_cases e' 0) as [Hle|Hgt].
    - specialize (HNsmall Hle).
      pose proof (pow2_pos (- e') ltac:(lia)) as Hpe'.
      assert (Hq : 2 ^ (- e') <= q0)
        by (rewrite Hq0; apply Z.div_le_lower_bound; [lia|nia]).
      assert (Hlt : 2 ^ (- e') < 2 ^ dq) by lia.
      apply Z.pow_lt_mono_r_iff in Hlt; lia.
    - lia. }
  assert (Hf : fexp prec emax (dq + e') = dq + e' - prec).
  { apply Z.le_antisymm; [|apply fexp_ge].
    apply fexp_le; [lia|unfold emin; lia]. }
  rewrite Hf in He'', Herr.
  pose proof (pow2_pos (prec - 1) ltac:(lia)) as Hpp.
  assert (Hgoal : 2 ^ (prec - 1) <= m' /\ 0 <= prec - 1 + e''
                  \/ (e'' <= 0 /\ 2 ^ (- e'') <= m')
                  \/ (0 < e'' /\ 1 <= m')).
  { destruct (Z.le_gt_cases (dq + e' - prec) e') as [Hg|Hg].
    - (* no shift *)
      rewrite Z.max_l in He'', Herr by assumption.
      rewrite Z.sub_diag in Herr. change (2 ^ 0) with 1 in Herr.
      destruct He'' as [He''|[He'' Hm1]].
      + subst e''. rewrite Z.sub_diag in Herr. change (2 ^ 0) with 1 in Herr.
        destruct (Z.le_gt_cases e' 0) as [Hle|Hgt].
        * right. left. split; [assumption|].
          specialize (HNsmall Hle).
          pose proof (pow2_pos (- e') ltac:(lia)) as Hpe'. nia.
        * right. right. split; [assumption|]. nia.
      + left. split; [lia|]. lia.
    - rewrite Z.max_r in He'', Herr by lia.
      set (g := dq + e' - prec - e') in *.
      assert (Hg0 : 0 < g) by (unfold g; lia).
      pose proof (pow2_pos g ltac:(lia)) as Hpg.
      assert (Hsplit : 2 ^ (dq - 1) = 2 ^ (prec - 1) * 2 ^ g).
      { rewrite <- Z.pow_add_r by lia. f_equal. unfold g. lia. }
      left. split; [|lia].
      destruct He'' as [He''|[He'' Hm1]]; [|lia].
      rewrite He'' in Herr. fold g in Herr.
      assert (H1 : 2 ^ (prec - 1) * 2 ^ g * D <= N) by nia.
      assert (H2 : (2 * 2 ^ (prec - 1) - 1) * (2 ^ g * D) <= 2 * m' * (2 ^ g * D)) by nia.
      assert (H3 : 0 < 2 ^ g * D) by nia.
      assert (H4 : 2 * 2 ^ (prec - 1) - 1 <= 2 * m')
        by (apply (Z.mul_le_mono_pos_r _ _ (2 ^ g * D)); assumption).
      lia. }
  split.
  - destruct Hgoal as [[H _]|[[H0 H]|[_ H]]]; lia.
  - destruct Hgoal as [[H H0]|[[H0 H]|[H0 H]]].
    + apply Qle_trans with (bpow (prec - 1) * bpow e'')%Q.
      * rewrite <- bpow_add. change 1%Q with (bpow 0). now apply bpow_le.
      * apply Qmult_le_compat_r; [|apply Qlt_le_weak, bpow_pos].
        rewrite <- bpow_inject by lia. now rewrite <- Zle_Qle.
    + apply Qle_trans with (bpow (- e'') * bpow e'')%Q.
      * rewrite <- bpow_add. replace (- e'' + e'') with 0 by lia. apply Qle_refl.
      * apply Qmult_le_compat_r; [|apply Qlt_le_weak, bpow_pos].
        rewrite <- bpow_inject by lia. now rewrite <- Zle_Qle.
    + apply Qle_trans with (1 * bpow e'')%Q.
      * rewrite Qmult_1_l. change 1%Q with (bpow 0). apply bpow_le. lia.
      * apply Qmult_le_compat_r; [|apply Qlt_le_weak, bpow_pos].
        change 1%Q with (inject_Z 1). now rewrite <- Zle_Qle.
Qed.

Lemma not_below_one (m : positive) (e : Z) :
  Zpos m < 2 ^ 24 -> (1 <= inject_Z (Zpos m) * bpow e)%Q ->
  F32.ltb (S754_finite false m e) (F32.of_Z 1) = false.
Proof.
  intros Hm Hv.
  change (F32.of_Z 1) with (S754_finite false 8388608 (-23)).
  unfold F32.ltb, SFltb. cbn [SFcompare].
  pose proof (bpow_pos e) as Hb.
  destruct (Z.compare_spec e (-23)) as [He|He|He]; [| |reflexivity].
  - subst e. rewrite Pos.compare_cont_spec. cbn [Pos.switch_Eq].
    destruct (Pos.compare_spec m 8388608) as [Hc|Hc|Hc]; try reflexivity.
    exfalso. apply Pos2Z.pos_lt_pos in Hc.
    change (bpow (-23)) with (1 # 8388608)%Q in Hv.
    rewrite Zlt_Qlt in Hc. change (inject_Z 8388608) with 8388608%Q in Hc. lra.
  - exfalso.
    pose proof (bpow_le e (-24) ltac:(lia)) as Hle.
    change (bpow (-24)) with (1 # 16777216)%Q in Hle.
    assert (Hmq : (inject_Z (Zpos m) < 16777216)%Q).
    { change 16777216%Q with (inject_Z 16777216). rewrite <- Zlt_Qlt.
      change (2 ^ 24) with 16777216 in Hm. exact Hm. }
    assert (H : (inject_Z (Zpos m) * bpow e < 16777216 * bpow e)%Q)
      by (apply Qmult_lt_compat_r; assumption).
    lra.
Qed.

(** X27: once the elapsed time has reached the duration, the progress is
    1. *)
Theorem progress_complete (elapsed duration : spec_float) :
  is_finite elapsed = true -> plus_float elapsed ->
  is_finite duration = true -> plus_float duration ->
  (SF2Q duration <= SF2Q elapsed)%Q ->
  frame_progress elapsed duration = F32.of_Z 1.
Proof.
  intros Hfe Hpe Hfd Hpd Hle.
  destruct duration as [sd|sd| |sd md ed]; try discriminate; cbn in Hpd; subst sd.
  - apply progress_zero_duration. now apply plus_nonneg.
  - destruct elapsed as [se|se| |se me ee]; try discriminate; cbn in Hpe; subst se.
    + exfalso. cbn [SF2Q cond_Zopp] in Hle. pose proof (bpow_pos ed) as Hb.
      assert (H : (0 < inject_Z (Zpos md) * bpow ed)%Q)
        by (apply Qmult_lt_0_compat; [reflexivity|assumption]).
      lra.
    + cbn [SF2Q cond_Zopp] in Hle.
      destruct (div_at_least_one 24 128 me md ee ed ltac:(lia) ltac:(lia) ltac:(lia) Hle)
        as (m' & e' & Hr & Hm' & Hv).
      change (frame_progress (S754_finite false me ee) (S754_finite false md ed))
        with (clamp_progress
                (SFdiv 24 128 (S754_finite false me ee) (S754_finite false md ed))).
      rewrite Hr.
      unfold result_of. destruct m' as [|p|p]; try lia.
      destruct (e' <=? 128 - 24); [|reflexivity].
      unfold clamp_progress. now rewrite (not_below_one p e' (proj2 Hm') Hv).
Qed.

Lemma progress_complete_witness :
  frame_progress (S754_finite false 5 (-1)) (S754_finite false 8388608 (-22))
  = F32.of_Z 1.
Proof.
  apply (progress_complete (S754_finite false 5 (-1)) (S754_finite false 8388608 (-22)));
    try reflexivity.
  vm_compute. discriminate.
Defined.

(** ** The animation loop *)

Lemma animate_safe (p : params.params) (start0 end0 start1 end1 : list Z)
    (t0 : timespec) :
  nonneg_float (params.duration p) ->
  forall events,
    (forall ev now, In ev events -> clock ev = Some now -> not_before t0 now) ->
    forall ret fs shown err,
      Forall (frame_between start0 end0 start1 end1) shown ->
      let r := animate p start0 end0 start1 end1 t0 ret fs shown err events in
      exit r <> Undefined
      /\ Forall (frame_between start0 end0 start1 end1) (rendered r).
Proof.
  intros Hd events.
  induction events as [|ev events IH]; intros Hclock ret fs shown err Hshown;
    cbn [animate].
  - cbv zeta beta; cbn [exit rendered]. split; [discriminate|now apply Forall_rev].
  - destruct (running ev); cbn [negb].
    2:{ cbv zeta beta; cbn [exit rendered]. split; [discriminate|now apply Forall_rev]. }
    destruct (clock ev) as [now|] eqn:Hnow.
    2:{ cbv zeta beta; cbn [exit rendered]. split; [discriminate|now apply Forall_rev]. }
    pose proof (Hclock ev now (or_introl eq_refl) Hnow) as Hnb.
    destruct (progress_in_range p t0 now Hd Hnb) as [Ht Hv].
    destruct (blend_leds_range start0 end0 _ Ht Hv) as (leds0 & -> & Hb0).
    destruct (blend_leds_range start1 end1 _ Ht Hv) as (leds1 & -> & Hb1).
    assert (Hshown' : Forall (frame_between start0 end0 start1 end1)
                        ((leds0, leds1) :: shown))
      by (constructor; [split; assumption|assumption]).
    destruct (render ev =? WS2811_SUCCESS); cbn [negb].
    2:{ cbv zeta beta; cbn [exit rendered]. split; [discriminate|now apply Forall_rev]. }
    destruct (store_leds fs _ leds0 count0 _) as [fs0 err0].
    destruct (store_leds fs0 _ leds1 count1 _) as [fs1 err1].
    destruct (F32.leb (F32.of_Z 1) _).
    + cbv zeta beta; cbn [exit rendered]. split; [discriminate|now apply Forall_rev].
    + apply IH; try assumption.
      intros ev' now' Hin. apply Hclock. now right.
Qed.

(** X13: for a non-negative duration and a clock that does not go
    backwards, the loop converts no float out of range, and in every frame
    it renders every LED lies, channel by channel, between its start and its
    end colour, or one below the smaller. *)
Theorem animate_between (p : params.params) (start0 end0 start1 end1 : list Z)
    (t0 : timespec) (ret : Z) (fs : filesystem) (err : list string)
    (events : list frame_event) :
  nonneg_float (params.duration p) ->
  (forall ev now, In ev events -> clock ev = Some now -> not_before t0 now) ->
  let r := animate p start0 end0 start1 end1 t0 ret fs [] err events in
  exit r <> Undefined
  /\ Forall (frame_between start0 end0 start1 end1) (rendered r).
Proof.
  intros Hd Hclock. apply animate_safe; try assumption. constructor.
Qed.

Lemma animate_between_witness :
  let p := {| params.prog_name := "lightctl"; params.color := 0xFF804020;
              params.color_specified := true;
              params.duration := S754_finite false 8388608 (-22);
              params.limit_brightness := false |} in
  let r := animate p [0; 0x10203040] [0xFF804020; 0xFF804020] [0xFFFFFFFF] [0xFF804020]
             {| tv_sec := 1; tv_nsec := 0 |} WS2811_SUCCESS no_files [] []
             [frame_at 80; frame_at 700; cancelled] in
  exit r <> Undefined
  /\ Forall (frame_between [0; 0x10203040] [0xFF804020; 0xFF804020] [0xFFFFFFFF]
               [0xFF804020]) (rendered r).
Proof.
  intros p.
  apply (animate_between p [0; 0x10203040] [0xFF804020; 0xFF804020] [0xFFFFFFFF]
           [0xFF804020] {| tv_sec := 1; tv_nsec := 0 |} WS2811_SUCCESS no_files []
           [frame_at 80; frame_at 700; cancelled]).
  - reflexivity.
  - intros ev now [<-|[<-|[<-|[]]]] H; try discriminate H;
      injection H as <-; unfold not_before; cbn; lia.
Defined.

Lemma animate_usage (p : params.params) (start0 end0 start1 end1 : list Z)
    (t0 : timespec) (events : list frame_event) :
  forall ret fs shown err,
    usage (animate p start0 end0 start1 end1 t0 ret fs shown err events) = false.
Proof.
  induction events as [|ev events IH]; intros ret fs shown err; cbn [animate];
    [reflexivity|].
  destruct (running ev); [|reflexivity]. cbn [negb].
  destruct (clock ev) as [now|]; [|reflexivity].
  destruct (blend_leds start0 end0 _) as [leds0|]; [|reflexivity].
  destruct (blend_leds start1 end1 _) as [leds1|]; [|reflexivity].
  destruct (negb (render ev =? WS2811_SUCCESS)); [reflexivity|].
  destruct (store_leds fs _ leds0 count0 _) as [fs0 err0].
  destruct (store_leds fs0 _ leds1 count1 _) as [fs1 err1].
  destruct (F32.leb (F32.of_Z 1) _); [reflexivity|]. apply IH.
Qed.

Lemma animate_completes (p : params.params) (start0 end0 start1 end1 : list Z)
    (t0 : timespec) (ev : frame_event) (now : timespec) (rest : list frame_event) :
  nonneg_float (params.duration p) ->
  length start0 = length end0 -> length start1 = length end1 ->
  Forall is_uint32 end0 -> Forall is_uint32 end1 ->
  running ev = true -> clock ev = Some now -> render ev = WS2811_SUCCESS ->
  frame_progress (get_timespan now t0) (params.duration p) = F32.of_Z 1 ->
  forall pre, Forall (frame_continues p t0) pre ->
  forall ret fs shown err,
    let r := animate p start0 end0 start1 end1 t0 ret fs shown err (pre ++ ev :: rest) in
    exit r = Exit WS2811_SUCCESS
    /\ (exists mid, rendered r = rev shown ++ mid ++ [(end0, end1)]
                    /\ length mid = length pre)
    /\ (frame_stored ev -> stderr r = err)
    /\ (stored count0 (store0 ev) ->
        saved r "/tmp/leds0"%string = Some (fwrite32 end0 count0))
    /\ (stored count1 (store1 ev) ->
        saved r "/tmp/leds1"%string = Some (fwrite32 end1 count1))
    /\ (forall name, name <> "/tmp/leds0"%string -> name <> "/tmp/leds1"%string ->
                     saved r name = fs name).
Proof.
  intros Hd Hl0 Hl1 Hu0 Hu1 Hrun Hclk Hren Hone pre.
  induction pre as [|e pre IH]; intros Hpre ret fs shown err.
  - cbn [app animate]. rewrite Hrun, Hclk, Hone. cbn [negb].
    rewrite !blend_leds_one by assumption. rewrite Hren.
    change (negb (WS2811_SUCCESS =? WS2811_SUCCESS)) with false. cbv iota.
    destruct (store_leds fs "/tmp/leds0" end0 count0 (store0 ev)) as [fs0 e0] eqn:E0.
    destruct (store_leds fs0 "/tmp/leds1" end1 count1 (store1 ev)) as [fs1 e1] eqn:E1.
    destruct (store_leds_spec _ _ _ _ _ _ _ E0) as [O0 S0].
    destruct (store_leds_spec _ _ _ _ _ _ _ E1) as [O1 S1].
    change (F32.leb (F32.of_Z 1) (F32.of_Z 1)) with true.
    cbv zeta beta iota. cbn [exit rendered stderr saved].
    split; [reflexivity|]. split; [exists []; split; reflexivity|].
    split.
    { intros [H0 H1]. destruct (S0 H0) as [_ ->]. destruct (S1 H1) as [_ ->].
      now rewrite !app_nil_r. }
    split. { intros H0. rewrite O1 by discriminate. now apply S0. }
    split. { intros H1. now apply S1. }
    intros name N0 N1. now rewrite O1, O0 by assumption.
  - inversion Hpre as [|? ? (Hr & Hs & [St0 St1] & now' & Hc & Hnb & Hlt) Hpre']; subst.
    cbn [app animate]. rewrite Hr, Hc. cbn [negb].
    destruct (progress_in_range p t0 now' Hd Hnb) as [Ht Hv].
    destruct (blend_leds_range start0 end0 _ Ht Hv) as (leds0 & -> & Hb0).
    destruct (blend_leds_range start1 end1 _ Ht Hv) as (leds1 & -> & Hb1).
    rewrite Hs. change (negb (WS2811_SUCCESS =? WS2811_SUCCESS)) with false. cbv iota.
    destruct (store_leds fs "/tmp/leds0" leds0 count0 (store0 e)) as [fs0 e0] eqn:E0.
    destruct (store_leds fs0 "/tmp/leds1" leds1 count1 (store1 e)) as [fs1 e1] eqn:E1.
    destruct (store_leds_spec _ _ _ _ _ _ _ E0) as [O0 S0].
    destruct (store_leds_spec _ _ _ _ _ _ _ E1) as [O1 S1].
    destruct (S0 St0) as [_ ->]. destruct (S1 St1) as [_ ->].
    rewrite Hlt. cbv zeta beta iota. rewrite !app_nil_r.
    destruct (IH Hpre' WS2811_SUCCESS fs1 ((leds0, leds1) :: shown) err)
      as (Hx & (mid & Hm & Hml) & He & Hf0 & Hf1 & Hother).
    split; [exact Hx|]. split.
    { exists ((leds0, leds1) :: mid). split; [|cbn; now rewrite Hml].
      rewrite Hm. cbn [rev]. now rewrite <- app_assoc. }
    split; [exact He|]. split; [exact Hf0|]. split; [exact Hf1|].
    intros name H0 H1. now rewrite Hother, O1, O0 by assumption.
Qed.

Lemma uint32_repeat (c : Z) (n : nat) : is_uint32 c -> Forall is_uint32 (repeat c n).
Proof. intros H. induction n; cbn; constructor; assumption. Qed.



(** X15: when [ws2811_render] fails, the loop ends with the driver's
    code; the frame was given to the driver but is not stored: the state
    files stay as they were. *)
Theorem render_failure_keeps_files (p : params.params)
    (start0 end0 start1 end1 : list Z) (t0 : timespec) (ret : Z) (fs : filesystem)
    (shown : list (list Z * list Z)) (err : list string) (ev : frame_event)
    (now : timespec) (rest : list frame_event) :
  nonneg_float (params.duration p) ->
  running ev = true -> clock ev = Some now -> not_before t0 now ->
  render ev <> WS2811_SUCCESS ->
  let r := animate p start0 end0 start1 end1 t0 ret fs shown err (ev :: rest) in
  exit r = Exit (render ev)
  /\ saved r = fs
  /\ length (rendered r) = S (length shown).
Proof.
  intros Hd Hrun Hclk Hnb Hren. cbn [animate]. rewrite Hrun, Hclk. cbn [negb].
  destruct (progress_in_range p t0 now Hd Hnb) as [Ht Hv].
  destruct (blend_leds_range start0 end0 _ Ht Hv) as (leds0 & -> & _).
  destruct (blend_leds_range start1 end1 _ Ht Hv) as (leds1 & -> & _).
  apply Z.eqb_neq in Hren. rewrite Hren. cbn [negb].
  cbv zeta beta. cbn [exit saved rendered].
  repeat split. rewrite length_rev. reflexivity.
Qed.

Lemma render_failure_keeps_files_witness :
  let p := {| params.prog_name := "lightctl"; params.color := 0xFF804020;
              params.color_specified := true;
              params.duration := S754_finite false 8388608 (-22);
              params.limit_brightness := false |} in
  let ev := {| running := true;
               clock := Some {| tv_sec := 1; tv_nsec := 80000000 |};
               render := -5;
               store0 := Opened count0 true []; store1 := Opened count1 true [] |} in
  let r := animate p [0; 0] [0xFF804020; 0xFF804020] [0] [0xFF804020]
             {| tv_sec := 1; tv_nsec := 0 |} WS2811_SUCCESS no_files [] [] [ev] in
  exit r = Exit (-5)
  /\ saved r = no_files
  /\ length (rendered r) = 1%nat.
Proof.
  intros p ev.
  apply (render_failure_keeps_files p [0; 0] [0xFF804020; 0xFF804020] [0] [0xFF804020]
           {| tv_sec := 1; tv_nsec := 0 |} WS2811_SUCCESS no_files [] [] ev
           {| tv_sec := 1; tv_nsec := 80000000 |} []).
  - reflexivity.
  - reflexivity.
  - reflexivity.
  - unfold not_before. cbn. lia.
  - discriminate.
Defined.

Lemma animate_keeps_frames (p : params.params) (start0 end0 start1 end1 : list Z)
    (t0 : timespec) (events : list frame_event) :
  forall ret fs shown err,
    (length shown
     <= length (rendered (animate p start0 end0 start1 end1 t0 ret fs shown err events)))%nat.
Proof.
  induction events as [|e events IH]; intros ret fs shown err; cbn [animate];
    [cbv zeta beta; cbn [rendered]; rewrite length_rev; lia|].
  destruct (running e); cbn [negb];
    [|cbv zeta beta; cbn [rendered]; rewrite length_rev; lia].
  destruct (clock e); [|cbv zeta beta; cbn [rendered]; rewrite length_rev; lia].
  destruct (blend_leds start0 end0 _) as [leds0|];
    [|cbv zeta beta; cbn [rendered]; rewrite length_rev; lia].
  destruct (blend_leds start1 end1 _) as [leds1|];
    [|cbv zeta beta; cbn [rendered]; rewrite length_rev; lia].
  destruct (negb _);
    [cbv zeta beta; cbn [rendered]; rewrite length_rev; cbn [length]; lia|].
  destruct (store_leds fs _ leds0 count0 _) as [fs0 err0].
  destruct (store_leds fs0 _ leds1 count1 _) as [fs1 err1].
  destruct (F32.leb _ _);
    [cbv zeta beta; cbn [rendered]; rewrite length_rev; cbn [length]; lia|].
  eapply Nat.le_trans; [|apply IH]. cbn [length]. lia.
Qed.

Lemma animate_in_sync (p : params.params) (start0 end0 start1 end1 : list Z)
    (t0 : timespec) (events : list frame_event) :
  (forall ev, In ev events -> render ev = WS2811_SUCCESS /\ frame_stored ev) ->
  forall ret fs shown err,
    in_sync fs shown ->
    let r := animate p start0 end0 start1 end1 t0 ret fs shown err events in
    (shown = [] -> rendered r = [] -> saved r = fs)
    /\ in_sync (saved r) (rev (rendered r)).
Proof.
  induction events as [|ev events IH]; intros Hren ret fs shown err Hs; cbn [animate].
  - cbv zeta beta. cbn [rendered saved]. rewrite rev_involutive. now split.
  - destruct (running ev); cbn [negb].
    2:{ cbv zeta beta. cbn [rendered saved]. rewrite rev_involutive. now split. }
    destruct (clock ev) as [now|].
    2:{ cbv zeta beta. cbn [rendered saved]. rewrite rev_involutive. now split. }
    destruct (blend_leds start0 end0 _) as [leds0|].
    2:{ cbv zeta beta. cbn [rendered saved]. rewrite rev_involutive. now split. }
    destruct (blend_leds start1 end1 _) as [leds1|].
    2:{ cbv zeta beta. cbn [rendered saved]. rewrite rev_involutive. now split. }
    destruct (Hren ev (or_introl eq_refl)) as [Hr [St0 St1]].
    rewrite Hr. change (negb (WS2811_SUCCESS =? WS2811_SUCCESS)) with false. cbv iota.
    destruct (store_leds fs "/tmp/leds0" leds0 count0 (store0 ev)) as [fs0 e0] eqn:E0.
    destruct (store_leds fs0 "/tmp/leds1" leds1 count1 (store1 ev)) as [fs1 e1] eqn:E1.
    destruct (store_leds_spec _ _ _ _ _ _ _ E0) as [O0 S0].
    destruct (store_leds_spec _ _ _ _ _ _ _ E1) as [O1 S1].
    assert (Hs' : in_sync fs1 ((leds0, leds1) :: shown)).
    { split; [rewrite O1 by discriminate; now apply S0|now apply S1]. }
    destruct (F32.leb (F32.of_Z 1) _).
    + cbv zeta beta. cbn [rendered saved]. rewrite rev_involutive.
      split; [|exact Hs'].
      intros _ Hnil. apply (f_equal (@rev _)) in Hnil. rewrite rev_involutive in Hnil.
      discriminate Hnil.
    + cbv zeta beta.
      destruct (IH (fun e He => Hren e (or_intror He)) WS2811_SUCCESS fs1
                  ((leds0, leds1) :: shown) (err ++ e0 ++ e1) Hs') as [_ Hsync].
      split; [|exact Hsync].
      intros _ Hnil. exfalso.
      pose proof (animate_keeps_frames p start0 end0 start1 end1 t0 events WS2811_SUCCESS
                    fs1 ((leds0, leds1) :: shown) (err ++ e0 ++ e1)) as Hgen.
      rewrite Hnil in Hgen. cbn in Hgen. lia.
Qed.

(** With every render and every store successful, the state files hold the
    frame rendered last when the loop ends. *)
Lemma animate_files (p : params.params) (start0 end0 start1 end1 : list Z)
    (t0 : timespec) (ret : Z) (fs : filesystem) (err : list string)
    (events : list frame_event) :
  (forall ev, In ev events -> render ev = WS2811_SUCCESS /\ frame_stored ev) ->
  let r := animate p start0 end0 start1 end1 t0 ret fs [] err events in
  match rev (rendered r) with
  | [] => saved r = fs
  | (leds0, leds1) :: _ =>
      saved r "/tmp/leds0"%string = Some (fwrite32 leds0 count0)
      /\ saved r "/tmp/leds1"%string = Some (fwrite32 leds1 count1)
  end.
Proof.
  intros Hok r.
  destruct (animate_in_sync p start0 end0 start1 end1 t0 events Hok ret fs [] err I)
    as [Hnone Hsync].
  fold r in Hnone, Hsync. unfold in_sync in Hsync.
  destruct (rev (rendered r)) as [|[leds0 leds1] older] eqn:E; [|exact Hsync].
  apply Hnone; [reflexivity|].
  apply (f_equal (@rev _)) in E. now rewrite rev_involutive in E.
Qed.

(** X16: as long as every render and every store succeeds, whenever and
    however the loop ends the state files hold the frame rendered last, and
    are untouched when no frame was rendered. *)
Theorem files_hold_last_frame (p : params.params) (start0 end0 start1 end1 : list Z)
    (t0 : timespec) (ret : Z) (fs : filesystem) (err : list string)
    (events : list frame_event) :
  (forall ev, In ev events -> render ev = WS2811_SUCCESS) ->
  (forall ev, In ev events ->
     stored count0 (store0 ev) /\ stored count1 (store1 ev)) ->
  let r := animate p start0 end0 start1 end1 t0 ret fs [] err events in
  match rev (rendered r) with
  | [] => saved r = fs
  | (leds0, leds1) :: _ =>
      saved r "/tmp/leds0"%string = Some (fwrite32 leds0 count0)
      /\ saved r "/tmp/leds1"%string = Some (fwrite32 leds1 count1)
  end.
Proof.
  intros Hren Hst.
  exact (animate_files p start0 end0 start1 end1 t0 ret fs err events
           (fun ev He => conj (Hren ev He) (Hst ev He))).
Qed.

Lemma files_hold_last_frame_witness :
  let p := {| params.prog_name := "lightctl"; params.color := 0xFF804020;
              params.color_specified := true;
              params.duration := S754_finite false 8388608 (-22);
              params.limit_brightness := false |} in
  let r := animate p (repeat 0 count0) (repeat 0xFF804020 count0)
             (repeat 0 count1) (repeat 0xFF804020 count1)
             {| tv_sec := 1; tv_nsec := 0 |} WS2811_SUCCESS no_files [] []
             [frame_at 80; frame_at 1200; cancelled] in
  match rev (rendered r) with
  | [] => saved r = no_files
  | (leds0, leds1) :: _ =>
      saved r "/tmp/leds0"%string = Some (fwrite32 leds0 count0)
      /\ saved r "/tmp/leds1"%string = Some (fwrite32 leds1 count1)
  end.
Proof.
  intros p.
  apply (files_hold_last_frame p (repeat 0 count0) (repeat 0xFF804020 count0)
           (repeat 0 count1) (repeat 0xFF804020 count1)
           {| tv_sec := 1; tv_nsec := 0 |} WS2811_SUCCESS no_files []
           [frame_at 80; frame_at 1200; cancelled]).
  - intros ev [<-|[<-|[<-|[]]]]; reflexivity.
  - intros ev [<-|[<-|[<-|[]]]]; cbn; lia.
Defined.

Lemma animate_interrupted (p : params.params) (start0 end0 start1 end1 : list Z)
    (t0 : timespec) (ev : frame_event) (rest : list frame_event) :
  nonneg_float (params.duration p) ->
  running ev = false \/ clock ev = None ->
  forall pre, Forall (frame_continues p t0) pre ->
  forall ret fs shown err,
    let r := animate p start0 end0 start1 end1 t0 ret fs shown err (pre ++ ev :: rest) in
    exit r = Exit (match pre with [] => ret | _ => WS2811_SUCCESS end)
    /\ length (rendered r) = (length shown + length pre)%nat
    /\ stderr r = (if running ev then err ++ ["clock failed"%string] else err).
Proof.
  intros Hd Hev pre.
  induction pre as [|e pre IH]; intros Hpre ret fs shown err.
  - cbn [app animate].
    destruct (running ev); cbn [negb].
    + destruct Hev as [Hev|Hev]; [discriminate|]. rewrite Hev.
      cbv zeta beta. cbn [exit rendered stderr]. rewrite length_rev. cbn [length].
      repeat split. lia.
    + cbv zeta beta. cbn [exit rendered stderr]. rewrite length_rev. cbn [length].
      repeat split. lia.
  - inversion Hpre as [|? ? (Hr & Hs & [St0 St1] & now' & Hc & Hnb & Hlt) Hpre']; subst.
    cbn [app animate]. rewrite Hr, Hc. cbn [negb].
    destruct (progress_in_range p t0 now' Hd Hnb) as [Ht Hv].
    destruct (blend_leds_range start0 end0 _ Ht Hv) as (leds0 & -> & Hb0).
    destruct (blend_leds_range start1 end1 _ Ht Hv) as (leds1 & -> & Hb1).
    rewrite Hs. change (negb (WS2811_SUCCESS =? WS2811_SUCCESS)) with false. cbv iota.
    rewrite (store_leds_stored _ _ _ _ _ St0), (store_leds_stored _ _ _ _ _ St1).
    rewrite Hlt. cbv zeta beta iota. rewrite !app_nil_r.
    destruct (IH Hpre' WS2811_SUCCESS
                (write_file (write_file fs "/tmp/leds0" (fwrite32 leds0 count0))
                   "/tmp/leds1" (fwrite32 leds1 count1))
                ((leds0, leds1) :: shown) err) as (Hx & Hn & He).
    split; [|split; [|exact He]].
    + rewrite Hx. now destruct pre.
    + rewrite Hn. cbn [length]. lia.
Qed.

(** X28: when the loop is left because [running] was cleared or because
    [clock_gettime] failed, [main] returns the status of the last render,
    which is 0 after any rendered frame, or the status of [ws2811_init] when
    no frame was rendered: the exit code does not tell an interrupted fade
    from a completed one. *)
Theorem interrupted_fade_exit_status (p : params.params)
    (start0 end0 start1 end1 : list Z) (t0 : timespec) (ret : Z) (fs : filesystem)
    (err : list string) (pre : list frame_event) (ev : frame_event)
    (rest : list frame_event) :
  nonneg_float (params.duration p) ->
  Forall (frame_continues p t0) pre ->
  running ev = false \/ clock ev = None ->
  let r := animate p start0 end0 start1 end1 t0 ret fs [] err (pre ++ ev :: rest) in
  exit r = Exit (match pre with [] => ret | _ => WS2811_SUCCESS end)
  /\ length (rendered r) = length pre
  /\ stderr r = (if running ev then err ++ ["clock failed"%string] else err).
Proof.
  intros Hd Hpre Hev.
  exact (animate_interrupted p start0 end0 start1 end1 t0 ev rest Hd Hev pre Hpre
           ret fs [] err).
Qed.

Lemma interrupted_fade_exit_status_witness :
  let p := {| params.prog_name := "lightctl"; params.color := 0xFF804020;
              params.color_specified := true;
              params.duration := S754_finite false 8388608 (-22);
              params.limit_brightness := false |} in
  let r := animate p [0; 0] [0xFF804020; 0xFF804020] [0] [0xFF804020]
             {| tv_sec := 1; tv_nsec := 0 |} WS2811_SUCCESS no_files [] []
             ([frame_at 80; frame_at 1200] ++ clock_fails :: [frame_at 2000]) in
  exit r = Exit WS2811_SUCCESS
  /\ length (rendered r) = 2%nat
  /\ stderr r = ["clock failed"%string].
Proof.
  intros p.
  apply (interrupted_fade_exit_status p [0; 0] [0xFF804020; 0xFF804020] [0] [0xFF804020]
           {| tv_sec := 1; tv_nsec := 0 |} WS2811_SUCCESS no_files []
           [frame_at 80; frame_at 1200] clock_fails [frame_at 2000]).
  - reflexivity.
  - repeat constructor; try (cbn; lia); eexists; (split; [reflexivity|]);
      (split; [unfold not_before; cbn; lia|vm_compute; reflexivity]).
  - right. reflexivity.
Defined.

(** The status the loop returns is that of the render of the last frame, or
    the status on entry when no frame was rendered. *)
Lemma animate_exit_code (p : params.params) (start0 end0 start1 end1 : list Z)
    (t0 : timespec) (events : list frame_event) :
  forall ret fs shown err code,
    let r := animate p start0 end0 start1 end1 t0 ret fs shown err events in
    exit r = Exit code ->
    (code = ret /\ length (rendered r) = length shown)
    \/ exists pre ev rest,
         events = pre ++ ev :: rest /\ code = render ev
         /\ length (rendered r) = (length shown + S (length pre))%nat.
Proof.
  induction events as [|ev events IH]; intros ret fs shown err code; cbn [animate];
    [discriminate|].
  destruct (running ev); cbn [negb].
  2:{ cbv zeta beta. cbn [exit rendered]. intros H. injection H as <-.
      left. split; [reflexivity|apply length_rev]. }
  destruct (clock ev).
  2:{ cbv zeta beta. cbn [exit rendered]. intros H. injection H as <-.
      left. split; [reflexivity|apply length_rev]. }
  destruct (blend_leds start0 end0 _) as [leds0|]; [|discriminate].
  destruct (blend_leds start1 end1 _) as [leds1|]; [|discriminate].
  destruct (negb _).
  { cbv zeta beta. cbn [exit rendered]. intros H. injection H as <-.
    right. exists [], ev, events. split; [reflexivity|]. split; [reflexivity|].
    rewrite length_rev. cbn [length]. lia. }
  destruct (store_leds fs _ leds0 count0 _) as [fs0 err0].
  destruct (store_leds fs0 _ leds1 count1 _) as [fs1 err1].
  destruct (F32.leb _ _).
  { cbv zeta beta. cbn [exit rendered]. intros H. injection H as <-.
    right. exists [], ev, events. split; [reflexivity|]. split; [reflexivity|].
    rewrite length_rev. cbn [length]. lia. }
  cbv zeta beta. intros H. apply IH in H. right.
  destruct H as [[-> Hn]|(pre & e & rest & -> & -> & Hn)].
  - exists [], ev, events. split; [reflexivity|]. split; [reflexivity|].
    rewrite Hn. cbn [length]. lia.
  - exists (ev :: pre), e, rest. split; [reflexivity|]. split; [reflexivity|].
    rewrite Hn. cbn [length]. lia.
Qed.

Lemma blend_leds_repeat (color c : Z) (progress : spec_float) (n : nat) :
  blend_colors color color progress = Some c ->
  blend_leds (repeat color n) (repeat color n) progress = Some (repeat c n).
Proof.
  intros H. induction n as [|n IH]; [reflexivity|].
  cbn [repeat blend_leds]. now rewrite H, IH.
Qed.

(** A fade from a colour to itself: every iteration that renders a frame
    renders one that shows the colour. *)
Lemma animate_same_color (p : params.params) (color : Z) (t0 : timespec) :
  is_uint32 color -> nonneg_float (params.duration p) ->
  forall events,
    (forall ev now, In ev events -> clock ev = Some now -> not_before t0 now) ->
    forall ret fs shown err,
      let r := animate p (repeat color count0) (repeat color count0)
                 (repeat color count1) (repeat color count1) t0 ret fs shown err events in
      exit r <> Undefined
      /\ exists done rest frames,
           events = done ++ rest /\ rendered r = rev shown ++ frames
           /\ Forall2 (same_frame p t0 color) done frames.
Proof.
  intros HU Hd events.
  induction events as [|ev events IH]; intros Hclock ret fs shown err; cbn [animate].
  - cbv zeta beta. cbn [exit rendered]. split; [discriminate|].
    exists [], [], []. split; [reflexivity|]. split; [now rewrite app_nil_r|constructor].
  - destruct (running ev); cbn [negb].
    2:{ cbv zeta beta. cbn [exit rendered]. split; [discriminate|].
        exists [], (ev :: events), []. split; [reflexivity|].
        split; [now rewrite app_nil_r|constructor]. }
    destruct (clock ev) as [now|] eqn:Hnow.
    2:{ cbv zeta beta. cbn [exit rendered]. split; [discriminate|].
        exists [], (ev :: events), []. split; [reflexivity|].
        split; [now rewrite app_nil_r|constructor]. }
    pose proof (Hclock ev now (or_introl eq_refl) Hnow) as Hnb.
    pose proof (plus_nonneg _ (timespan_sign _ _ Hnb)) as He.
    destruct (blend_same_color_frame color _ _ HU He Hd) as (c & Hc & Hcu & Hnear & Hex).
    rewrite (blend_leds_repeat color c _ count0 Hc), (blend_leds_repeat color c _ count1 Hc).
    assert (Hframe : same_frame p t0 color ev (repeat c count0, repeat c count1)).
    { split.
      - unfold frame_shows. cbn [fst snd]. rewrite !repeat_length.
        split; [reflexivity|]. split; [reflexivity|].
        split; apply Forall_forall; intros x Hx; apply repeat_spec in Hx; subst x;
          split; assumption.
      - intros now' Hnow' Hp. rewrite Hnow in Hnow'. injection Hnow' as <-.
        now rewrite (Hex Hp). }
    destruct (negb (render ev =? WS2811_SUCCESS)).
    { cbv zeta beta. cbn [exit rendered]. split; [discriminate|].
      exists [ev], events, [(repeat c count0, repeat c count1)].
      split; [reflexivity|]. split; [reflexivity|]. now constructor. }
    destruct (store_leds fs _ (repeat c count0) count0 _) as [fs0 err0].
    destruct (store_leds fs0 _ (repeat c count1) count1 _) as [fs1 err1].
    destruct (F32.leb (F32.of_Z 1) _).
    { cbv zeta beta. cbn [exit rendered]. split; [discriminate|].
      exists [ev], events, [(repeat c count0, repeat c count1)].
      split; [reflexivity|]. split; [reflexivity|]. now constructor. }
    cbv zeta beta.
    destruct (IH (fun e n Hin => Hclock e n (or_intror Hin)) (render ev) fs1
                ((repeat c count0, repeat c count1) :: shown) (err ++ err0 ++ err1))
      as (Hx & done & rest & frames & -> & Hr & Hf).
    split; [exact Hx|].
    exists (ev :: done), rest, ((repeat c count0, repeat c count1) :: frames).
    split; [reflexivity|]. split; [|now constructor].
    rewrite Hr. cbn [rev]. now rewrite <- app_assoc.
Qed.

(** ** The command line *)

Section CommandLine.

Variable sx : string -> option Z.
Variable sf : string -> option spec_float.

(** What a successful pass over the arguments keeps and what it sets. *)
Lemma parse_args_keeps (n : nat) :
  forall args p p' err,
    (length args <= n)%nat ->
    parse_args sx sf args p = (Some p', err) ->
    err = []
    /\ params.prog_name p' = params.prog_name p
    /\ (~ In "--time"%string args -> ~ In "-t"%string args ->
        params.duration p' = params.duration p)
    /\ (~ In "--not-brighter"%string args ->
        params.limit_brightness p' = params.limit_brightness p)
    /\ (params.color_specified p = true ->
        params.color p' = params.color p /\ params.color_specified p' = true)
    /\ (params.color_specified p' = false -> params.color p' = params.color p)
    /\ (params.color_specified p = false -> params.color_specified p' = true ->
        exists arg, In arg args /\ sx arg = Some (params.color p')).
Proof.
  induction n as [|n IH]; intros args p p' err Hlen H.
  - destruct args; [|cbn in Hlen; lia]. cbn in H. injection H as <- <-.
    repeat split; try reflexivity; try assumption. intros H0 H1. congruence.
  - destruct args as [|arg rest].
    { cbn in H. injection H as <- <-.
      repeat split; try reflexivity; try assumption. intros H0 H1. congruence. }
    cbn [length] in Hlen. cbn [parse_args] in H.
    destruct ((arg =? "--help")%string || (arg =? "-h")%string); [discriminate|].
    destruct (arg =? "--not-brighter")%string eqn:Enb.
    { apply IH in H; [|lia]. cbn [params.prog_name params.color params.color_specified
                               params.duration params.limit_brightness] in H.
      destruct H as (He & Hn & Hd & _ & Hc & Hc' & Hx).
      apply String.eqb_eq in Enb. subst arg.
      split; [exact He|]. split; [exact Hn|]. split.
      { intros H1 H2. apply Hd; intros Hin; [apply H1|apply H2]; now right. }
      split. { intros Hin. exfalso. apply Hin. now left. }
      split; [exact Hc|]. split; [exact Hc'|].
      intros H1 H2. destruct (Hx H1 H2) as (a & Ha & Hsa). exists a. split; [now right|assumption]. }
    destruct ((arg =? "--time")%string || (arg =? "-t")%string) eqn:Et.
    { destruct rest as [|t rest']; [discriminate|].
      destruct (sf t) as [d|]; [|discriminate].
      apply IH in H; [|cbn [length] in Hlen; lia].
      cbn [params.prog_name params.color params.color_specified
           params.duration params.limit_brightness] in H.
      destruct H as (He & Hn & _ & Hl & Hc & Hc' & Hx).
      split; [exact He|]. split; [exact Hn|]. split.
      { intros H1 H2. exfalso. apply orb_true_iff in Et.
        destruct Et as [Et|Et]; apply String.eqb_eq in Et; subst arg;
          [apply H1|apply H2]; now left. }
      split.
      { intros Hin. apply Hl. intros H1. apply Hin. now right; right. }
      split; [exact Hc|]. split; [exact Hc'|].
      intros H1 H2. destruct (Hx H1 H2) as (a & Ha & Hsa).
      exists a. split; [now right; right|assumption]. }
    destruct (params.color_specified p) eqn:Ecs; cbn [negb] in H; [discriminate|].
    destruct (sx arg) as [c|] eqn:Esx; [|discriminate].
    apply IH in H; [|lia].
    cbn [params.prog_name params.color params.color_specified
         params.duration params.limit_brightness] in H.
    destruct H as (He & Hn & Hd & Hl & Hc & _ & _).
    destruct (Hc eq_refl) as [Hcol Hspec].
    split; [exact He|]. split; [exact Hn|]. split.
    { intros H1 H2. apply Hd; intros Hin; [apply H1|apply H2]; now right. }
    split.
    { intros Hin. apply Hl. intros H1. apply Hin. now right. }
    split; [discriminate|]. split; [congruence|].
    intros _ _. exists arg. split; [now left|congruence].
Qed.

(** A pass over [args1 ++ args2] is a pass over [args1] followed by one
    over [args2]. *)
Lemma parse_args_app (n : nat) :
  forall args1 args2 p p1 err,
    (length args1 <= n)%nat ->
    parse_args sx sf args1 p = (Some p1, err) ->
    parse_args sx sf (args1 ++ args2) p = parse_args sx sf args2 p1.
Proof.
  induction n as [|n IH]; intros args1 args2 p p1 err Hlen H.
  - destruct args1; [|cbn in Hlen; lia]. cbn in H. now injection H as <- <-.
  - destruct args1 as [|arg rest].
    { cbn in H. now injection H as <- <-. }
    cbn [length] in Hlen. cbn [parse_args app] in H |- *.
    destruct ((arg =? "--help")%string || (arg =? "-h")%string); [discriminate|].
    destruct (arg =? "--not-brighter")%string.
    { eapply IH; [|exact H]. lia. }
    destruct ((arg =? "--time")%string || (arg =? "-t")%string).
    { destruct rest as [|t rest']; [discriminate|]. cbn [app].
      destruct (sf t) as [d|]; [|discriminate].
      eapply IH; [|exact H]. cbn [length] in Hlen. lia. }
    destruct (negb (params.color_specified p)); [|discriminate].
    destruct (sx arg) as [c|]; [|discriminate].
    eapply IH; [|exact H]. lia.
Qed.

End CommandLine.

(** X17: a command line that [parse_cmdline] accepts prints nothing and
    gives the program name, duration +0 unless [--time] or [-t] occurs, no
    limiting unless [--not-brighter] occurs, and as colour 0 when none was
    read and otherwise the value [sscanf] made of one of the arguments. *)
Theorem parse_cmdline_defaults (sx : string -> option Z)
    (sf : string -> option spec_float) (name : string) (args : list string)
    (p : params.params) (err : list string) :
  parse_cmdline sx sf name args = (Some p, err) ->
  err = []
  /\ params.prog_name p = name
  /\ (~ In "--time"%string args -> ~ In "-t"%string args ->
      params.duration p = S754_zero false)
  /\ (~ In "--not-brighter"%string args -> params.limit_brightness p = false)
  /\ (params.color_specified p = false -> params.color p = 0)
  /\ (params.color_specified p = true ->
      exists arg, In arg args /\ sx arg = Some (params.color p)).
Proof.
  unfold parse_cmdline. intros H.
  apply (parse_args_keeps sx sf (length args) args _ p err (le_n _)) in H.
  cbn [params.prog_name params.color params.color_specified
       params.duration params.limit_brightness] in H.
  destruct H as (He & Hn & Hd & Hl & _ & Hc & Hx).
  repeat split; try assumption. now apply Hx.
Qed.

Lemma parse_cmdline_defaults_witness :
  let p := {| params.prog_name := "lightctl"; params.color := 0xFF804020;
              params.color_specified := true;
              params.duration := S754_zero false;
              params.limit_brightness := false |} in
  parse_cmdline scan_hex scan_float "lightctl" ["ff804020"]%string = (Some p, [])
  /\ params.duration p = S754_zero false
  /\ exists arg, In arg ["ff804020"]%string /\ scan_hex arg = Some (params.color p).
Proof.
  intros p. split; [reflexivity|].
  destruct (parse_cmdline_defaults scan_hex scan_float "lightctl" ["ff804020"]%string
              p [] eq_refl) as (_ & _ & Hd & _ & _ & Hx).
  split.
  - apply Hd; intros [H1|[]]; discriminate H1.
  - apply Hx. reflexivity.
Defined.

Lemma is_option_false (arg : string) :
  is_option arg = false ->
  (arg =? "--help")%string = false /\ (arg =? "-h")%string = false
  /\ (arg =? "--not-brighter")%string = false
  /\ (arg =? "--time")%string = false /\ (arg =? "-t")%string = false.
Proof.
  unfold is_option. rewrite !orb_false_iff. tauto.
Qed.

(** X18: after any arguments that are accepted, [parse_cmdline] refuses
    [--help] and [-h] without a message, [--time] without a value or with one
    that is no number, an argument that is no option and no hexadecimal
    number, and, once a colour has been read, any further argument that is
    no option, each with its message. *)
Theorem parse_cmdline_errors (sx : string -> option Z)
    (sf : string -> option spec_float) (name : string) (args : list string)
    (p : params.params) (err : list string) :
  parse_cmdline sx sf name args = (Some p, err) ->
  (forall arg rest, arg = "--help"%string \/ arg = "-h"%string ->
     parse_cmdline sx sf name (args ++ arg :: rest) = (None, []))
  /\ (forall arg, arg = "--time"%string \/ arg = "-t"%string ->
        parse_cmdline sx sf name (args ++ [arg])
        = (None, ["expected argument after --time"%string]))
  /\ (forall arg t rest, arg = "--time"%string \/ arg = "-t"%string -> sf t = None ->
        parse_cmdline sx sf name (args ++ arg :: t :: rest)
        = (None, ["expected floating point number after --time"%string]))
  /\ (forall arg rest, is_option arg = false -> params.color_specified p = false ->
        sx arg = None ->
        parse_cmdline sx sf name (args ++ arg :: rest)
        = (None, ["unknown argument " ++ arg
                  ++ " (color argument must be a hexadecimal number)"]%string))
  /\ (forall arg rest, is_option arg = false -> params.color_specified p = true ->
        parse_cmdline sx sf name (args ++ arg :: rest)
        = (None, ["unknown argument " ++ arg
                  ++ " (only one color argument allowed)"]%string)).
Proof.
  unfold parse_cmdline. intros H.
  pose proof (fun rest => parse_args_app sx sf (length args) args rest _ p err (le_n _) H)
    as Happ.
  split; [|split; [|split; [|split]]].
  - intros arg rest [->| ->]; rewrite Happ; reflexivity.
  - intros arg [->| ->]; rewrite Happ; reflexivity.
  - intros arg t rest [->| ->] Ht; rewrite Happ; cbn [parse_args]; cbn; now rewrite Ht.
  - intros arg rest Ho Hc Hx. rewrite Happ. cbn [parse_args].
    destruct (is_option_false arg Ho) as (-> & -> & -> & -> & ->).
    cbn [orb]. now rewrite Hc, Hx.
  - intros arg rest Ho Hc. rewrite Happ. cbn [parse_args].
    destruct (is_option_false arg Ho) as (-> & -> & -> & -> & ->).
    cbn [orb]. now rewrite Hc.
Qed.

Lemma parse_cmdline_errors_witness :
  parse_cmdline scan_hex scan_float "lightctl"
    (["--time"; "2"; "ff804020"; "--not-brighter"]%string
     ++ ["00ff00"; "-t"; "1"]%string)
  = (None, ["unknown argument 00ff00 (only one color argument allowed)"]%string).
Proof.
  destruct (parse_cmdline_errors scan_hex scan_float "lightctl"
              ["--time"; "2"; "ff804020"; "--not-brighter"]%string
              {| params.prog_name := "lightctl"; params.color := 0xFF804020;
                 params.color_specified := true;
                 params.duration := S754_finite false 8388608 (-22);
                 params.limit_brightness := true |} [] eq_refl)
    as (_ & _ & _ & _ & H).
  apply (H "00ff00"%string ["-t"; "1"]%string); reflexivity.
Defined.

(** X25: options are read from left to right, each after whatever was
    accepted before it. *)
Theorem parse_cmdline_appends (sx : string -> option Z)
    (sf : string -> option spec_float) (name : string) (args : list string)
    (p : params.params) (err : list string) :
  parse_cmdline sx sf name args = (Some p, err) ->
  parse_cmdline sx sf name (args ++ ["--not-brighter"%string])
  = (Some {| params.prog_name := params.prog_name p;
             params.color := params.color p;
             params.color_specified := params.color_specified p;
             params.duration := params.duration p;
             params.limit_brightness := true |}, [])
  /\ (forall opt t d, opt = "--time"%string \/ opt = "-t"%string -> sf t = Some d ->
        parse_cmdline sx sf name (args ++ [opt; t])
        = (Some {| params.prog_name := params.prog_name p;
                   params.color := params.color p;
                   params.color_specified := params.color_specified p;
                   params.duration := d;
                   params.limit_brightness := params.limit_brightness p |}, []))
  /\ (forall arg c, is_option arg = false -> params.color_specified p = false ->
        sx arg = Some c ->
        parse_cmdline sx sf name (args ++ [arg])
        = (Some {| params.prog_name := params.prog_name p;
                   params.color := c;
                   params.color_specified := true;
                   params.duration := params.duration p;
                   params.limit_brightness := params.limit_brightness p |}, [])).
Proof.
  unfold parse_cmdline. intros H.
  pose proof (fun rest => parse_args_app sx sf (length args) args rest _ p err (le_n _) H)
    as Happ.
  split; [|split].
  - rewrite Happ. reflexivity.
  - intros opt t d [->| ->] Ht; rewrite Happ; cbn [parse_args]; cbn; now rewrite Ht.
  - intros arg c Ho Hc Hx. rewrite Happ. cbn [parse_args].
    destruct (is_option_false arg Ho) as (-> & -> & -> & -> & ->).
    cbn [orb]. now rewrite Hc, Hx.
Qed.

Lemma parse_cmdline_appends_witness :
  parse_cmdline scan_hex scan_float "lightctl"
    (["--time"; "5"; "ff804020"]%string ++ ["-t"; "2"]%string)
  = (Some {| params.prog_name := "lightctl"; params.color := 0xFF804020;
             params.color_specified := true;
             params.duration := S754_finite false 8388608 (-22);
             params.limit_brightness := false |}, []).
Proof.
  destruct (parse_cmdline_appends scan_hex scan_float "lightctl"
              ["--time"; "5"; "ff804020"]%string
              {| params.prog_name := "lightctl"; params.color := 0xFF804020;
                 params.color_specified := true;
                 params.duration := S754_finite false 10485760 (-21);
                 params.limit_brightness := false |} [] eq_refl)
    as (_ & H & _).
  apply (H "-t"%string "2"%string); [now right|reflexivity].
Defined.

(** ** The program *)

Lemma main_failure_exits_witness :
  let r := main scan_hex scan_float "lightctl" ["ff804020"; "00ff00"]%string
             (world_of (files_showing 0x10) [frame_at 3]) in
  exit r = Exit (-1) /\ usage r = true /\ rendered r = []
  /\ saved r = files_showing 0x10.
Proof.
  apply (proj1 (main_failure_exits scan_hex scan_float "lightctl"
                  ["ff804020"; "00ff00"]%string
                  (world_of (files_showing 0x10) [frame_at 3]))).
  reflexivity.
Defined.

(** X20: when the duration is not negative and the clock does not go
    backwards, a run converts no float out of range, and every buffer given
    to the driver has the length of its channel (167 and 109) and holds
    [uint32_t] values. *)
Theorem main_never_undefined (sx : string -> option Z)
    (sf : string -> option spec_float) (name : string) (args : list string)
    (w : world) :
  (forall p err, parse_cmdline sx sf name args = (Some p, err) ->
                 nonneg_float (params.duration p)) ->
  (forall t0 ev now, starttime w = Some t0 -> In ev (frames w) ->
                     clock ev = Some now -> not_before t0 now) ->
  let r := main sx sf name args w in
  exit r <> Undefined /\ Forall frame_well_formed (rendered r).
Proof.
  intros Hdur Hclock. unfold main.
  destruct (parse_cmdline sx sf name args) as [[p|] err] eqn:Hp;
    [|cbn; split; [discriminate|constructor]].
  specialize (Hdur p err eq_refl).
  destruct (negb (setuid w =? 0)); [cbn; split; [discriminate|constructor]|].
  pose proof (load_leds_length (files w) "/tmp/leds0" _ count0 (stack_length w 0 count0))
    as Hl0.
  pose proof (load_leds_length (files w) "/tmp/leds1" _ count1
                (stack_length w count0 count1)) as Hl1.
  destruct (load_leds (files w) "/tmp/leds0" _ count0) as [start0 err0].
  destruct (load_leds (files w) "/tmp/leds1" _ count1) as [start1 err1].
  cbn [fst] in Hl0, Hl1.
  destruct (end_state_defined p start0) as [end0 He0].
  destruct (end_state_defined p start1) as [end1 He1].
  rewrite He0, He1.
  destruct (starttime w) as [t0|]; [|cbn; split; [discriminate|constructor]].
  destruct (negb (init w =? WS2811_SUCCESS)); [cbn; split; [discriminate|constructor]|].
  destruct (animate_safe p start0 end0 start1 end1 t0 Hdur (frames w)
              (fun ev now => Hclock t0 ev now eq_refl) (init w) (files w) [] (err ++ err0 ++ err1)
              (Forall_nil _)) as [Hx Hf].
  split; [exact Hx|].
  eapply Forall_impl; [|exact Hf].
  intros [leds0 leds1] [Hb0 Hb1]. cbn [fst snd] in Hb0, Hb1.
  apply end_state_length in He0, He1.
  unfold frame_well_formed. cbn [fst snd].
  rewrite (leds_between_length _ _ _ Hb0), (leds_between_length _ _ _ Hb1).
  split; [lia|]. split; [lia|].
  split; eapply leds_between_uint32; eassumption.
Qed.

Lemma main_never_undefined_witness :
  let r := main scan_hex scan_float "lightctl" ["ff804020"; "--time"; "2"]%string
             (world_of no_files [frame_at 80; frame_at 2500]) in
  exit r <> Undefined /\ Forall frame_well_formed (rendered r).
Proof.
  apply (main_never_undefined scan_hex scan_float "lightctl"
           ["ff804020"; "--time"; "2"]%string
           (world_of no_files [frame_at 80; frame_at 2500])).
  - intros p err H. vm_compute in H. injection H as <- _. reflexivity.
  - intros t0 ev now Ht Hin Hc. cbn in Ht. injection Ht as <-.
    destruct Hin as [<-|[<-|[]]]; cbn in Hc; injection Hc as <-;
      unfold not_before; cbn; lia.
Defined.



(** X22: the exit code of a run is -1 or the status of [ws2811_init],
    with no frame rendered, or the status of the [ws2811_render] of the
    iteration that rendered the last frame. *)
Theorem exit_code_sources (sx : string -> option Z) (sf : string -> option spec_float)
    (name : string) (args : list string) (w : world) (code : Z) :
  let r := main sx sf name args w in
  exit r = Exit code ->
  (code = -1 /\ rendered r = [])
  \/ (code = init w /\ rendered r = [])
  \/ exists pre ev rest,
       frames w = pre ++ ev :: rest
       /\ length (rendered r) = S (length pre)
       /\ code = render ev.
Proof.
  unfold main.
  destruct (parse_cmdline sx sf name args) as [[p|] err];
    [|cbn [exit rendered]; intros H; injection H as <-; now left].
  destruct (negb (setuid w =? 0));
    [cbn [exit rendered]; intros H; injection H as <-; now left|].
  destruct (load_leds (files w) "/tmp/leds0" _ count0) as [start0 err0].
  destruct (load_leds (files w) "/tmp/leds1" _ count1) as [start1 err1].
  destruct (end_state p start0) as [end0|]; [|discriminate].
  destruct (end_state p start1) as [end1|]; [|discriminate].
  destruct (starttime w) as [t0|];
    [|cbn [exit rendered]; intros H; injection H as <-; now left].
  destruct (negb (init w =? WS2811_SUCCESS));
    [cbn [exit rendered]; intros H; injection H as <-; right; now left|].
  cbv zeta. intros H. apply animate_exit_code in H. right.
  destruct H as [[-> Hn]|(pre & ev & rest & Hf & -> & Hn)].
  - left. split; [reflexivity|]. cbn [length] in Hn. now apply length_zero_iff_nil.
  - right. exists pre, ev, rest. split; [exact Hf|]. split; [exact Hn|reflexivity].
Qed.

Lemma exit_code_sources_witness :
  let failing :=
    {| running := true; clock := Some {| tv_sec := 1; tv_nsec := 500000000 |};
       render := -7; store0 := Open_fails; store1 := Open_fails |} in
  let w := world_of no_files [frame_at 3; failing; frame_at 900] in
  let r := main scan_hex scan_float "lightctl" ["ff804020"; "--time"; "2"]%string w in
  (-7 = -1 /\ rendered r = [])
  \/ (-7 = init w /\ rendered r = [])
  \/ exists pre ev rest,
       frames w = pre ++ ev :: rest
       /\ length (rendered r) = S (length pre)
       /\ -7 = render ev.
Proof.
  intros failing w.
  apply (exit_code_sources scan_hex scan_float "lightctl"
           ["ff804020"; "--time"; "2"]%string w (-7)).
  vm_compute. reflexivity.
Defined.

(** ** A fade to the colour the LEDs already show *)

(** C9, as the code has it: when the requested colour is the persisted
    start colour of every LED, the duration is not negative and the clock
    does not go backwards, a run converts no float out of range; the
    rendered frames are those of the first iterations of the loop, one
    each; every frame has all 167 and 109 LEDs, each a [uint32_t] that has
    in every channel the colour's value or one less, and is exactly the
    colour on every LED when the progress of its iteration is 0 or 1, as in
    the last frame of a completed fade.  When every render and every store
    succeeds the state files hold, when the loop ends, the frame rendered
    last, and are untouched when there is none. *)
Theorem same_color_fade (sx : string -> option Z) (sf : string -> option spec_float)
    (name : string) (args : list string) (w : world) (p : params.params)
    (perr : list string) :
  parse_cmdline sx sf name args = (Some p, perr) ->
  is_uint32 (params.color p) ->
  nonneg_float (params.duration p) ->
  fst (load_leds (files w) "/tmp/leds0" (map (stack w) (seq 0 count0)) count0)
  = repeat (params.color p) count0 ->
  fst (load_leds (files w) "/tmp/leds1" (map (stack w) (seq count0 count1)) count1)
  = repeat (params.color p) count1 ->
  (forall t0 ev now, starttime w = Some t0 -> In ev (frames w) ->
                     clock ev = Some now -> not_before t0 now) ->
  let r := main sx sf name args w in
  exit r <> Undefined
  /\ match starttime w with
     | None => rendered r = []
     | Some t0 =>
         exists done rest,
           frames w = done ++ rest
           /\ Forall2 (same_frame p t0 (params.color p)) done (rendered r)
     end
  /\ ((forall ev, In ev (frames w) -> render ev = WS2811_SUCCESS /\ frame_stored ev) ->
      match rev (rendered r) with
      | [] => saved r = files w
      | (leds0, leds1) :: _ =>
          saved r "/tmp/leds0"%string = Some (fwrite32 leds0 count0)
          /\ saved r "/tmp/leds1"%string = Some (fwrite32 leds1 count1)
      end).
Proof.
  intros Hp HU Hd Hs0 Hs1 Hclock. unfold main. rewrite Hp.
  destruct (negb (setuid w =? 0)).
  { cbn [exit rendered saved rev]. split; [discriminate|]. split; [|reflexivity].
    destruct (starttime w); [|reflexivity].
    exists [], (frames w). split; [reflexivity|constructor]. }
  destruct (load_leds (files w) "/tmp/leds0" _ count0) as [start0 err0].
  destruct (load_leds (files w) "/tmp/leds1" _ count1) as [start1 err1].
  cbn [fst] in Hs0, Hs1. subst start0 start1.
  rewrite !end_state_same.
  destruct (starttime w) as [t0|]; [|cbn; split; [discriminate|now split]].
  destruct (negb (init w =? WS2811_SUCCESS)).
  { cbn [exit rendered saved rev]. split; [discriminate|]. split; [|reflexivity].
    exists [], (frames w). split; [reflexivity|constructor]. }
  destruct (animate_same_color p (params.color p) t0 HU Hd (frames w)
              (fun ev now => Hclock t0 ev now eq_refl) (init w) (files w) []
              (perr ++ err0 ++ err1)) as (Hx & done & rest & shown & Hf & Hr & Hall).
  cbn [rev app] in Hr.
  split; [exact Hx|]. split.
  - exists done, rest. split; [exact Hf|]. rewrite Hr. exact Hall.
  - intros Hok. now apply animate_files.
Qed.

Lemma same_color_fade_witness :
  let p := {| params.prog_name := "lightctl"; params.color := 0xFF804020;
              params.color_specified := true;
              params.duration := S754_finite false 8388608 (-22);
              params.limit_brightness := false |} in
  let t0 := {| tv_sec := 1; tv_nsec := 0 |} in
  let w := world_of (files_showing 0xFF804020) [frame_at 80; frame_at 2000; frame_at 2100] in
  let r := main scan_hex scan_float "lightctl" ["ff804020"; "--time"; "2"]%string w in
  exit r <> Undefined
  /\ (exists done rest,
        frames w = done ++ rest /\ Forall2 (same_frame p t0 0xFF804020) done (rendered r))
  /\ ((forall ev, In ev (frames w) -> render ev = WS2811_SUCCESS /\ frame_stored ev) ->
      match rev (rendered r) with
      | [] => saved r = files w
      | (leds0, leds1) :: _ =>
          saved r "/tmp/leds0"%string = Some (fwrite32 leds0 count0)
          /\ saved r "/tmp/leds1"%string = Some (fwrite32 leds1 count1)
      end).
Proof.
  intros p t0 w.
  apply (same_color_fade scan_hex scan_float "lightctl"
           ["ff804020"; "--time"; "2"]%string w p []).
  - vm_compute. reflexivity.
  - unfold is_uint32. cbn. lia.
  - reflexivity.
  - vm_compute. reflexivity.
  - vm_compute. reflexivity.
  - intros t ev now Ht Hin Hc. cbn in Ht. injection Ht as <-.
    destruct Hin as [<-|[<-|[<-|[]]]]; cbn in Hc; injection Hc as <-;
      unfold not_before; cbn; lia.
Defined.
